(** * Verification of the airport graph of LiveTraffic (src/Src/LTApt.cpp)

    Shallow embedding of the taxi/runway network of [Apt]: nodes, runway
    endpoints, edges, the graph-building operations, the angle index used by
    [FindEdgesForHeading], the bounded shortest path search [ShortestPath],
    the runway selection of [LTAptFindRwy] and the runway branch of
    [SnapToTaxiway].

    A C++ [double] is modelled by [dbl]: a finite value (exact, as an integer
    in the unit of the field: degrees, meters or seconds), [+inf]
    ([HUGE_VAL]), [-inf] or [NaN], with IEEE comparison semantics (every
    comparison with [NaN] is false).  Rounding is not modelled. *)

From Stdlib Require Import ZArith Lia Sorting.Sorted.
From stdpp Require Import base list strings.

Open Scope Z_scope.

(** ** Doubles *)

Inductive dbl := Fin (z : Z) | PInf | NInf | NaN.

Definition dadd (x y : dbl) : dbl :=
  match x, y with
  | NaN, _ | _, NaN => NaN
  | Fin a, Fin b => Fin (a + b)
  | PInf, NInf | NInf, PInf => NaN
  | PInf, _ | _, PInf => PInf
  | NInf, _ | _, NInf => NInf
  end.

Definition dneg (x : dbl) : dbl :=
  match x with Fin a => Fin (- a) | PInf => NInf | NInf => PInf | NaN => NaN end.

Definition dsub (x y : dbl) : dbl := dadd x (dneg y).

Definition dabs (x : dbl) : dbl :=
  match x with Fin a => Fin (Z.abs a) | NInf => PInf | y => y end.

(** [x < y] *)
Definition dlt (x y : dbl) : bool :=
  match x, y with
  | Fin a, Fin b => a <? b
  | NInf, Fin _ | NInf, PInf | Fin _, PInf => true
  | _, _ => false
  end.

(** [x <= y] *)
Definition dle (x y : dbl) : bool :=
  match x, y with
  | NaN, _ | _, NaN => false
  | Fin a, Fin b => a <=? b
  | NInf, _ | _, PInf => true
  | _, _ => false
  end.

Definition dgt (x y : dbl) : bool := dlt y x.
Definition dge (x y : dbl) : bool := dle y x.

(** [std::isnan] *)
Definition isnan (x : dbl) : bool := match x with NaN => true | _ => false end.

(** ** Data model *)

(** [TaxiNode::prevIdx] is a [size_t]; [ULONG_MAX] means "no predecessor"
    and [ULONG_MAX-1] "is a start node". *)
Inductive prevTy := PrevNone | PrevStart | Prev (n : nat).

Record TaxiNode := mkTaxiNode {
  lat : dbl;
  lon : dbl;
  vecEdges : list nat;
  pathLen : dbl;
  prevIdx : prevTy;
  bVisited : bool
}.

(** [TaxiNode ()]: no coordinates.  The Dijkstra attributes are not set by
    the C++ constructors; they are always initialised by
    [InitDijkstraAttr] before being read. *)
Definition TaxiNode_default : TaxiNode := mkTaxiNode NaN NaN [] PInf PrevNone false.
(** [TaxiNode (lat, lon)] *)
Definition TaxiNode_at (la lo : dbl) : TaxiNode := mkTaxiNode la lo [] PInf PrevNone false.

#[global] Instance TaxiNode_inhabited : Inhabited TaxiNode := populate TaxiNode_default.

Definition InitDijkstraAttr (n : TaxiNode) : TaxiNode :=
  mkTaxiNode (lat n) (lon n) (vecEdges n) PInf PrevNone false.

Definition HasGeoCoords (n : TaxiNode) : bool := negb (isnan (lat n)) && negb (isnan (lon n)).

Definition set_dijk (n : TaxiNode) (pl : dbl) (pv : prevTy) : TaxiNode :=
  mkTaxiNode (lat n) (lon n) (vecEdges n) pl pv (bVisited n).
Definition set_visited (n : TaxiNode) : TaxiNode :=
  mkTaxiNode (lat n) (lon n) (vecEdges n) (pathLen n) (prevIdx n) true.
Definition push_edge (n : TaxiNode) (e : nat) : TaxiNode :=
  mkTaxiNode (lat n) (lon n) (vecEdges n ++ [e]) (pathLen n) (prevIdx n) (bVisited n).
Definition set_edges (n : TaxiNode) (es : list nat) : TaxiNode :=
  mkTaxiNode (lat n) (lon n) es (pathLen n) (prevIdx n) (bVisited n).
Definition set_pos (n : TaxiNode) (la lo : dbl) : TaxiNode :=
  mkTaxiNode la lo (vecEdges n) (pathLen n) (prevIdx n) (bVisited n).

(** [RwyEndPt] derives from [TaxiNode]; the base part is [rnode]. *)
Record RwyEndPt := mkRwyEndPt {
  rnode : TaxiNode;
  rid : string;
  alt_m : dbl;
  vecTaxiNodes : list nat
}.

#[global] Instance RwyEndPt_inhabited : Inhabited RwyEndPt :=
  populate (mkRwyEndPt TaxiNode_default "" NaN []).

(** [TaxiEdge::nodeTy] *)
Inductive nodeTy := UNKNOWN_WAY | RUN_WAY | TAXI_WAY.

Definition nodeTy_eqb (x y : nodeTy) : bool :=
  match x, y with
  | UNKNOWN_WAY, UNKNOWN_WAY | RUN_WAY, RUN_WAY | TAXI_WAY, TAXI_WAY => true
  | _, _ => false
  end.

Record TaxiEdge := mkTaxiEdge {
  etype : nodeTy;
  ea : nat;
  eb : nat;
  angle : dbl;
  dist_m : dbl
}.

#[global] Instance TaxiEdge_inhabited : Inhabited TaxiEdge :=
  populate (mkTaxiEdge UNKNOWN_WAY 0 0 NaN NaN).

(** [TaxiEdge::Normalize]: [0 <= angle < 180] by swapping [a] and [b]. *)
Definition Normalize (e : TaxiEdge) : TaxiEdge :=
  if dge (angle e) (Fin 180)
  then mkTaxiEdge (etype e) (eb e) (ea e) (dsub (angle e) (Fin 180)) (dist_m e)
  else e.

(** The constructor [TaxiEdge (t, a, b, angle, dist)] normalises. *)
Definition TaxiEdge_new (t : nodeTy) (a b : nat) (ang d : dbl) : TaxiEdge :=
  Normalize (mkTaxiEdge t a b ang d).

(** [TaxiEdge::SetEndNode] *)
Definition SetEndNode (e : TaxiEdge) (b : nat) (ang d : dbl) : TaxiEdge :=
  Normalize (mkTaxiEdge (etype e) (ea e) b ang d).

(** [TaxiEdge::otherNode] *)
Definition otherNode (e : TaxiEdge) (n : nat) : nat :=
  if Nat.eqb n (ea e) then eb e else ea e.

(** [boundingBoxTy] (defined outside src/): the box as south/west/north/east
    corners, [None] while empty. *)
Definition boundingBoxTy := option (dbl * dbl * dbl * dbl).

Definition dmin (x y : dbl) : dbl := if dlt y x then y else x.
Definition dmax (x y : dbl) : dbl := if dlt x y then y else x.

Definition enlarge_pos (bb : boundingBoxTy) (la lo : dbl) : boundingBoxTy :=
  match bb with
  | None => Some (la, lo, la, lo)
  | Some (s, w, n, e) => Some (dmin s la, dmin w lo, dmax n la, dmax e lo)
  end.

Record Apt := mkApt {
  aid : string;
  bounds : boundingBoxTy;
  aalt_m : dbl;
  vecTaxiNodesA : list TaxiNode;
  vecRwyEndPts : list RwyEndPt;
  vecTaxiEdges : list TaxiEdge;
  vecTaxiEdgesIdxHead : list nat
}.

Definition Apt_new (i : string) : Apt := mkApt i None NaN [] [] [] [].

Definition set_nodes (a : Apt) (ns : list TaxiNode) : Apt :=
  mkApt (aid a) (bounds a) (aalt_m a) ns (vecRwyEndPts a) (vecTaxiEdges a) (vecTaxiEdgesIdxHead a).
Definition set_edgesA (a : Apt) (es : list TaxiEdge) : Apt :=
  mkApt (aid a) (bounds a) (aalt_m a) (vecTaxiNodesA a) (vecRwyEndPts a) es (vecTaxiEdgesIdxHead a).

(** [TaxiEdge::GetA] / [GetB]: the edge type selects the node store. *)
Definition GetA (apt : Apt) (e : TaxiEdge) : TaxiNode :=
  if nodeTy_eqb (etype e) RUN_WAY then rnode (vecRwyEndPts apt !!! ea e)
  else vecTaxiNodesA apt !!! ea e.
Definition GetB (apt : Apt) (e : TaxiEdge) : TaxiNode :=
  if nodeTy_eqb (etype e) RUN_WAY then rnode (vecRwyEndPts apt !!! eb e)
  else vecTaxiNodesA apt !!! eb e.

(** ** [Apt::ShortestPath] *)

Module Dijkstra.

(** [push_back_unique] (LiveTraffic utilities) *)
Definition push_back_unique (v : list nat) (n : nat) : list nat :=
  if existsb (Nat.eqb n) v then v else v ++ [n].

(** Linear scan of [vecVisit] for the first node with the smallest
    [pathLen]; [i] is the position of the head of [l], [bi]/[bd] the best
    position and distance so far. *)
Fixpoint scan_min (nodes : list TaxiNode) (l : list nat) (i bi : nat) (bd : dbl) : nat * dbl :=
  match l with
  | [] => (bi, bd)
  | n :: l' =>
      let d := pathLen (nodes !!! n) in
      if dlt d bd then scan_min nodes l' (S i) i d
      else scan_min nodes l' (S i) bi bd
  end.

(** The inner loop over the edges of the node just visited; it stops
    ([break]) right after the end node has been updated. *)
Fixpoint relax (edges : list TaxiEdge) (maxLen : dbl) (endN sIdx : nat) (sDist : dbl)
    (es : list nat) (nodes : list TaxiNode) (visit : list nat) : list TaxiNode * list nat :=
  match es with
  | [] => (nodes, visit)
  | eIdx :: es' =>
      let e := edges !!! eIdx in
      let updNIdx := otherNode e sIdx in
      let updN := nodes !!! updNIdx in
      if bVisited updN then relax edges maxLen endN sIdx sDist es' nodes visit
      else
        let lenToUpd := dadd sDist (dist_m e) in
        if dgt lenToUpd maxLen || dle (pathLen updN) lenToUpd
        then relax edges maxLen endN sIdx sDist es' nodes visit
        else
          let nodes' := <[updNIdx := set_dijk updN lenToUpd (Prev sIdx)]> nodes in
          if Nat.eqb updNIdx endN then (nodes', visit)
          else relax edges maxLen endN sIdx sDist es' nodes' (push_back_unique visit updNIdx)
  end.

Definition is_prev_none (p : prevTy) : bool :=
  match p with PrevNone => true | _ => false end.

(** One iteration of the outer [while] loop. *)
Definition dijkstra_iter (edges : list TaxiEdge) (maxLen : dbl) (endN : nat)
    (nodes : list TaxiNode) (visit : list nat) (v0 : nat) (rest : list nat)
    : list TaxiNode * list nat :=
  let '(pos, sDist) := scan_min nodes rest 1 0 (pathLen (nodes !!! v0)) in
  let sIdx := (v0 :: rest) !!! pos in
  let nodes1 := <[sIdx := set_visited (nodes !!! sIdx)]> nodes in
  let visit1 := delete pos (v0 :: rest) in
  relax edges maxLen endN sIdx sDist (vecEdges (nodes1 !!! sIdx)) nodes1 visit1.

(** The outer loop [while (!vecVisit.empty() && endN.prevIdx == ULONG_MAX)];
    [fuel] bounds the number of iterations. *)
Fixpoint dijkstra_loop (fuel : nat) (edges : list TaxiEdge) (maxLen : dbl) (endN : nat)
    (nodes : list TaxiNode) (visit : list nat) : list TaxiNode * list nat :=
  match fuel with
  | O => (nodes, visit)
  | S f =>
      match visit with
      | [] => (nodes, visit)
      | v0 :: rest =>
          if is_prev_none (prevIdx (nodes !!! endN)) then
            let '(nodes2, visit2) := dijkstra_iter edges maxLen endN nodes visit v0 rest in
            dijkstra_loop f edges maxLen endN nodes2 visit2
          else (nodes, visit)
      end
  end.

(** Collecting the path from [_endN] back to a start node; [None] when
    [vecTaxiNodes.at] throws. *)
Fixpoint collect (fuel : nat) (nodes : list TaxiNode) (nIdx : nat) : option (list nat) :=
  match fuel with
  | O => Some []
  | S f =>
      match nodes !! nIdx with
      | None => None
      | Some n =>
          match prevIdx n with
          | PrevStart => Some []
          | Prev p => l ← collect f nodes p; Some (nIdx :: l)
          | PrevNone => None
          end
      end
  end.

(** Seeding every node of [ns] at distance 0 as a start node. *)
Fixpoint seed (ns : list nat) (nodes : list TaxiNode) (visit : list nat) : list TaxiNode * list nat :=
  match ns with
  | [] => (nodes, visit)
  | n :: ns' => seed ns' (<[n := set_dijk (nodes !!! n) (Fin 0) PrevStart]> nodes) (visit ++ [n])
  end.

(** Enough iterations for the outer loop: every iteration visits a node of
    the network or drops a duplicate start node from [vecVisit]. *)
Definition loop_fuel (nodes : list TaxiNode) (seeds : list nat) : nat :=
  S (length nodes + length seeds).

(** [Apt::ShortestPath (_startN, bStartIsRwy, _endN, _maxLen)]: the new node
    store (the Dijkstra attributes stay in [vecTaxiNodes]) and the returned
    index list; [None] when an [at] access throws. *)
Definition ShortestPath (apt : Apt) (startN : nat) (bStartIsRwy : bool) (endN : nat) (maxLen : dbl)
    : option (list TaxiNode * list nat) :=
  if negb bStartIsRwy && Nat.eqb startN endN then Some (vecTaxiNodesA apt, [])
  else
    let nodes0 := map InitDijkstraAttr (vecTaxiNodesA apt) in
    let seeds :=
      if bStartIsRwy then option_map vecTaxiNodes (vecRwyEndPts apt !! startN)
      else option_map (fun _ => [startN]) (nodes0 !! startN) in
    match seeds with
    | None => None
    | Some ss =>
        let '(nodes1, visit1) := seed ss nodes0 [] in
        let '(nodes2, _) := dijkstra_loop (loop_fuel nodes1 ss) (vecTaxiEdges apt) maxLen endN nodes1 visit1 in
        if is_prev_none (prevIdx (nodes2 !!! endN)) then Some (nodes2, [])
        else option_map (fun l => (nodes2, l)) (collect (S (length nodes2)) nodes2 endN)
    end.


(** A node sequence [ns] walked from [s] to [t] along edges of the network,
    with the summed edge length [L]. *)
Definition conn (e : TaxiEdge) (p n : nat) : Prop :=
  (ea e = p /\ eb e = n) \/ (eb e = p /\ ea e = n).

Inductive walk (nodes : list TaxiNode) (edges : list TaxiEdge)
    : nat -> list nat -> list nat -> nat -> Z -> Prop :=
| walk_nil s : walk nodes edges s [] [] s 0
| walk_cons s n ns eIdx e d es t L :
    eIdx ∈ vecEdges (nodes !!! s) -> edges !! eIdx = Some e -> conn e s n ->
    dist_m e = Fin d -> walk nodes edges n ns es t L ->
    walk nodes edges s (n :: ns) (eIdx :: es) t (d + L).

(** Well-formed taxi network: the edges listed at a node exist, have that node
    as an endpoint, both endpoints are nodes, and their length is a
    non-negative distance. *)
Definition wf_net (nodes : list TaxiNode) (edges : list TaxiEdge) : Prop :=
  forall n eIdx, (n < length nodes)%nat -> eIdx ∈ vecEdges (nodes !!! n) ->
    exists e d, edges !! eIdx = Some e /\ (ea e = n \/ eb e = n) /\
      (ea e < length nodes)%nat /\ (eb e < length nodes)%nat /\
      dist_m e = Fin d /\ 0 <= d.

Definition wf_apt (apt : Apt) : Prop :=
  wf_net (vecTaxiNodesA apt) (vecTaxiEdges apt) /\
  forall ep n, ep ∈ vecRwyEndPts apt -> n ∈ vecTaxiNodes ep ->
    (n < length (vecTaxiNodesA apt))%nat.

(** The nodes seeded at distance 0 for a search from [startN]. *)
Definition start_node (apt : Apt) (startN : nat) (bStartIsRwy : bool) (s : nat) : Prop :=
  if bStartIsRwy
  then exists ep, vecRwyEndPts apt !! startN = Some ep /\ s ∈ vecTaxiNodes ep
  else s = startN.

(** The predecessor chain from [n]: the nodes collected before reaching the
    start node [s]. *)
Inductive chain (nodes : list TaxiNode) : nat -> list nat -> nat -> Prop :=
| chain_start n : (n < length nodes)%nat -> prevIdx (nodes !!! n) = PrevStart ->
    chain nodes n [] n
| chain_step n p l s : (n < length nodes)%nat -> prevIdx (nodes !!! n) = Prev p ->
    chain nodes p l s -> chain nodes n (n :: l) s.

(** A decision procedure for [wf_apt], to check concrete networks. *)
Definition wf_edge_b (nodes : list TaxiNode) (edges : list TaxiEdge) (n eIdx : nat) : bool :=
  match edges !! eIdx with
  | Some e =>
      (Nat.eqb (ea e) n || Nat.eqb (eb e) n) && Nat.ltb (ea e) (length nodes) &&
      Nat.ltb (eb e) (length nodes) &&
      match dist_m e with Fin d => Z.leb 0 d | _ => false end
  | None => false
  end.

Definition wf_net_b (nodes : list TaxiNode) (edges : list TaxiEdge) : bool :=
  forallb (fun n => forallb (wf_edge_b nodes edges n) (vecEdges (nodes !!! n)))
    (seq 0 (length nodes)).

Definition wf_apt_b (apt : Apt) : bool :=
  wf_net_b (vecTaxiNodesA apt) (vecTaxiEdges apt) &&
  forallb (fun ep => forallb (fun n => Nat.ltb n (length (vecTaxiNodesA apt))) (vecTaxiNodes ep))
    (vecRwyEndPts apt).

(** A small taxi network: nodes 0, 1 and 2; a long edge 0-1 of 10 m and a
    detour 0-2-1 of 2 m. *)
Definition g1 : Apt :=
  mkApt "G1" None NaN
    [mkTaxiNode (Fin 0) (Fin 0) [0; 1]%nat PInf PrevNone false;
     mkTaxiNode (Fin 0) (Fin 10) [0; 2]%nat PInf PrevNone false;
     mkTaxiNode (Fin 1) (Fin 5) [1; 2]%nat PInf PrevNone false]
    []
    [mkTaxiEdge TAXI_WAY 0%nat 1%nat (Fin 90) (Fin 10);
     mkTaxiEdge TAXI_WAY 0%nat 2%nat (Fin 80) (Fin 1);
     mkTaxiEdge TAXI_WAY 2%nat 1%nat (Fin 100) (Fin 1)]
    [1; 0; 2]%nat.

(** The node store left behind by a search. *)
Definition sp_nodes (r : option (list TaxiNode * list nat)) : list TaxiNode :=
  match r with Some (ns, _) => ns | None => [] end.

End Dijkstra.

(** ** Building the network: [Apt::AddTaxiNode], [AddTaxiNodeFixed],
    [AddTaxiEdge], [RecalcTaxiEdge], [SplitEdge], [SortTaxiEdges],
    [AddRwyEnds] and the body of [JoinOpenTaxiEdges] *)

Module Build.

(** [std::vector::at] and the other failing operations return [None] when
    they throw [std::out_of_range]. *)

Section Geometry.

(** The geometry helpers of LiveTraffic's CoordCalc (outside src/), which the
    spec assumes as a library: the bearing [CoordAngle] from the first to the
    second coordinate pair, the distance [DistLatLon] in meters, the
    similarity thresholds [Dist2Lat (APT_MAX_SIMILAR_NODE_DIST_M)] and
    [Dist2Lon (APT_MAX_SIMILAR_NODE_DIST_M, lat)] of [GetSimilarTaxiNode],
    and the runway geometry of [AddRwyEnds] ([positionTy::between] and the
    shifts to the touch-down points): the touch-down coordinates of both ends
    and the remaining runway length. *)
Variable CoordAngle : dbl -> dbl -> dbl -> dbl -> dbl.
Variable DistLatLon : dbl -> dbl -> dbl -> dbl -> dbl.
Variable latDiff : dbl.
Variable lonDiff : dbl -> dbl.
Variable RwyTouchDown : dbl -> dbl -> dbl -> dbl -> dbl -> dbl -> dbl * dbl * dbl * dbl * dbl.

(** The predicate of the [std::find_if] in [GetSimilarTaxiNode]; the
    excluded node [pNotThis] is compared by address, that is by index. *)
Definition similar (la lo : dbl) (n : TaxiNode) : bool :=
  dle (dabs (dsub (lat n) la)) latDiff && dle (dabs (dsub (lon n) lo)) (lonDiff la).

Fixpoint find_similar (nodes : list TaxiNode) (i : nat) (notThis : option nat) (la lo : dbl)
    : option nat :=
  match nodes with
  | [] => None
  | n :: ns =>
      if negb (bool_decide (notThis = Some i)) && similar la lo n then Some i
      else find_similar ns (S i) notThis la lo
  end.

(** [Apt::GetSimilarTaxiNode]: [dontCombineWith] is [None] for [ULONG_MAX];
    [vecTaxiNodes.at(dontCombineWith)] throws out of range.  The inner
    [None] is the end iterator. *)
Definition GetSimilarTaxiNode (nodes : list TaxiNode) (la lo : dbl) (dontCombineWith : option nat)
    : option (option nat) :=
  match dontCombineWith with
  | None => Some (find_similar nodes 0 None la lo)
  | Some d => if Nat.ltb d (length nodes) then Some (find_similar nodes 0 (Some d) la lo) else None
  end.

(** [Apt::AddTaxiNode] *)
Definition AddTaxiNode (apt : Apt) (la lo : dbl) (dontCombineWith : option nat) : option (Apt * nat) :=
  match GetSimilarTaxiNode (vecTaxiNodesA apt) la lo dontCombineWith with
  | None => None
  | Some (Some i) => Some (apt, i)
  | Some None =>
      Some (mkApt (aid apt) (enlarge_pos (bounds apt) la lo) (aalt_m apt)
              (vecTaxiNodesA apt ++ [TaxiNode_at la lo]) (vecRwyEndPts apt)
              (vecTaxiEdges apt) (vecTaxiEdgesIdxHead apt),
            length (vecTaxiNodesA apt))
  end.

(** [Apt::AddTaxiNodeFixed]: [resize] fills with [TaxiNode ()], the
    assignment replaces the node, incident edges included. *)
Definition AddTaxiNodeFixed (apt : Apt) (la lo : dbl) (idx : nat) : Apt :=
  let ns := vecTaxiNodesA apt in
  let ns' :=
    if Nat.eqb idx (length ns) then ns ++ [TaxiNode_at la lo]
    else <[idx := TaxiNode_at la lo]>
           (if Nat.ltb (length ns) idx then ns ++ replicate (S idx - length ns) TaxiNode_default
            else ns) in
  mkApt (aid apt) (enlarge_pos (bounds apt) la lo) (aalt_m apt) ns'
    (vecRwyEndPts apt) (vecTaxiEdges apt) (vecTaxiEdgesIdxHead apt).

(** [Apt::AddTaxiEdge]: [None] when [at] throws, [Some (apt, None)] for the
    result [ULONG_MAX].  [a] and [b] are references into the node vector,
    so for [n1 = n2] the node receives the new index twice. *)
Definition AddTaxiEdge (apt : Apt) (n1 n2 : nat) (d : dbl) : option (Apt * option nat) :=
  let ns := vecTaxiNodesA apt in
  match ns !! n1, ns !! n2 with
  | Some a, Some b =>
      if negb (HasGeoCoords a) || negb (HasGeoCoords b) then Some (apt, None)
      else
        let d' := if isnan d then DistLatLon (lat a) (lon a) (lat b) (lon b) else d in
        let es := vecTaxiEdges apt ++
                    [TaxiEdge_new TAXI_WAY n1 n2 (CoordAngle (lat a) (lon a) (lat b) (lon b)) d'] in
        let eIdx := length (vecTaxiEdges apt) in
        let ns1 := <[n1 := push_edge (ns !!! n1) eIdx]> ns in
        let ns2 := <[n2 := push_edge (ns1 !!! n2) eIdx]> ns1 in
        Some (mkApt (aid apt) (bounds apt) (aalt_m apt) ns2 (vecRwyEndPts apt) es
                (vecTaxiEdgesIdxHead apt), Some eIdx)
  | _, _ => None
  end.

(** [Apt::RecalcTaxiEdge] on the edge [e]: the new value of [e]. *)
Definition RecalcTaxiEdge (apt : Apt) (e : TaxiEdge) : TaxiEdge :=
  let a := GetA apt e in
  let b := GetB apt e in
  Normalize (mkTaxiEdge (etype e) (ea e) (eb e)
               (CoordAngle (lat a) (lon a) (lat b) (lon b))
               (DistLatLon (lat a) (lon a) (lat b) (lon b))).

(** [Apt::SplitEdge].  [vecTaxiNodes[joinOrigB]] is not checked: outside
    the vector the erase does nothing here, and the final [AddTaxiEdge]
    throws. *)
Definition SplitEdge (apt : Apt) (eIdx insNode : nat) : option Apt :=
  match vecTaxiEdges apt !! eIdx with
  | None => None
  | Some e =>
      if Nat.eqb insNode (ea e) || Nat.eqb insNode (eb e) then Some apt
      else
        let joinOrigB := eb e in
        let ns := vecTaxiNodesA apt in
        let a := GetA apt e in
        match ns !! insNode with
        | None => None
        | Some b =>
            let e' := SetEndNode e insNode (CoordAngle (lat a) (lon a) (lat b) (lon b))
                        (DistLatLon (lat a) (lon a) (lat b) (lon b)) in
            let ns1 := <[insNode := push_edge b eIdx]> ns in
            let origB := ns1 !!! joinOrigB in
            let ns2 := <[joinOrigB := set_edges origB
                            (List.filter (fun x => negb (Nat.eqb x eIdx)) (vecEdges origB))]> ns1 in
            let apt1 := mkApt (aid apt) (bounds apt) (aalt_m apt) ns2 (vecRwyEndPts apt)
                          (<[eIdx := e']> (vecTaxiEdges apt)) (vecTaxiEdgesIdxHead apt) in
            option_map fst (AddTaxiEdge apt1 insNode joinOrigB NaN)
        end
  end.

(** [Apt::SortTaxiEdges]: the index is reset to [0..n-1] when its size
    differs from the number of edges, then ordered by angle.  [std::sort]
    may order equal angles in any way; insertion sort is one of the orders
    it can produce. *)
Fixpoint insert_by_angle (es : list TaxiEdge) (i : nat) (l : list nat) : list nat :=
  match l with
  | [] => [i]
  | j :: l' => if dlt (angle (es !!! i)) (angle (es !!! j)) then i :: l
               else j :: insert_by_angle es i l'
  end.

Definition SortTaxiEdges (apt : Apt) : Apt :=
  let es := vecTaxiEdges apt in
  let idx := if Nat.eqb (length es) (length (vecTaxiEdgesIdxHead apt))
             then vecTaxiEdgesIdxHead apt else seq 0 (length es) in
  mkApt (aid apt) (bounds apt) (aalt_m apt) (vecTaxiNodesA apt) (vecRwyEndPts apt) es
    (fold_right (insert_by_angle es) [] idx).

(** [RwyEndPt (id, lat, lon)] *)
Definition RwyEndPt_new (i : string) (la lo : dbl) : RwyEndPt :=
  mkRwyEndPt (TaxiNode_at la lo) i NaN [].

(** [Apt::AddRwyEnds]: two runway endpoints at the touch-down points and
    one runway edge between them, whose angle is the one of the vector
    [re1.between(re2)] between the original ends. *)
Definition AddRwyEnds (apt : Apt) (lat1 lon1 displaced1 : dbl) (id1 : string)
    (lat2 lon2 displaced2 : dbl) (id2 : string) : Apt :=
  let '(la1, lo1, la2, lo2, rdist) := RwyTouchDown lat1 lon1 displaced1 lat2 lon2 displaced2 in
  let eps := vecRwyEndPts apt ++ [RwyEndPt_new id1 la1 lo1; RwyEndPt_new id2 la2 lo2] in
  mkApt (aid apt) (enlarge_pos (enlarge_pos (bounds apt) la1 lo1) la2 lo2) (aalt_m apt)
    (vecTaxiNodesA apt) eps
    (vecTaxiEdges apt ++
       [TaxiEdge_new RUN_WAY (length eps - 2) (length eps - 1) (CoordAngle lat1 lon1 lat2 lon2) rdist])
    (vecTaxiEdgesIdxHead apt).

Definition push_rwy_node (ep : RwyEndPt) (i : nat) : RwyEndPt :=
  mkRwyEndPt (rnode ep) (rid ep) (alt_m ep) (vecTaxiNodes ep ++ [i]).

(** One iteration of [Apt::JoinOpenTaxiEdges], for the node [i] whose only
    edge [e] is not a runway, when [FindClosestEdge] returns the edge
    [joinIdx] (any edge but [e]) and the base point [(la, lo)].  For a
    runway, [bStartA] tells which end [startByHeading] selects.  [None]
    when [FindClosestEdge] cannot return this edge, or an operation throws. *)
Definition JoinOpenTaxiEdge (apt : Apt) (i joinIdx : nat) (bStartA : bool) (la lo : dbl)
    : option Apt :=
  match vecTaxiNodesA apt !! i with
  | None => None
  | Some n =>
      match vecEdges n with
      | [eIdx] =>
          match vecTaxiEdges apt !! eIdx, vecTaxiEdges apt !! joinIdx with
          | Some e, Some je =>
              if nodeTy_eqb (etype e) RUN_WAY || Nat.eqb joinIdx eIdx then None
              else if nodeTy_eqb (etype je) RUN_WAY then
                let k := if bStartA then ea je else eb je in
                match vecRwyEndPts apt !! k with
                | None => None
                | Some ep =>
                    Some (mkApt (aid apt) (bounds apt) (aalt_m apt) (vecTaxiNodesA apt)
                            (<[k := push_rwy_node ep i]> (vecRwyEndPts apt))
                            (vecTaxiEdges apt) (vecTaxiEdgesIdxHead apt))
                end
              else
                let apt0 := set_nodes apt (<[i := set_pos n la lo]> (vecTaxiNodesA apt)) in
                let apt1 := set_edgesA apt0 (<[eIdx := RecalcTaxiEdge apt0 e]> (vecTaxiEdges apt0)) in
                option_map SortTaxiEdges (SplitEdge apt1 joinIdx i)
          | _, _ => None
          end
      | _ => None
      end
  end.

(** The operations that build an airport while [apt.dat] is read. *)
Inductive BuildOp :=
| OpAddTaxiNode (la lo : dbl) (dontCombineWith : option nat)
| OpAddTaxiNodeFixed (la lo : dbl) (idx : nat)
| OpAddTaxiEdge (n1 n2 : nat) (d : dbl)
| OpAddRwyEnds (lat1 lon1 displaced1 : dbl) (id1 : string) (lat2 lon2 displaced2 : dbl) (id2 : string)
| OpSortTaxiEdges
| OpJoin (i joinIdx : nat) (bStartA : bool) (la lo : dbl).

Definition exec_op (apt : Apt) (op : BuildOp) : option Apt :=
  match op with
  | OpAddTaxiNode la lo d => option_map fst (AddTaxiNode apt la lo d)
  | OpAddTaxiNodeFixed la lo idx => Some (AddTaxiNodeFixed apt la lo idx)
  | OpAddTaxiEdge n1 n2 d => option_map fst (AddTaxiEdge apt n1 n2 d)
  | OpAddRwyEnds l1 o1 d1 i1 l2 o2 d2 i2 => Some (AddRwyEnds apt l1 o1 d1 i1 l2 o2 d2 i2)
  | OpSortTaxiEdges => Some (SortTaxiEdges apt)
  | OpJoin i j b la lo => JoinOpenTaxiEdge apt i j b la lo
  end.

Fixpoint run (apt : Apt) (ops : list BuildOp) : option Apt :=
  match ops with
  | [] => Some apt
  | op :: ops' => match exec_op apt op with None => None | Some apt' => run apt' ops' end
  end.

(** Coordinates read from [apt.dat] (and base points computed from them)
    are numbers. *)
Definition op_coords_ok (op : BuildOp) : bool :=
  match op with
  | OpAddTaxiNodeFixed la lo _ | OpJoin _ _ _ la lo => negb (isnan la) && negb (isnan lo)
  | OpAddRwyEnds l1 o1 _ _ l2 o2 _ _ =>
      negb (isnan l1) && negb (isnan o1) && negb (isnan l2) && negb (isnan o2)
  | _ => true
  end.

End Geometry.

(** The node store an edge's indices refer to: [TaxiEdge::GetA] and [GetB]
    read the runway endpoints for a [RUN_WAY] edge and the taxi nodes
    otherwise. *)
Definition edge_in_store (apt : Apt) (e : TaxiEdge) : Prop :=
  (etype e = RUN_WAY /\ (ea e < length (vecRwyEndPts apt))%nat /\
                        (eb e < length (vecRwyEndPts apt))%nat) \/
  (etype e = TAXI_WAY /\ (ea e < length (vecTaxiNodesA apt))%nat /\
                         (eb e < length (vecTaxiNodesA apt))%nat).

Definition is_rwy (e : TaxiEdge) : bool := nodeTy_eqb (etype e) RUN_WAY.

(** The endpoints of an edge, as an ordered pair. *)
Definition rwy_ends (e : TaxiEdge) : nat * nat := (Nat.min (ea e) (eb e), Nat.max (ea e) (eb e)).

(** The runway endpoint pairs [(0,1); (2,3); ...] of [m] runways. *)
Definition rwy_pairs (m : nat) : list (nat * nat) := map (fun j => (2 * j, 2 * j + 1)%nat) (seq 0 m).

End Build.

(** ** Snapping positions to the taxi network *)

Module Snap.

(** The fields of [positionTy] that [SnapToTaxiway] reads or writes: the
    coordinates, the timestamp, the heading, [edgeIdx] (a [size_t]) and
    [flightPhase] (an [LTAPIAircraft] enumeration value). *)
Record positionTy := mkPos {
  plat : dbl;
  plon : dbl;
  pts : dbl;
  pheading : dbl;
  edgeIdx : nat;
  flightPhase : Z
}.

#[global] Instance positionTy_inhabited : Inhabited positionTy := populate (mkPos NaN NaN NaN NaN 0 0).

Definition set_edgeIdx (p : positionTy) (e : nat) : positionTy :=
  mkPos (plat p) (plon p) (pts p) (pheading p) e (flightPhase p).
Definition set_flightPhase (p : positionTy) (f : Z) : positionTy :=
  mkPos (plat p) (plon p) (pts p) (pheading p) (edgeIdx p) f.
(** [FindClosestEdge (pos, basePt, ...)] with [basePt] = [pos]: "Only
    [positionTy::lat], [positionTy::lon], and [positionTy::edgeIdx] will be
    modified." *)
Definition set_base (p : positionTy) (la lo : dbl) (e : nat) : positionTy :=
  mkPos la lo (pts p) (pheading p) e (flightPhase p).

Section SnapSec.
(** Constants defined outside src/: the [edgeIdx] value [EDGE_UNAVAIL] and
    the flight phase [FPH_TAXI]. *)
Variable EDGE_UNAVAIL : nat.
Variable FPH_TAXI : Z.
(** [Apt::FindClosestEdge (pos, pos, ...)]: the index of the closest edge
    and the base point on it, or [None] for [nullptr]. *)
Variable FindClosestEdge : Apt -> positionTy -> option (nat * dbl * dbl).
(** The part of [SnapToTaxiway] after the flight phase is set to
    [FPH_TAXI] ("Insert shortest path along taxiways"), on the position
    deque and the iterator (an index); it always returns [true]. *)
Variable InsertTaxiPath : Apt -> list positionTy -> nat -> nat -> list positionTy * nat.

(** [Apt::SnapToTaxiway] on the deque [fd.posDeque] and [posIter]: the
    result, the deque and the iterator afterwards. *)
Definition SnapToTaxiway (apt : Apt) (posDeque : list positionTy) (posIter : nat)
    : bool * list positionTy * nat :=
  let pos := posDeque !!! posIter in
  match FindClosestEdge apt pos with
  | None => (false, <[posIter := set_edgeIdx pos EDGE_UNAVAIL]> posDeque, posIter)
  | Some (eIdx, bla, blo) =>
      let pos1 := set_base pos bla blo eIdx in
      if negb (nodeTy_eqb (etype (vecTaxiEdges apt !!! eIdx)) RUN_WAY) then
        let dq := <[posIter := set_flightPhase pos1 FPH_TAXI]> posDeque in
        let '(dq', it) := InsertTaxiPath apt dq posIter eIdx in (true, dq', it)
      else (true, <[posIter := pos1]> posDeque, posIter)
  end.

End SnapSec.

(** An airport with just the runway edge 09/27, for concrete runs. *)
Definition rwyApt : Apt :=
  mkApt "RWY" None NaN [] [] [TaxiEdge_new RUN_WAY 0 1 (Fin 90) (Fin 100)] [0%nat].

End Snap.

(** ** Runway selection for auto-land *)

Module FindRwy.

(** A runway endpoint candidate: the airport, the index of the runway edge
    and the endpoint [rwyEP] the aircraft aims at. *)
Definition cand : Type := Apt * nat * RwyEndPt.

(** The loops of [LTAptFindRwy] over the airports of [gmapApt] (in map
    order) and over the runways [lstRwys] that [FindEdgesForHeading] returns
    for each ([rwysFor]); [rwyEP] is [GetRwyEP_B] if the heading is
    inverted, else [GetRwyEP_A]. *)
Definition candidates (bHeadInverted : bool) (rwysFor : Apt -> list nat) (apts : list Apt)
    : list cand :=
  concat (map (fun a => map (fun eIdx =>
    let e := vecTaxiEdges a !!! eIdx in
    (a, eIdx, vecRwyEndPts a !!! (if bHeadInverted then eb e else ea e))) (rwysFor a)) apts).

Section FindRwySec.
(** The initial [bestHeadingDiff], the allowed vertical speeds, and the
    geometry (outside src/) computed for an endpoint: [headingDiffTo] is
    [std::abs(HeadingDiff(from.heading(), CoordAngle(from, rwyEP)))], [vsiTo]
    is [(rwyEP.alt_m - from.alt_m()) / (CoordDistance(from, rwyEP) / speed_m_s)]. *)
Variable ART_RWY_MAX_HEAD_DIFF : dbl.
Variable vsi_min vsi_max : dbl.
Variable headingDiffTo : RwyEndPt -> dbl.
Variable vsiTo : RwyEndPt -> dbl.

(** One iteration of the inner loop on the state (best match,
    [bestHeadingDiff]). *)
Definition cand_step (st : option cand * dbl) (c : cand) : option cand * dbl :=
  let '(_, _, rwyEP) := c in
  if isnan (alt_m rwyEP) then st
  else
    let headingDiff := headingDiffTo rwyEP in
    if dgt headingDiff (snd st) then st
    else
      let vsi := vsiTo rwyEP in
      if dlt vsi vsi_min || dgt vsi vsi_max then st
      else (Some c, headingDiff).

(** The best match of [LTAptFindRwy] ([None]: no suitable runway). *)
Definition LTAptFindRwy_best (bHeadInverted : bool) (rwysFor : Apt -> list nat) (apts : list Apt)
    : option cand :=
  fst (fold_left cand_step (candidates bHeadInverted rwysFor apts) (None, ART_RWY_MAX_HEAD_DIFF)).

Definition cand_ep (c : cand) : RwyEndPt := let '(_, _, ep) := c in ep.
Definition hd (c : cand) : dbl := headingDiffTo (cand_ep c).

(** The checks of the altitude and of the vertical speed. *)
Definition base_ok (c : cand) : bool :=
  negb (isnan (alt_m (cand_ep c))) &&
  negb (dlt (vsiTo (cand_ep c)) vsi_min || dgt (vsiTo (cand_ep c)) vsi_max).

(** A candidate passes all checks against the best heading difference [h]. *)
Definition pass_b (h : dbl) (c : cand) : bool := base_ok c && negb (dgt (hd c) h).

End FindRwySec.

(** An airport with two runways (four endpoints at 100 m). *)
Definition twoRwyApt : Apt :=
  mkApt "TWO" None NaN []
    [mkRwyEndPt (TaxiNode_at (Fin 0) (Fin 0)) "09L" (Fin 100) [];
     mkRwyEndPt (TaxiNode_at (Fin 0) (Fin 100)) "27R" (Fin 100) [];
     mkRwyEndPt (TaxiNode_at (Fin 1) (Fin 0)) "09R" (Fin 100) [];
     mkRwyEndPt (TaxiNode_at (Fin 1) (Fin 100)) "27L" (Fin 100) []]
    [TaxiEdge_new RUN_WAY 0 1 (Fin 90) (Fin 100); TaxiEdge_new RUN_WAY 2 3 (Fin 90) (Fin 100)]
    [0%nat; 1%nat].

End FindRwy.

(** ** Edges by heading *)

Module Heading.

(** [std::lower_bound (first, last, x, comp)] with [comp (idx, x)] =
    [vecTaxiEdges[idx].angle < x]: the iterator to the first element for
    which [comp] is false, here as the remaining range [[it, last)].  The
    C++ function finds it by binary search; on a range partitioned by
    [comp] (its precondition) that is this first element. *)
Fixpoint lower_bound (es : list TaxiEdge) (l : list nat) (x : dbl) : list nat :=
  match l with
  | [] => []
  | i :: l' => if dlt (angle (es !!! i)) x then lower_bound es l' x else l
  end.

(** The inner [for] loop: from the iterator while [angle <= hi], adding
    the edges of the requested type. *)
Fixpoint scan_range (es : list TaxiEdge) (restrictType : nodeTy) (l : list nat) (hi : dbl)
    : list nat :=
  match l with
  | [] => []
  | i :: l' =>
      if dle (angle (es !!! i)) hi then
        let e := es !!! i in
        if nodeTy_eqb restrictType UNKNOWN_WAY || nodeTy_eqb restrictType (etype e)
        then i :: scan_range es restrictType l' hi
        else scan_range es restrictType l' hi
      else []
  end.

(** The search ranges [vecRanges] for [_headSearch] and [_angleTolerance]. *)
Definition heading_ranges (headSearch angleTolerance : dbl) : list (dbl * dbl) :=
  let headSearch' := if dge headSearch (Fin 180) then dsub headSearch (Fin 180) else headSearch in
  let headBegin := dsub headSearch' angleTolerance in
  let headEnd := dadd headSearch' angleTolerance in
  if dle (Fin 0) headBegin && dlt headEnd (Fin 180) then [(headBegin, headEnd)]
  else if dlt headBegin (Fin 0) then
    [(Fin 0, headEnd); (dadd headBegin (Fin 180), Fin 180)]
  else [(Fin 0, dsub headEnd (Fin 180)); (headBegin, Fin 180)].

(** The outer [for] loop over the ranges, appending to [lst]. *)
Fixpoint search_ranges (es : list TaxiEdge) (idxHead : list nat) (restrictType : nodeTy)
    (lst : list nat) (rs : list (dbl * dbl)) : list nat :=
  match rs with
  | [] => lst
  | (lo, hi) :: rs' =>
      search_ranges es idxHead restrictType
        (lst ++ scan_range es restrictType (lower_bound es idxHead lo) hi) rs'
  end.

(** [Apt::FindEdgesForHeading]: the list [lst] afterwards and the result. *)
Definition FindEdgesForHeading (apt : Apt) (headSearch angleTolerance : dbl) (lst : list nat)
    (restrictType : nodeTy) : list nat * bool :=
  let lst' := search_ranges (vecTaxiEdges apt) (vecTaxiEdgesIdxHead apt) restrictType lst
                (heading_ranges headSearch angleTolerance) in
  (lst', negb (bool_decide (lst' = []))).

(** The preconditions stated in [FindEdgesForHeading]'s comments: the edge
    angles are normalised to [0, 180) ... *)
Definition angles_normalised (es : list TaxiEdge) : bool :=
  forallb (fun e => match angle e with Fin z => (0 <=? z) && (z <? 180) | _ => false end) es.

(** ... [vecTaxiEdgesIdxHead] lists the edges, each of them ... *)
Definition idx_complete (es : list TaxiEdge) (idxHead : list nat) : bool :=
  forallb (fun i => Nat.ltb i (length es)) idxHead &&
  forallb (fun i => bool_decide (i ∈ idxHead)) (seq 0 (length es)).

(** ... and is sorted by angle ([SortTaxiEdges]). *)
Fixpoint sorted_by_angle (es : list TaxiEdge) (l : list nat) : bool :=
  match l with
  | i :: ((j :: _) as l') => dle (angle (es !!! i)) (angle (es !!! j)) && sorted_by_angle es l'
  | _ => true
  end.

(** Three taxiway edges at 10, 100 and 175 degrees, sorted. *)
Definition headApt : Apt :=
  mkApt "HDG" None NaN [] []
    [mkTaxiEdge TAXI_WAY 0 1 (Fin 10) (Fin 1); mkTaxiEdge TAXI_WAY 1 2 (Fin 100) (Fin 1);
     mkTaxiEdge TAXI_WAY 2 3 (Fin 175) (Fin 1)]
    [0%nat; 1%nat; 2%nat].

End Heading.

Module Samples.
Import Build.

(** Sample geometry helpers for concrete runs. *)
Definition sampleAngle (la1 lo1 la2 lo2 : dbl) : dbl :=
  match la1, lo1, la2, lo2 with
  | Fin a, Fin b, Fin c, Fin d => Fin (if (a =? c) && (b <? d) then 90 else if a =? c then 270 else 0)
  | _, _, _, _ => Fin 0
  end.
Definition sampleDist (la1 lo1 la2 lo2 : dbl) : dbl := dabs (dsub lo2 lo1).
Definition sampleTD (la1 lo1 d1 la2 lo2 d2 : dbl) : dbl * dbl * dbl * dbl * dbl :=
  (la1, lo1, la2, lo2, dabs (dsub lo2 lo1)).

(** A runway 09/27 and one taxiway, joined to the runway. *)
Definition sample_ops : list BuildOp :=
  [OpAddRwyEnds (Fin 0) (Fin 0) (Fin 0) "09" (Fin 0) (Fin 100) (Fin 0) "27";
   OpAddTaxiNode (Fin 10) (Fin 50) None;
   OpAddTaxiNode (Fin 30) (Fin 50) None;
   OpAddTaxiEdge 0 1 NaN;
   OpSortTaxiEdges;
   OpJoin 0 0 true (Fin 0) (Fin 50)].

End Samples.

(** ** [Apt::FindClosestEdge] and the heading helpers of [TaxiEdge] *)

Module Closest.
Import Snap Heading.

(** [TaxiEdge::GetAngleFrom]: the angle pointing away from node [n]. *)
Definition GetAngleFrom (e : TaxiEdge) (n : nat) : dbl :=
  if Nat.eqb n (ea e) then angle e else dadd (angle e) (Fin 180).

(** [std::isfinite] *)
Definition dfin (x : dbl) : bool := match x with Fin _ => true | _ => false end.

(** [std::max (a, b)] returns [(a < b) ? b : a]. *)
Definition dstdmax (x y : dbl) : dbl := if dlt x y then y else x.

(** [sqr (_maxDist_m)] on the [int] [_maxDist_m]: the product is an [int]
    too, wrapped to 32 bits two's complement when it overflows (the C++
    standard leaves that case undefined; this is what the compiled code
    does). *)
Definition int32_wrap (z : Z) : Z :=
  let r := z mod 2 ^ 32 in if r <? 2 ^ 31 then r else r - 2 ^ 32.
Definition sqr_int (m : Z) : Z := int32_wrap (m * m).

Section ClosestSec.
(** The geometry of LiveTraffic's CoordCalc (outside src/): [HeadingNormalize]
    and [HeadingDiff], the conversions [Lon2Dist], [Lat2Dist], [Dist2Lon] and
    [Dist2Lat] between degrees and meters, the result [distToLineTy] of
    [DistPointToLineSqr] with its square distance [dist2] and
    [DistSqrOfBaseBeyondLine], and [DistResultToBaseLoc]; the constant
    [SCND_PRIO_ADD] of [FindClosestEdge]. *)
Variable HeadingNormalize : dbl -> dbl.
Variable HeadingDiff : dbl -> dbl -> dbl.
Variable Lon2Dist : dbl -> dbl -> dbl.
Variable Lat2Dist : dbl -> dbl.
Variable Dist2Lon : dbl -> dbl -> dbl.
Variable Dist2Lat : dbl -> dbl.
Variable distToLineTy : Type.
Variable dist2 : distToLineTy -> dbl.
Variable DistSqrOfBaseBeyondLine : distToLineTy -> dbl.
Variable DistPointToLineSqr : dbl -> dbl -> dbl -> dbl -> dbl -> dbl -> distToLineTy.
Variable DistResultToBaseLoc : dbl -> dbl -> dbl -> dbl -> distToLineTy -> dbl * dbl.
Variable SCND_PRIO_ADD : dbl.

(** [std::abs(HeadingDiff(heading, angle)) < 90.0], the test of
    [GetAngleByHead], [startByHeading] and [endByHeading]. *)
Definition head_fwd (e : TaxiEdge) (heading : dbl) : bool :=
  dlt (dabs (HeadingDiff heading (angle e))) (Fin 90).

(** [TaxiEdge::GetAngleByHead] *)
Definition GetAngleByHead (e : TaxiEdge) (heading : dbl) : dbl :=
  if head_fwd e heading then angle e else dadd (angle e) (Fin 180).

(** [TaxiEdge::startByHeading (apt, heading)] and [endByHeading (apt, heading)] *)
Definition startByHeadingN (apt : Apt) (e : TaxiEdge) (heading : dbl) : TaxiNode :=
  if head_fwd e heading then GetA apt e else GetB apt e.
Definition endByHeadingN (apt : Apt) (e : TaxiEdge) (heading : dbl) : TaxiNode :=
  if head_fwd e heading then GetB apt e else GetA apt e.

(** [TaxiEdge::startByHeading (heading)] and [endByHeading (heading)] *)
Definition startByHeading (e : TaxiEdge) (heading : dbl) : nat :=
  if head_fwd e heading then ea e else eb e.
Definition endByHeading (e : TaxiEdge) (heading : dbl) : nat :=
  if head_fwd e heading then eb e else ea e.

(** The local coordinates [from_x], [from_y], [to_x], [to_y] of the edge
    [eIdx] relative to [pos], and its distance to [(0|0)]. *)
Definition edge_geo (apt : Apt) (pos : positionTy) (headSearch : dbl) (eIdx : nat)
    : dbl * dbl * dbl * dbl * distToLineTy :=
  let e := vecTaxiEdges apt !!! eIdx in
  let from := startByHeadingN apt e headSearch in
  let to := endByHeadingN apt e headSearch in
  let from_x := Lon2Dist (dsub (lon from) (plon pos)) (plat pos) in
  let from_y := Lat2Dist (dsub (lat from) (plat pos)) in
  let to_x := Lon2Dist (dsub (lon to) (plon pos)) (plat pos) in
  let to_y := Lat2Dist (dsub (lat to) (plat pos)) in
  (from_x, from_y, to_x, to_y, DistPointToLineSqr (Fin 0) (Fin 0) from_x from_y to_x to_y).

Definition geo_dist (g : dbl * dbl * dbl * dbl * distToLineTy) : distToLineTy :=
  let '(_, _, _, _, d) := g in d.

(** [prioDist]: the square distance, plus [SCND_PRIO_ADD] when the edge's
    angle is more than [_angleTolerance] off the search heading. *)
Definition prio_dist (apt : Apt) (pos : positionTy) (headSearch angleTolerance : dbl) (eIdx : nat) : dbl :=
  let e := vecTaxiEdges apt !!! eIdx in
  let d := dist2 (geo_dist (edge_geo apt pos headSearch eIdx)) in
  if dgt (dabs (HeadingDiff (GetAngleByHead e headSearch) headSearch)) angleTolerance
  then dadd d SCND_PRIO_ADD else d.

(** The loop over [lstEdges] on the best match so far ([bestEdgeIdx] with
    its local coordinates and distance, [nullptr] as [None]) and
    [bestPrioDist].  [pSkipEdge == &e] compares the address of the edge,
    that is its index [skip]. *)
Fixpoint closest_loop (apt : Apt) (pos : positionTy) (headSearch maxDist2 angleTolerance : dbl)
    (skip : option nat) (l : list nat) (best : option (nat * (dbl * dbl * dbl * dbl * distToLineTy)))
    (bestPrioDist : dbl) : option (nat * (dbl * dbl * dbl * dbl * distToLineTy)) * dbl :=
  match l with
  | [] => (best, bestPrioDist)
  | eIdx :: l' =>
      if bool_decide (skip = Some eIdx)
      then closest_loop apt pos headSearch maxDist2 angleTolerance skip l' best bestPrioDist
      else
        let g := edge_geo apt pos headSearch eIdx in
        let dist := geo_dist g in
        if dgt (dist2 dist) maxDist2
        then closest_loop apt pos headSearch maxDist2 angleTolerance skip l' best bestPrioDist
        else
          let prioDist := prio_dist apt pos headSearch angleTolerance eIdx in
          if dge prioDist bestPrioDist
          then closest_loop apt pos headSearch maxDist2 angleTolerance skip l' best bestPrioDist
          else if dgt (DistSqrOfBaseBeyondLine dist) maxDist2
          then closest_loop apt pos headSearch maxDist2 angleTolerance skip l' best bestPrioDist
          else closest_loop apt pos headSearch maxDist2 angleTolerance skip l' (Some (eIdx, g)) prioDist
  end.

(** [Apt::FindClosestEdge (pos, basePt, _maxDist_m, _angleTolerance,
    _angleToleranceExt, pSkipEdge, pEdgeIdx)]: the index of the edge found
    and the new [lat], [lon] of [basePt], or [None] for [nullptr].
    [sqr(_maxDist_m)] is computed on [int] ([sqr_int]). *)
Definition FindClosestEdge (apt : Apt) (pos : positionTy) (maxDist_m : Z)
    (angleTolerance angleToleranceExt : dbl) (skip : option nat) : option (nat * dbl * dbl) :=
  let maxDist2 := Fin (sqr_int maxDist_m) in
  let headSearch := HeadingNormalize (pheading pos) in
  let '(lstEdges, found) :=
    FindEdgesForHeading apt headSearch (dstdmax angleTolerance angleToleranceExt) [] UNKNOWN_WAY in
  if negb found then None
  else
    match fst (closest_loop apt pos headSearch maxDist2 angleTolerance skip lstEdges None NaN) with
    | None => None
    | Some (bestEdgeIdx, (best_from_x, best_from_y, best_to_x, best_to_y, bestDist)) =>
        let '(base_x, base_y) := DistResultToBaseLoc best_from_x best_from_y best_to_x best_to_y bestDist in
        Some (bestEdgeIdx, dadd (plat pos) (Dist2Lat base_y), dadd (plon pos) (Dist2Lon base_x (plat pos)))
    end.

(** The candidates [FindClosestEdge] analyses: the edges matching the search
    heading with the larger of both tolerances. *)
Definition closest_candidates (apt : Apt) (pos : positionTy) (angleTolerance angleToleranceExt : dbl)
    : list nat :=
  fst (FindEdgesForHeading apt (HeadingNormalize (pheading pos))
         (dstdmax angleTolerance angleToleranceExt) [] UNKNOWN_WAY).

(** A candidate passes the checks of the loop other than the comparison with
    [bestPrioDist]. *)
Definition closest_ok (apt : Apt) (pos : positionTy) (maxDist_m : Z) (skip : option nat) (eIdx : nat) : bool :=
  let d := geo_dist (edge_geo apt pos (HeadingNormalize (pheading pos)) eIdx) in
  negb (bool_decide (skip = Some eIdx)) &&
  negb (dgt (dist2 d) (Fin (sqr_int maxDist_m))) &&
  negb (dgt (DistSqrOfBaseBeyondLine d) (Fin (sqr_int maxDist_m))).

End ClosestSec.
End Closest.

(** ** Runways and altitudes of an airport: [TaxiEdge::GetRwyEP_A],
    [GetRwyEP_B], [Apt::FirstRwy], [NextRwy], [GetRwysString],
    [RwyEndPt::ComputeAlt] and [Apt::UpdateAltitudes] *)

Module Rwys.
Import Build.

(** [GetRwyEP_A] / [GetRwyEP_B]: the [dynamic_cast] of [GetA] / [GetB] to a
    [RwyEndPt&] throws [std::bad_cast] ([None]) unless the edge is a runway,
    whose nodes are the runway endpoints. *)
Definition GetRwyEP_A (apt : Apt) (e : TaxiEdge) : option RwyEndPt :=
  if is_rwy e then Some (vecRwyEndPts apt !!! ea e) else None.
Definition GetRwyEP_B (apt : Apt) (e : TaxiEdge) : option RwyEndPt :=
  if is_rwy e then Some (vecRwyEndPts apt !!! eb e) else None.

(** The [for] loop of [GetRwysString] from [FirstRwy ()] over [NextRwy (i)]:
    the [std::find_if] of both skips the edges that are not runways, so the
    loop body runs on the runway edges in their order.  An exception in the
    [try] block is caught, keeping what was appended before it. *)
Fixpoint rwys_loop (apt : Apt) (es : list TaxiEdge) (s : string) : string :=
  match es with
  | [] => s
  | e :: es' =>
      if is_rwy e then
        let s1 := if String.eqb s "" then s else String.append s " / " in
        let s2 :=
          match GetRwyEP_A apt e with
          | None => s1
          | Some a =>
              let s3 := String.append (String.append s1 (rid a)) "-" in
              match GetRwyEP_B apt e with
              | None => s3
              | Some b => String.append s3 (rid b)
              end
          end in
        rwys_loop apt es' s2
      else rwys_loop apt es' s
  end.

(** [Apt::GetRwysString] *)
Definition GetRwysString (apt : Apt) : string := rwys_loop apt (vecTaxiEdges apt) "".

Section Alt.
(** [YProbe_at_m (positionTy (lat, lon, 0.0), YProbe)], the terrain altitude
    of X-Plane's Y probe, and [boundingBoxTy::center] (both outside src/). *)
Variable YProbe_at_m : dbl -> dbl -> dbl.
Variable center : boundingBoxTy -> dbl * dbl.

(** [RwyEndPt::ComputeAlt] *)
Definition ComputeAlt (re : RwyEndPt) : RwyEndPt :=
  if isnan (alt_m re)
  then mkRwyEndPt (rnode re) (rid re) (YProbe_at_m (lat (rnode re)) (lon (rnode re))) (vecTaxiNodes re)
  else re.

(** [Apt::UpdateAltitudes] *)
Definition UpdateAltitudes (apt : Apt) : Apt :=
  let '(cla, clo) := center (bounds apt) in
  mkApt (aid apt) (bounds apt) (YProbe_at_m cla clo) (vecTaxiNodesA apt)
    (map ComputeAlt (vecRwyEndPts apt)) (vecTaxiEdges apt) (vecTaxiEdgesIdxHead apt).

End Alt.

(** A runway "27" / "09" given from its western end: its bearing of 270
    degrees is normalised. *)
Definition rwyAngle270 (la1 lo1 la2 lo2 : dbl) : dbl := Fin 270.
Definition rwyTD (la1 lo1 d1 la2 lo2 d2 : dbl) : dbl * dbl * dbl * dbl * dbl :=
  (la1, lo1, la2, lo2, Fin 100).

End Rwys.

(** ** The global map of airports: [gmapApt], [PurgeApt], [LTAptFind],
    [LTAptUpdateRwyAltitudes] and [LTAptSnap] *)

Module AptMap.
Import Build.

(** [mapAptTy], a [std::map<std::string, Apt>]: its entries in key order.
    [std::string] compares its characters as [unsigned char], as
    [String.compare] does. *)
Definition mapAptTy : Type := list (string * Apt).

(** [std::map::emplace]: no insertion if the key is already there. *)
Fixpoint emplace (k : string) (v : Apt) (m : mapAptTy) : mapAptTy :=
  match m with
  | [] => [(k, v)]
  | (k', v') :: m' =>
      match String.compare k k' with
      | Lt => (k, v) :: m
      | Eq => m
      | Gt => (k', v') :: emplace k v m'
      end
  end.

(** [std::map::find]; [count (k)] is [1] exactly when it finds [k]. *)
Fixpoint map_find (k : string) (m : mapAptTy) : option Apt :=
  match m with
  | [] => None
  | (k', v') :: m' => if String.eqb k k' then Some v' else map_find k m'
  end.

(** The order of a [std::map]: keys strictly increasing. *)
Fixpoint map_sorted (m : mapAptTy) : bool :=
  match m with
  | (k, _) :: (((k', _) :: _) as m') =>
      match String.compare k k' with Lt => map_sorted m' | _ => false end
  | _ => true
  end.

Section MapSec.
(** [boundingBoxTy::overlap] and [boundingBoxTy::contains] (outside src/). *)
Variable overlap : boundingBoxTy -> boundingBoxTy -> bool.
Variable contains : boundingBoxTy -> Snap.positionTy -> bool.

(** [PurgeApt (_box)]: the loop erases the airports whose bounds do not
    overlap the box. *)
Fixpoint PurgeApt (box : boundingBoxTy) (m : mapAptTy) : mapAptTy :=
  match m with
  | [] => []
  | (k, a) :: m' => if overlap (bounds a) box then (k, a) :: PurgeApt box m' else PurgeApt box m'
  end.

(** [LTAptFind (pos)]: the first airport in map order whose bounds contain
    [pos] ([Apt::Contains]), with its key. *)
Fixpoint LTAptFind (m : mapAptTy) (pos : Snap.positionTy) : option (string * Apt) :=
  match m with
  | [] => None
  | (k, a) :: m' => if contains (bounds a) pos then Some (k, a) else LTAptFind m' pos
  end.

(** [LTAptSnap (fd, posIter)] with [dataRefs.GetFdSnapTaxiDist_m()] and the
    snapping [SnapToTaxiway] of an airport. *)
Definition LTAptSnap (FdSnapTaxiDist_m : Z)
    (SnapToTaxiway : Apt -> list Snap.positionTy -> nat -> bool * list Snap.positionTy * nat)
    (m : mapAptTy) (posDeque : list Snap.positionTy) (posIter : nat)
    : bool * list Snap.positionTy * nat :=
  if FdSnapTaxiDist_m <=? 0 then (false, posDeque, posIter)
  else
    match LTAptFind m (posDeque !!! posIter) with
    | None => (false, posDeque, posIter)
    | Some (_, a) => SnapToTaxiway a posDeque posIter
    end.

End MapSec.

(** [LTAptUpdateRwyAltitudes] *)
Definition LTAptUpdateRwyAltitudes (YProbe_at_m : dbl -> dbl -> dbl) (center : boundingBoxTy -> dbl * dbl)
    (m : mapAptTy) : mapAptTy :=
  map (fun p => (fst p, Rwys.UpdateAltitudes YProbe_at_m center (snd p))) m.

End AptMap.

(** ** Adding the nodes of one taxiway centerline: the part of
    [ReadOneTaxiLine] after reading the section *)

Module TaxiLine.
Import Build.

Section TaxiLineSec.
Variable CoordAngle : dbl -> dbl -> dbl -> dbl -> dbl.
Variable DistLatLon : dbl -> dbl -> dbl -> dbl -> dbl.
Variable latDiff : dbl.
Variable lonDiff : dbl -> dbl.
(** [DistLatLonSqr], [HeadingDiff] and [dequal] (outside src/), and the
    constants [APT_MAX_EDGE_LEN_M2] and [APT_MAX_TAXI_SEGM_TURN]. *)
Variable DistLatLonSqr : dbl -> dbl -> dbl -> dbl -> dbl.
Variable HeadingDiff : dbl -> dbl -> dbl.
Variable dequal : dbl -> dbl -> bool.
Variable APT_MAX_EDGE_LEN_M2 APT_MAX_TAXI_SEGM_TURN : dbl.

(** [TaxiNode::CompEqualLatLon (lat, lon)] *)
Definition CompEqualLatLon (n : TaxiNode) (la lo : dbl) : bool := dequal (lat n) la && dequal (lon n) lo.

(** A centerline node read from the file is kept if it differs from the
    previous one. *)
Definition add_line_node (vecNodes : list TaxiNode) (p : dbl * dbl) : list TaxiNode :=
  match last vecNodes with
  | Some b => if CompEqualLatLon b (fst p) (snd p) then vecNodes else vecNodes ++ [TaxiNode_at (fst p) (snd p)]
  | None => vecNodes ++ [TaxiNode_at (fst p) (snd p)]
  end.

(** The [for] loop over [iEnd], on [idxA] and [firstAngle]: [b] is [*iEnd],
    [c] the node after it. *)
Fixpoint edge_loop (apt : Apt) (idxA : nat) (firstAngle : dbl) (l : list TaxiNode) : option (Apt * nat) :=
  match l with
  | b :: ((c :: _) as l') =>
      let a := vecTaxiNodesA apt !!! idxA in
      let bcAngle := CoordAngle (lat b) (lon b) (lat c) (lon c) in
      if isnan firstAngle then edge_loop apt idxA bcAngle l'
      else if dgt (DistLatLonSqr (lat a) (lon a) (lat c) (lon c)) APT_MAX_EDGE_LEN_M2 ||
              dgt (dabs (HeadingDiff firstAngle bcAngle)) APT_MAX_TAXI_SEGM_TURN then
        match AddTaxiNode latDiff lonDiff apt (lat b) (lon b) None with
        | None => None
        | Some (apt1, idxB) =>
            if Nat.eqb idxA idxB then edge_loop apt1 idxA firstAngle l'
            else
              match AddTaxiEdge CoordAngle DistLatLon apt1 idxA idxB NaN with
              | None => None
              | Some (apt2, _) => edge_loop apt2 idxB NaN l'
              end
        end
      else edge_loop apt idxA firstAngle l'
  | _ => Some (apt, idxA)
  end.

(** Processing the nodes [vecNodes] of the section ([None] when an
    operation throws). *)
Definition AddTaxiLine (apt : Apt) (vecNodes : list TaxiNode) : option Apt :=
  if Nat.leb 2 (length vecNodes) then
    let front := vecNodes !!! 0%nat in
    let back := vecNodes !!! (length vecNodes - 1)%nat in
    match AddTaxiNode latDiff lonDiff apt (lat front) (lon front) None with
    | None => None
    | Some (apt1, idxA_First) =>
        match edge_loop apt1 idxA_First NaN vecNodes with
        | None => None
        | Some (apt2, idxA) =>
            match AddTaxiNode latDiff lonDiff apt2 (lat back) (lon back) (Some idxA_First) with
            | None => None
            | Some (apt3, idxB) =>
                if Nat.eqb idxA idxB then Some apt3
                else option_map fst (AddTaxiEdge CoordAngle DistLatLon apt3 idxA idxB NaN)
            end
        end
    end
  else Some apt.

(** The section read as the coordinates of its centerline lines. *)
Definition ReadTaxiLine (apt : Apt) (pts : list (dbl * dbl)) : option Apt :=
  AddTaxiLine apt (fold_left add_line_node pts []).

End TaxiLineSec.
End TaxiLine.

(** ** Inserting the taxi path: the part of [Apt::SnapToTaxiway] after the
    flight phase is set to [FPH_TAXI] *)

Module SnapPath.
Import Snap Dijkstra Build Closest.

Section PathSec.
Variable EDGE_UNAVAIL : nat.
Variable FPH_TAXI : Z.
Variable HeadingDiff : dbl -> dbl -> dbl.
Variable DistLatLon : dbl -> dbl -> dbl -> dbl -> dbl.
(** The multiplication and division of doubles, which [dbl] does not model. *)
Variable dmul ddiv : dbl -> dbl -> dbl.
(** [positionTy::HasTaxiEdge] (outside src/). *)
Variable HasTaxiEdge : positionTy -> bool.
(** [fd.hasAc()] and [fd.pAc->GetToPos()]. *)
Variable hasAc : bool.
Variable acToPos : positionTy.
(** [mdl.MAX_TAXI_SPEED] of the flight model, the literal [1.5] and
    [SIMILAR_TS_INTVL]. *)
Variable MAX_TAXI_SPEED ONE_POINT_FIVE SIMILAR_TS_INTVL : dbl.

(** The [positionTy] inserted for a node of the path. *)
Definition insPos (n : TaxiNode) (ts : dbl) : positionTy :=
  mkPos (lat n) (lon n) ts NaN EDGE_UNAVAIL FPH_TAXI.

(** The loop over [vecPath] from [crbegin] to [crend] (here the reversed
    path): [posIter = fd.posDeque.insert (posIter, insPos); ++posIter;] *)
Fixpoint insert_loop (nodes : list TaxiNode) (tsOf : TaxiNode -> dbl) (path : list nat)
    (dq : list positionTy) (it : nat) : list positionTy * nat :=
  match path with
  | [] => (dq, it)
  | n :: path' =>
      let node := nodes !!! n in
      insert_loop nodes tsOf path' (take it dq ++ insPos node (tsOf node) :: drop it dq) (S it)
  end.

(** The rest of [SnapToTaxiway] on the deque and [posIter] after the
    position has been snapped to the taxiway edge [eIdx]; [None] when an
    access with [at] throws. *)
Definition InsertTaxiPath (apt : Apt) (dq : list positionTy) (posIter eIdx : nat)
    : option (list positionTy * nat) :=
  let pos := dq !!! posIter in
  if negb hasAc && Nat.eqb posIter 0%nat then Some (dq, posIter)
  else
    let prevPos := if Nat.eqb posIter 0%nat then acToPos else dq !!! (posIter - 1)%nat in
    if negb (HasTaxiEdge prevPos) then Some (dq, posIter)
    else if Nat.eqb eIdx (edgeIdx prevPos) then Some (dq, posIter)
    else
      let prevE := vecTaxiEdges apt !!! edgeIdx prevPos in
      let prevErelN :=
        if is_rwy prevE then startByHeading HeadingDiff prevE (pheading prevPos)
        else endByHeading HeadingDiff prevE (pheading prevPos) in
      let currEstartN := startByHeading HeadingDiff (vecTaxiEdges apt !!! eIdx) (pheading pos) in
      let maxLen := dmul (dmul (dsub (pts pos) (pts prevPos)) MAX_TAXI_SPEED) ONE_POINT_FIVE in
      match ShortestPath apt prevErelN (is_rwy prevE) currEstartN maxLen with
      | None => None
      | Some (nodes, vecPath) =>
          if Nat.leb 2 (length vecPath) then
            let pathLen0 := pathLen (nodes !!! currEstartN) in
            let nEnd := nodes !!! (vecPath !!! 0%nat) in
            let pathLen1 := dadd pathLen0 (DistLatLon (lat nEnd) (lon nEnd) (plat pos) (plon pos)) in
            let startTS :=
              if is_rwy prevE then
                let taxiTime := ddiv pathLen1 MAX_TAXI_SPEED in
                let startTS0 := dsub (pts pos) taxiTime in
                if dlt startTS0 (dadd (pts prevPos) SIMILAR_TS_INTVL)
                then dadd (pts prevPos) SIMILAR_TS_INTVL else startTS0
              else
                let nStart := nodes !!! (vecPath !!! (length vecPath - 1)%nat) in
                let prevToStartDist := DistLatLon (plat prevPos) (plon prevPos) (lat nStart) (lon nStart) in
                let speed := ddiv (dadd prevToStartDist pathLen1) (dsub (pts pos) (pts prevPos)) in
                dadd (pts prevPos) (ddiv prevToStartDist speed) in
            let pathTime := dsub (pts pos) startTS in
            Some (insert_loop nodes (fun n => dadd startTS (ddiv (dmul pathTime (pathLen n)) pathLen1))
                    (rev vecPath) dq posIter)
          else Some (dq, posIter)
      end.

End PathSec.
End SnapPath.

(** ** [Apt::JoinOpenTaxiEdges] and [Apt::AddApt] *)

Module Join.
Import Build Closest AptMap.

(** The indexing the accesses of [JoinOpenTaxiEdges] rely on: the nodes
    of an edge lie in the store of its type (runway endpoints for a runway,
    taxi nodes for a taxiway), and the edges listed at a node and in
    [vecTaxiEdgesIdxHead] exist. *)
Definition net_wf (apt : Apt) : bool :=
  let nr := length (vecRwyEndPts apt) in
  let nt := length (vecTaxiNodesA apt) in
  let ne := length (vecTaxiEdges apt) in
  forallb (fun e => match etype e with
                    | RUN_WAY => Nat.ltb (ea e) nr && Nat.ltb (eb e) nr
                    | TAXI_WAY => Nat.ltb (ea e) nt && Nat.ltb (eb e) nt
                    | UNKNOWN_WAY => false
                    end) (vecTaxiEdges apt) &&
  forallb (fun n => forallb (fun x => Nat.ltb x ne) (vecEdges n)) (vecTaxiNodesA apt) &&
  forallb (fun x => Nat.ltb x ne) (vecTaxiEdgesIdxHead apt).

Section JoinSec.
Variable CoordAngle : dbl -> dbl -> dbl -> dbl -> dbl.
Variable DistLatLon : dbl -> dbl -> dbl -> dbl -> dbl.
Variable HeadingNormalize : dbl -> dbl.
Variable HeadingDiff : dbl -> dbl -> dbl.
Variable Lon2Dist : dbl -> dbl -> dbl.
Variable Lat2Dist : dbl -> dbl.
Variable Dist2Lon : dbl -> dbl -> dbl.
Variable Dist2Lat : dbl -> dbl.
Variable distToLineTy : Type.
Variable dist2 : distToLineTy -> dbl.
Variable DistSqrOfBaseBeyondLine : distToLineTy -> dbl.
Variable DistPointToLineSqr : dbl -> dbl -> dbl -> dbl -> dbl -> dbl -> distToLineTy.
Variable DistResultToBaseLoc : dbl -> dbl -> dbl -> dbl -> distToLineTy -> dbl * dbl.
Variable SCND_PRIO_ADD : dbl.
(** [APT_JOIN_MAX_DIST_M], [APT_JOIN_ANGLE_TOLERANCE] and
    [APT_JOIN_ANGLE_TOLERANCE_EXT]; the [edgeIdx] and the flight phase a
    [positionTy] is constructed with. *)
Variable APT_JOIN_MAX_DIST_M : Z.
Variable APT_JOIN_ANGLE_TOLERANCE APT_JOIN_ANGLE_TOLERANCE_EXT : dbl.
Variable EDGE_UNKNOWN : nat.
Variable FPH_UNKNOWN : Z.
(** [bounds.enlarge_m (dataRefs.GetFdSnapTaxiDist_m())] (outside src/). *)
Variable EnlargeBounds_m : boundingBoxTy -> boundingBoxTy.

(** The body of the loop of [JoinOpenTaxiEdges] for the node [i]. *)
Definition join_node (apt : Apt) (i : nat) : option Apt :=
  let n := vecTaxiNodesA apt !!! i in
  match vecEdges n with
  | [eIdx] =>
      let e := vecTaxiEdges apt !!! eIdx in
      if is_rwy e then Some apt
      else
        let taxiAngle := GetAngleFrom e i in
        let pos := Snap.mkPos (lat n) (lon n) NaN (angle e) EDGE_UNKNOWN FPH_UNKNOWN in
        match FindClosestEdge HeadingNormalize HeadingDiff Lon2Dist Lat2Dist Dist2Lon Dist2Lat
                distToLineTy dist2 DistSqrOfBaseBeyondLine DistPointToLineSqr DistResultToBaseLoc
                SCND_PRIO_ADD apt pos APT_JOIN_MAX_DIST_M APT_JOIN_ANGLE_TOLERANCE
                APT_JOIN_ANGLE_TOLERANCE_EXT (Some eIdx) with
        | None => Some apt
        | Some (joinIdx, la, lo) =>
            JoinOpenTaxiEdge CoordAngle DistLatLon apt i joinIdx
              (head_fwd HeadingDiff (vecTaxiEdges apt !!! joinIdx) taxiAngle) la lo
        end
  | _ => Some apt
  end.

(** The loop [for (i = 0; i < vecTaxiNodes.size(); ++i)]; [k] counts the
    iterations left, the number of nodes does not change in the loop. *)
Fixpoint join_loop (k i : nat) (apt : Apt) : option Apt :=
  match k with
  | O => Some apt
  | S k' =>
      if Nat.ltb i (length (vecTaxiNodesA apt)) then
        match join_node apt i with
        | None => None
        | Some apt' => join_loop k' (S i) apt'
        end
      else Some apt
  end.

(** [Apt::JoinOpenTaxiEdges] *)
Definition JoinOpenTaxiEdges (apt : Apt) : option Apt :=
  join_loop (length (vecTaxiNodesA apt)) 0 apt.

(** [Apt::AddApt (apt)] on [gmapApt]: enlarging the bounds, sorting the
    edges, joining open ends and [emplace] under [apt.GetId()]. *)
Definition AddApt (gmapApt : mapAptTy) (apt : Apt) : option mapAptTy :=
  let apt1 := mkApt (aid apt) (EnlargeBounds_m (bounds apt)) (aalt_m apt) (vecTaxiNodesA apt)
                (vecRwyEndPts apt) (vecTaxiEdges apt) (vecTaxiEdgesIdxHead apt) in
  let apt2 := SortTaxiEdges apt1 in
  match JoinOpenTaxiEdges apt2 with
  | None => None
  | Some apt3 => Some (emplace (aid apt3) apt3 gmapApt)
  end.

End JoinSec.
End Join.


(** ** Sample inputs for the parts above *)

Module Samples2.
Import Build Snap.

(** A flat geometry in which one degree is one meter. *)
Definition flatLon2Dist (d la : dbl) : dbl := d.
Definition flatLat2Dist (d : dbl) : dbl := d.
Definition sqrD (x : dbl) : dbl := match x with Fin z => Fin (z * z) | _ => NaN end.
(** The distance to an east-west edge: the square of its northward offset,
    with the base point never beyond the edge. *)
Definition flatDistToLine (px py fx fy tx ty : dbl) : dbl * dbl := (sqrD fy, Fin 0).
Definition flatBaseLoc (fx fy tx ty : dbl) (d : dbl * dbl) : dbl * dbl := (Fin 0, fy).
Definition flatHeadingDiff (h a : dbl) : dbl := dsub a h.

(** Two parallel east-west taxiways, at 0 and 3 degrees north. *)
Definition twoTaxiApt : Apt :=
  mkApt "TWOTWY" None NaN
    [mkTaxiNode (Fin 0) (Fin 0) [0%nat] PInf PrevNone false;
     mkTaxiNode (Fin 0) (Fin 10) [0%nat] PInf PrevNone false;
     mkTaxiNode (Fin 3) (Fin 0) [1%nat] PInf PrevNone false;
     mkTaxiNode (Fin 3) (Fin 10) [1%nat] PInf PrevNone false]
    []
    [mkTaxiEdge TAXI_WAY 0 1 (Fin 90) (Fin 10); mkTaxiEdge TAXI_WAY 2 3 (Fin 90) (Fin 10)]
    [0%nat; 1%nat].

(** A position between them, heading east. *)
Definition eastPos : positionTy := mkPos (Fin 1) (Fin 5) (Fin 0) (Fin 90) 0 0.

(** A taxiway ending one degree north of another one (a T junction). *)
Definition teeApt : Apt :=
  mkApt "TEE" None NaN
    [mkTaxiNode (Fin 0) (Fin 0) [0%nat] PInf PrevNone false;
     mkTaxiNode (Fin 0) (Fin 10) [0%nat] PInf PrevNone false;
     mkTaxiNode (Fin 1) (Fin 5) [1%nat] PInf PrevNone false;
     mkTaxiNode (Fin 5) (Fin 5) [1%nat] PInf PrevNone false]
    []
    [mkTaxiEdge TAXI_WAY 0 1 (Fin 90) (Fin 10); mkTaxiEdge TAXI_WAY 2 3 (Fin 0) (Fin 4)]
    [1%nat; 0%nat].

(** Bounding boxes south/west/north/east: overlapping boxes, and a box
    containing a position. *)
Definition boxOverlap (b1 b2 : boundingBoxTy) : bool :=
  match b1, b2 with
  | Some (s1, w1, n1, e1), Some (s2, w2, n2, e2) => dle s1 n2 && dle s2 n1 && dle w1 e2 && dle w2 e1
  | _, _ => false
  end.
Definition boxContains (b : boundingBoxTy) (p : positionTy) : bool :=
  match b with
  | Some (s, w, n, e) => dle s (plat p) && dle (plat p) n && dle w (plon p) && dle (plon p) e
  | None => false
  end.

(** Two airports at some distance from each other. *)
Definition boxMap : list (string * Apt) :=
  [("EDDA", mkApt "EDDA" (Some (Fin 0, Fin 0, Fin 10, Fin 10)) NaN [] [] [] []);
   ("EDDB", mkApt "EDDB" (Some (Fin 100, Fin 100, Fin 110, Fin 110)) NaN [] [] [] [])].

(** A straight taxiway of five nodes and four edges of 10 m, eastbound. *)
Definition lineApt : Apt :=
  mkApt "LINE" None NaN
    [mkTaxiNode (Fin 0) (Fin 0) [0]%nat PInf PrevNone false;
     mkTaxiNode (Fin 0) (Fin 10) [0; 1]%nat PInf PrevNone false;
     mkTaxiNode (Fin 0) (Fin 20) [1; 2]%nat PInf PrevNone false;
     mkTaxiNode (Fin 0) (Fin 30) [2; 3]%nat PInf PrevNone false;
     mkTaxiNode (Fin 0) (Fin 40) [3]%nat PInf PrevNone false]
    []
    [mkTaxiEdge TAXI_WAY 0%nat 1%nat (Fin 90) (Fin 10);
     mkTaxiEdge TAXI_WAY 1%nat 2%nat (Fin 90) (Fin 10);
     mkTaxiEdge TAXI_WAY 2%nat 3%nat (Fin 90) (Fin 10);
     mkTaxiEdge TAXI_WAY 3%nat 4%nat (Fin 90) (Fin 10)]
    [0; 1; 2; 3]%nat.

(** Multiplication and (integer) division of finite doubles. *)
Definition dmulF (x y : dbl) : dbl := match x, y with Fin a, Fin b => Fin (a * b) | _, _ => NaN end.
Definition ddivF (x y : dbl) : dbl := match x, y with Fin a, Fin b => Fin (a / b) | _, _ => NaN end.

(** Two positions on [lineApt]: on the first edge at time 0 and on the last
    edge at time 30, both heading east. *)
Definition linePrev : positionTy := mkPos (Fin 0) (Fin 5) (Fin 0) (Fin 90) 0 0.
Definition linePos : positionTy := mkPos (Fin 0) (Fin 35) (Fin 30) (Fin 90) 3 0.

End Samples2.

(** * Proofs *)

(** ** The bounded shortest path search *)

Module DijkstraProofs.
Import Dijkstra.

Lemma dgt_false_dle (z : Z) (m : dbl) :
  m <> NaN -> dgt (Fin z) m = false -> dle (Fin z) m = true.
Proof.
  destruct m; simpl; intros Hn H; try congruence.
  apply Z.ltb_ge in H. apply Z.leb_le. lia.
Qed.

Lemma lookup_total_lt_Some (l : list TaxiNode) (n : nat) :
  (n < length l)%nat -> l !! n = Some (l !!! n).
Proof.
  intros H. apply lookup_lt_is_Some_2 in H as [x Hx].
  rewrite (list_lookup_total_correct _ _ _ Hx). exact Hx.
Qed.

Lemma lookup_total_insert_ne' (l : list TaxiNode) (u n : nat) (x : TaxiNode) :
  u <> n -> <[u := x]> l !!! n = l !!! n.
Proof. apply list_lookup_total_insert_ne. Qed.

Lemma map_init_lookup (l : list TaxiNode) (n : nat) :
  map InitDijkstraAttr l !!! n = InitDijkstraAttr (l !!! n).
Proof.
  revert n. induction l as [|x l IH]; intros [|n]; simpl; try reflexivity.
  apply IH.
Qed.

Lemma walk_snoc (nodes : list TaxiNode) (edges : list TaxiEdge) s ns es t L eIdx e n d :
  walk nodes edges s ns es t L ->
  eIdx ∈ vecEdges (nodes !!! t) -> edges !! eIdx = Some e -> conn e t n -> dist_m e = Fin d ->
  walk nodes edges s (ns ++ [n]) (es ++ [eIdx]) n (L + d).
Proof.
  induction 1 as [s|s m ns eIdx0 e0 d0 es t L Hin He Hc Hd Hw IH]; intros Hin' He' Hc' Hd'.
  - replace (0 + d) with (d + 0) by lia.
    simpl. econstructor; eauto. constructor.
  - replace (d0 + L + d) with (d0 + (L + d)) by lia.
    simpl. econstructor; eauto.
Qed.

Section Invariant.

Variable orig : list TaxiNode.
Variable edges : list TaxiEdge.
Variable maxLen : dbl.
Variable endN : nat.
Variable ss : list nat.

Hypothesis Hwf : wf_net orig edges.
Hypothesis Hmax : maxLen <> NaN.

(** The loop invariant of the search. *)
Record Inv (nodes : list TaxiNode) (visit : list nat) : Prop := {
  inv_len : length nodes = length orig;
  inv_edges : forall n, vecEdges (nodes !!! n) = vecEdges (orig !!! n);
  inv_visit : forall n, n ∈ visit ->
    (n < length nodes)%nat /\ prevIdx (nodes !!! n) <> PrevNone;
  inv_dist : forall n, pathLen (nodes !!! n) = PInf \/
    exists x, pathLen (nodes !!! n) = Fin x /\ 0 <= x;
  inv_start : forall n, (n < length nodes)%nat -> prevIdx (nodes !!! n) = PrevStart ->
    pathLen (nodes !!! n) = Fin 0 /\ n ∈ ss;
  inv_prev : forall n p, (n < length nodes)%nat -> prevIdx (nodes !!! n) = Prev p ->
    (p < length nodes)%nat /\ bVisited (nodes !!! p) = true /\
    exists eIdx e d x, eIdx ∈ vecEdges (orig !!! p) /\ edges !! eIdx = Some e /\
      conn e p n /\ dist_m e = Fin d /\ pathLen (nodes !!! p) = Fin x /\
      pathLen (nodes !!! n) = Fin (x + d) /\ dle (Fin (x + d)) maxLen = true;
  inv_chain : forall n, (n < length nodes)%nat -> prevIdx (nodes !!! n) <> PrevNone ->
    exists l s, chain nodes n l s /\ NoDup l
}.

Lemma chain_end (nodes : list TaxiNode) n l s :
  chain nodes n l s -> (s < length nodes)%nat /\ prevIdx (nodes !!! s) = PrevStart.
Proof. induction 1; auto. Qed.

Lemma chain_range (nodes : list TaxiNode) n l s :
  chain nodes n l s -> forall m, m ∈ l -> (m < length nodes)%nat.
Proof.
  induction 1 as [|n p l s Hn Hp Hc IH]; intros m Hm.
  - inversion Hm.
  - apply elem_of_cons in Hm as [->|Hm]; auto.
Qed.

Lemma chain_visited (nodes : list TaxiNode) visit n l s :
  Inv nodes visit -> chain nodes n l s ->
  forall m, m ∈ l -> m = n \/ bVisited (nodes !!! m) = true.
Proof.
  intros HI. induction 1 as [|n p l s Hn Hp Hc IH]; intros m Hm.
  - inversion Hm.
  - apply elem_of_cons in Hm as [->|Hm]; [left; reflexivity|right].
    destruct (IH m Hm) as [->|Hv]; [|exact Hv].
    apply (inv_prev _ _ HI n p Hn Hp).
Qed.

Lemma chain_insert (nodes : list TaxiNode) n l s u x :
  chain nodes n l s -> u ∉ l -> u <> s ->
  chain (<[u := x]> nodes) n l s.
Proof.
  induction 1 as [n Hn Hs|n p l s Hn Hp Hc IH]; intros Hu Hus.
  - constructor; [rewrite length_insert; exact Hn|].
    rewrite lookup_total_insert_ne'; auto.
  - apply not_elem_of_cons in Hu as [Hun Hu].
    econstructor; [rewrite length_insert; exact Hn| |apply IH; auto].
    rewrite lookup_total_insert_ne'; auto.
Qed.

Lemma chain_insert_same (nodes : list TaxiNode) n l s u x :
  chain nodes n l s -> prevIdx x = prevIdx (nodes !!! u) ->
  chain (<[u := x]> nodes) n l s.
Proof.
  intros Hc Hx. induction Hc as [n Hn Hs|n p l s Hn Hp Hc IH].
  - constructor; [rewrite length_insert; exact Hn|].
    rewrite list_lookup_total_insert. case_decide as Hd; [|exact Hs].
    destruct Hd as [-> _]. rewrite Hx. exact Hs.
  - econstructor; [rewrite length_insert; exact Hn| |exact IH].
    rewrite list_lookup_total_insert. case_decide as Hd; [|exact Hp].
    destruct Hd as [-> _]. rewrite Hx. exact Hp.
Qed.

Lemma chain_walk (nodes : list TaxiNode) visit n l s :
  Inv nodes visit -> chain nodes n l s ->
  exists es L, walk orig edges s (rev l) es n L /\ pathLen (nodes !!! n) = Fin L.
Proof.
  intros HI. induction 1 as [n Hn Hs|n p l s Hn Hp Hc IH].
  - exists [], 0. split; [constructor|]. apply (inv_start _ _ HI n Hn Hs).
  - destruct IH as (es & L & Hw & HL).
    destruct (inv_prev _ _ HI n p Hn Hp) as (_ & _ & eIdx & e & d & x & Hin & He & Hcn & Hd & Hx & Hnx & _).
    rewrite HL in Hx. injection Hx as <-.
    exists (es ++ [eIdx]), (L + d). split; [|exact Hnx].
    simpl. eapply walk_snoc; eauto.
Qed.

Lemma collect_chain (nodes : list TaxiNode) n l s fuel :
  chain nodes n l s -> (length l < fuel)%nat -> collect fuel nodes n = Some l.
Proof.
  intros Hc. revert fuel. induction Hc as [n Hn Hs|n p l s Hn Hp Hc IH]; intros fuel Hf.
  - destruct fuel as [|f]; [lia|]. simpl.
    rewrite (lookup_total_lt_Some _ _ Hn), Hs. reflexivity.
  - destruct fuel as [|f]; [simpl in Hf; lia|]. simpl.
    rewrite (lookup_total_lt_Some _ _ Hn), Hp.
    simpl in Hf. rewrite (IH f) by lia. reflexivity.
Qed.

Lemma chain_length (nodes : list TaxiNode) n l s :
  chain nodes n l s -> NoDup l -> (length l <= length nodes)%nat.
Proof.
  intros Hc Hnd.
  rewrite <- (length_seq (length nodes) 0).
  apply NoDup_incl_length; [apply NoDup_ListNoDup; exact Hnd|].
  intros m Hm. apply in_seq. split; [lia|].
  apply (chain_range _ _ _ _ Hc m). apply list_elem_of_In. exact Hm.
Qed.


Lemma scan_min_spec (nodes : list TaxiNode) l i bi bd pos d :
  scan_min nodes l i bi bd = (pos, d) ->
  (pos = bi /\ d = bd) \/
  ((i <= pos)%nat /\ exists m, l !! (pos - i)%nat = Some m /\ d = pathLen (nodes !!! m)).
Proof.
  revert i bi bd. induction l as [|n l IH]; intros i bi bd H; simpl in H.
  - injection H as <- <-. left; auto.
  - destruct (dlt (pathLen (nodes !!! n)) bd).
    + destruct (IH _ _ _ H) as [[-> ->]|[Hle (m & Hm & ->)]].
      * right. split; [lia|]. exists n. rewrite Nat.sub_diag. auto.
      * right. split; [lia|]. exists m.
        replace (pos - i)%nat with (S (pos - S i)) by lia. auto.
    + destruct (IH _ _ _ H) as [[-> ->]|[Hle (m & Hm & ->)]].
      * left; auto.
      * right. split; [lia|]. exists m.
        replace (pos - i)%nat with (S (pos - S i)) by lia. auto.
Qed.

Lemma inv_nonneg nodes visit n x :
  Inv nodes visit -> pathLen (nodes !!! n) = Fin x -> 0 <= x.
Proof.
  intros HI Hx. destruct (inv_dist _ _ HI n) as [H|(y & H & Hy)]; rewrite Hx in H;
    [discriminate|injection H as ->; exact Hy].
Qed.

(** Relaxing the edge [eIdx] from the visited node [sIdx] to [u]. *)
Lemma update_inv nodes visit visit' sIdx x eIdx e d u :
  Inv nodes visit -> (sIdx < length nodes)%nat ->
  bVisited (nodes !!! sIdx) = true -> prevIdx (nodes !!! sIdx) <> PrevNone ->
  pathLen (nodes !!! sIdx) = Fin x ->
  eIdx ∈ vecEdges (orig !!! sIdx) -> edges !! eIdx = Some e -> conn e sIdx u ->
  (u < length nodes)%nat -> dist_m e = Fin d -> 0 <= d ->
  bVisited (nodes !!! u) = false -> dle (Fin (x + d)) maxLen = true ->
  dle (pathLen (nodes !!! u)) (Fin (x + d)) = false ->
  (forall n, n ∈ visit' -> n ∈ visit \/ n = u) ->
  Inv (<[u := set_dijk (nodes !!! u) (Fin (x + d)) (Prev sIdx)]> nodes) visit'.
Proof.
  intros HI Hs Hsv Hsp Hsx Hin He Hc Hu Hd Hd0 Huv Hmaxd Hlt Hvis.
  set (nu := set_dijk (nodes !!! u) (Fin (x + d)) (Prev sIdx)).
  assert (Hx0 : 0 <= x) by exact (inv_nonneg _ _ _ _ HI Hsx).
  assert (Hus : u <> sIdx) by (intros ->; congruence).
  assert (Hlk : forall n, <[u := nu]> nodes !!! n = if decide (n = u) then nu else nodes !!! n).
  { intros n. rewrite list_lookup_total_insert. case_decide as H1; case_decide as H2;
      try reflexivity; [destruct H1; congruence|]. subst. exfalso. apply H1; auto. }
  assert (Hnst : prevIdx (nodes !!! u) <> PrevStart).
  { intros Hst. destruct (inv_start _ _ HI u Hu Hst) as [Hz _]. rewrite Hz in Hlt.
    simpl in Hlt. apply Z.leb_gt in Hlt. lia. }
  assert (Hnotl : forall n l s, chain nodes n l s -> n <> u -> (u ∉ l) /\ u <> s).
  { intros n l s Hch Hnu. split.
    - intros Hul. destruct (chain_visited _ _ _ _ _ HI Hch u Hul) as [->|Hv]; congruence.
    - intros ->. apply chain_end in Hch as [_ Hst]. congruence. }
  constructor.
  - rewrite length_insert. apply (inv_len _ _ HI).
  - intros n. rewrite Hlk. case_decide; [subst; apply (inv_edges _ _ HI)|apply (inv_edges _ _ HI)].
  - intros n Hn. rewrite length_insert, Hlk.
    destruct (Hvis n Hn) as [Hn1| ->].
    + destruct (inv_visit _ _ HI n Hn1) as [Hr Hp]. split; [exact Hr|].
      case_decide; [discriminate|exact Hp].
    + split; [exact Hu|]. rewrite decide_True by reflexivity. discriminate.
  - intros n. rewrite Hlk. case_decide; [right; exists (x + d); split; [reflexivity|lia]|].
    apply (inv_dist _ _ HI).
  - intros n Hn. rewrite length_insert in Hn. rewrite Hlk. case_decide; [discriminate|].
    apply (inv_start _ _ HI n Hn).
  - intros n p Hn. rewrite length_insert in Hn. rewrite Hlk. case_decide as Hnu.
    + simpl. intros Hp. injection Hp as <-. rewrite length_insert.
      split; [exact Hs|]. rewrite Hlk, decide_False by congruence.
      split; [exact Hsv|]. subst n. exists eIdx, e, d, x. repeat split; auto.
    + intros Hp. destruct (inv_prev _ _ HI n p Hn Hp) as (Hpr & Hpv & Hrest).
      assert (Hpu : p <> u) by (intros ->; congruence).
      rewrite length_insert, Hlk, decide_False by exact Hpu.
      split; [exact Hpr|]. split; [exact Hpv|].
      destruct Hrest as (eIdx0 & e0 & d0 & x0 & ?). exists eIdx0, e0, d0, x0.
      exact H.
  - intros n Hn. rewrite length_insert in Hn. rewrite Hlk. case_decide as Hnu.
    + subst n. intros _.
      destruct (inv_chain _ _ HI sIdx Hs Hsp) as (l0 & s0 & Hch & Hnd).
      destruct (Hnotl _ _ _ Hch (not_eq_sym Hus)) as [Hul Hus0].
      exists (u :: l0), s0. split.
      * econstructor; [rewrite length_insert; exact Hu| |].
        { rewrite Hlk, decide_True by reflexivity. reflexivity. }
        apply chain_insert; auto.
      * apply NoDup_cons. auto.
    + intros Hp. destruct (inv_chain _ _ HI n Hn Hp) as (l & s & Hch & Hnd).
      destruct (Hnotl _ _ _ Hch Hnu) as [Hul Hus0].
      exists l, s. split; [apply chain_insert; auto|exact Hnd].
Qed.

Lemma relax_inv es nodes visit sIdx sDist nodes' visit' :
  Inv nodes visit -> (sIdx < length nodes)%nat ->
  bVisited (nodes !!! sIdx) = true -> prevIdx (nodes !!! sIdx) <> PrevNone ->
  sDist = pathLen (nodes !!! sIdx) ->
  (forall eIdx, eIdx ∈ es -> eIdx ∈ vecEdges (orig !!! sIdx)) ->
  relax edges maxLen endN sIdx sDist es nodes visit = (nodes', visit') ->
  Inv nodes' visit'.
Proof.
  revert nodes visit sDist. induction es as [|eIdx es IH]; intros nodes visit sDist HI Hs Hsv Hsp Hsd Hes Hr.
  - simpl in Hr. injection Hr as <- <-. exact HI.
  - simpl in Hr.
    assert (Hs0 : (sIdx < length orig)%nat) by (rewrite <- (inv_len _ _ HI); exact Hs).
    assert (Hin : eIdx ∈ vecEdges (orig !!! sIdx)) by (apply Hes; left).
    assert (Hes' : forall e, e ∈ es -> e ∈ vecEdges (orig !!! sIdx)) by (intros; apply Hes; right; auto).
    destruct (Hwf sIdx eIdx Hs0 Hin) as (e & d & He & Hend & Ha & Hb & Hd & Hd0).
    rewrite (list_lookup_total_correct _ _ _ He) in Hr.
    set (u := otherNode e sIdx) in Hr.
    assert (Hc : conn e sIdx u).
    { unfold u, otherNode, conn. destruct (Nat.eqb_spec sIdx (ea e)); [left; auto|right].
      destruct Hend; [congruence|auto]. }
    assert (Hu : (u < length nodes)%nat).
    { rewrite (inv_len _ _ HI). unfold u, otherNode. destruct (Nat.eqb sIdx (ea e)); auto. }
    destruct (bVisited (nodes !!! u)) eqn:Huv; [eapply IH; eauto|].
    rewrite Hd in Hr.
    destruct (dgt (dadd sDist (Fin d)) maxLen || dle (pathLen (nodes !!! u)) (dadd sDist (Fin d))) eqn:Hcond;
      [eapply IH; eauto|].
    apply orb_false_iff in Hcond as [Hgt Hle].
    subst sDist.
    destruct (inv_dist _ _ HI sIdx) as [Hinf|(x & Hx & Hx0)].
    + exfalso. rewrite Hinf in Hle. simpl in Hle.
      destruct (inv_dist _ _ HI u) as [Hp|(y & Hp & _)]; rewrite Hp in Hle; discriminate.
    + rewrite Hx in Hgt, Hle, Hr. simpl in Hgt, Hle.
      apply dgt_false_dle in Hgt; [|exact Hmax].
      assert (Hus : u <> sIdx) by (intros Heq; rewrite Heq in Huv; congruence).
      destruct (Nat.eqb u endN).
      * injection Hr as <- <-.
        eapply (update_inv nodes visit visit sIdx x eIdx e d u); eauto.
      * eapply IH; [eapply (update_inv nodes visit (push_back_unique visit u) sIdx x eIdx e d u); eauto| | | | |exact Hes'|exact Hr].
        { intros n Hn. unfold push_back_unique in Hn.
          destruct (existsb (Nat.eqb u) visit); [left; exact Hn|].
          apply elem_of_app in Hn as [Hn|Hn]; [left; exact Hn|right; apply list_elem_of_singleton in Hn; exact Hn]. }
        { rewrite length_insert. exact Hs. }
        { rewrite lookup_total_insert_ne' by congruence. exact Hsv. }
        { rewrite lookup_total_insert_ne' by congruence. exact Hsp. }
        { rewrite lookup_total_insert_ne' by congruence. congruence. }
Qed.

Lemma visited_inv nodes visit visit' sIdx :
  Inv nodes visit -> (sIdx < length nodes)%nat -> (forall n, n ∈ visit' -> n ∈ visit) ->
  Inv (<[sIdx := set_visited (nodes !!! sIdx)]> nodes) visit'.
Proof.
  intros HI Hs Hvis.
  set (nodes1 := <[sIdx := set_visited (nodes !!! sIdx)]> nodes).
  assert (Hlk : forall n, nodes1 !!! n = if decide (n = sIdx) then set_visited (nodes !!! n) else nodes !!! n).
  { intros n. unfold nodes1. rewrite list_lookup_total_insert.
    case_decide as H1; case_decide as H2; subst; try reflexivity; [destruct H1; congruence|].
    exfalso. apply H1; auto. }
  assert (Hp : forall n, prevIdx (nodes1 !!! n) = prevIdx (nodes !!! n))
    by (intros n; rewrite Hlk; case_decide; reflexivity).
  assert (Hd : forall n, pathLen (nodes1 !!! n) = pathLen (nodes !!! n))
    by (intros n; rewrite Hlk; case_decide; reflexivity).
  assert (Hv : forall n, bVisited (nodes !!! n) = true -> bVisited (nodes1 !!! n) = true)
    by (intros n; rewrite Hlk; case_decide; auto).
  assert (Hl : length nodes1 = length nodes) by apply length_insert.
  constructor; rewrite ?Hl.
  - apply (inv_len _ _ HI).
  - intros n. rewrite Hlk. case_decide; apply (inv_edges _ _ HI).
  - intros n Hn. rewrite Hp. apply (inv_visit _ _ HI n (Hvis n Hn)).
  - intros n. rewrite Hd. apply (inv_dist _ _ HI).
  - intros n Hn. rewrite Hp, Hd. apply (inv_start _ _ HI n Hn).
  - intros n p Hn. rewrite Hp. intros Hpr.
    destruct (inv_prev _ _ HI n p Hn Hpr) as (Hpl & Hpv & eIdx & e & d & x & H).
    split; [exact Hpl|]. split; [apply Hv; exact Hpv|].
    exists eIdx, e, d, x. rewrite !Hd. exact H.
  - intros n Hn. rewrite Hp. intros Hpr.
    destruct (inv_chain _ _ HI n Hn Hpr) as (l & s & Hch & Hnd).
    exists l, s. split; [|exact Hnd]. apply chain_insert_same; [exact Hch|reflexivity].
Qed.

Lemma iter_inv nodes v0 rest nodes2 visit2 :
  Inv nodes (v0 :: rest) ->
  dijkstra_iter edges maxLen endN nodes (v0 :: rest) v0 rest = (nodes2, visit2) ->
  Inv nodes2 visit2.
Proof.
  intros HI H. unfold dijkstra_iter in H.
  destruct (scan_min nodes rest 1 0 (pathLen (nodes !!! v0))) as [pos sDist] eqn:Hsc.
  assert (Hpos : exists sIdx, (v0 :: rest) !! pos = Some sIdx /\ sDist = pathLen (nodes !!! sIdx)).
  { destruct (scan_min_spec _ _ _ _ _ _ _ Hsc) as [[-> ->]|[Hle (m & Hm & ->)]].
    - exists v0. auto.
    - exists m. split; [|reflexivity]. destruct pos as [|pos]; [lia|].
      replace (S pos - 1)%nat with pos in Hm by lia. exact Hm. }
  destruct Hpos as (sIdx & Hsl & Hsd).
  rewrite (list_lookup_total_correct _ _ _ Hsl) in H.
  assert (Hin : sIdx ∈ v0 :: rest) by (eapply list_elem_of_lookup_2; eauto).
  destruct (inv_visit _ _ HI sIdx Hin) as [Hs Hsp].
  assert (HI1 : Inv (<[sIdx := set_visited (nodes !!! sIdx)]> nodes) (delete pos (v0 :: rest))).
  { apply (visited_inv nodes (v0 :: rest)); [exact HI|exact Hs|]. intros n Hn. eapply list_elem_of_delete_inv; eauto. }
  eapply relax_inv; [exact HI1| | | | | |exact H].
  - rewrite length_insert. exact Hs.
  - rewrite list_lookup_total_insert_eq by exact Hs. reflexivity.
  - rewrite list_lookup_total_insert_eq by exact Hs. exact Hsp.
  - rewrite list_lookup_total_insert_eq by exact Hs. exact Hsd.
  - intros eIdx He. rewrite <- (inv_edges _ _ HI1 sIdx). exact He.
Qed.

Lemma loop_inv fuel nodes visit nodes' visit' :
  Inv nodes visit -> dijkstra_loop fuel edges maxLen endN nodes visit = (nodes', visit') ->
  Inv nodes' visit'.
Proof.
  revert nodes visit. induction fuel as [|f IH]; intros nodes visit HI H; simpl in H.
  - injection H as <- <-. exact HI.
  - destruct visit as [|v0 rest]; [injection H as <- <-; exact HI|].
    destruct (is_prev_none (prevIdx (nodes !!! endN))); [|injection H as <- <-; exact HI].
    destruct (dijkstra_iter edges maxLen endN nodes (v0 :: rest) v0 rest) as [nodes2 visit2] eqn:Hit.
    apply (IH nodes2 visit2); [|exact H]. eapply iter_inv; eauto.
Qed.

(** The state after seeding the start nodes. *)
Definition seeded (nodes : list TaxiNode) (visit : list nat) : Prop :=
  length nodes = length orig /\
  (forall n, vecEdges (nodes !!! n) = vecEdges (orig !!! n)) /\
  (forall n, bVisited (nodes !!! n) = false) /\
  (forall n, (prevIdx (nodes !!! n) = PrevNone /\ pathLen (nodes !!! n) = PInf) \/
             (prevIdx (nodes !!! n) = PrevStart /\ pathLen (nodes !!! n) = Fin 0 /\
              n ∈ ss /\ (n < length nodes)%nat)) /\
  (forall n, n ∈ visit -> (n < length nodes)%nat /\ prevIdx (nodes !!! n) = PrevStart).

Lemma seed_seeded ns nodes visit nodes' visit' :
  seeded nodes visit -> (forall n, n ∈ ns -> n ∈ ss /\ (n < length orig)%nat) ->
  seed ns nodes visit = (nodes', visit') -> seeded nodes' visit'.
Proof.
  revert nodes visit. induction ns as [|n ns IH]; intros nodes visit (Hl & He & Hv & Hp & Hvis) Hns H;
    simpl in H.
  - injection H as <- <-. exact (conj Hl (conj He (conj Hv (conj Hp Hvis)))).
  - eapply IH; [|intros m Hm; apply Hns; right; exact Hm|exact H].
    destruct (Hns n (ltac:(left))) as [Hss Hn].
    rewrite <- Hl in Hn.
    set (x := set_dijk (nodes !!! n) (Fin 0) PrevStart).
    assert (Hlk : forall m, <[n := x]> nodes !!! m = if decide (m = n) then x else nodes !!! m).
    { intros m. rewrite list_lookup_total_insert.
      case_decide as H1; case_decide as H2; subst; try reflexivity; [destruct H1; congruence|].
      exfalso. apply H1; auto. }
    split; [|split; [|split; [|split]]].
    + rewrite length_insert. exact Hl.
    + intros m. rewrite Hlk. case_decide; subst; [apply He|apply He].
    + intros m. rewrite Hlk. case_decide; subst; [apply Hv|apply Hv].
    + intros m. rewrite Hlk, length_insert. case_decide; [subst; right; auto|apply Hp].
    + intros m Hm. rewrite length_insert. apply elem_of_app in Hm as [Hm|Hm].
      * destruct (Hvis m Hm) as [Hr Hs]. split; [exact Hr|]. rewrite Hlk. case_decide; [reflexivity|exact Hs].
      * apply list_elem_of_singleton in Hm as ->. split; [exact Hn|]. rewrite Hlk, decide_True; reflexivity.
Qed.

Lemma seeded_inv nodes visit : seeded nodes visit -> Inv nodes visit.
Proof.
  intros (Hl & He & Hv & Hp & Hvis). constructor; auto.
  - intros n Hn. destruct (Hvis n Hn) as [Hr Hs]. rewrite Hs. split; [exact Hr|discriminate].
  - intros n. destruct (Hp n) as [[_ ->]|(_ & -> & _)]; [left; reflexivity|right; exists 0; split; [reflexivity|lia]].
  - intros n _ Hs. destruct (Hp n) as [[Hn _]|(_ & Hz & Hss & _)]; [congruence|auto].
  - intros n p _ Hpr. destruct (Hp n) as [[Hn _]|(Hn & _)]; congruence.
  - intros n Hn Hpr. exists [], n. split; [|constructor].
    constructor; [exact Hn|]. destruct (Hp n) as [[Hn' _]|(Hs & _)]; [congruence|exact Hs].
Qed.

Lemma init_seeded : seeded (map InitDijkstraAttr orig) [].
Proof.
  split; [|split; [|split; [|split]]].
  - apply length_map.
  - intros n. rewrite map_init_lookup. reflexivity.
  - intros n. rewrite map_init_lookup. reflexivity.
  - intros n. left. rewrite map_init_lookup. split; reflexivity.
  - intros n Hn. inversion Hn.
Qed.

End Invariant.

(** The state a search leaves behind, when it reports a non-empty path:
    the invariant holds, and the path is the predecessor chain of [_endN]
    from a node seeded at distance 0. *)
Lemma ShortestPath_result (apt : Apt) (startN : nat) (bStartIsRwy : bool)
    (endN : nat) (maxLen : dbl) (nodes' : list TaxiNode) (l : list nat) :
  wf_apt apt -> (endN < length (vecTaxiNodesA apt))%nat -> maxLen <> NaN ->
  ShortestPath apt startN bStartIsRwy endN maxLen = Some (nodes', l) -> l <> [] ->
  exists ss visit s, Inv (vecTaxiNodesA apt) (vecTaxiEdges apt) maxLen ss nodes' visit /\
    chain nodes' endN l s /\ start_node apt startN bStartIsRwy s.
Proof.
  intros [Hwf Hrwy] Hend Hmax H Hl. unfold ShortestPath in H.
  destruct (negb bStartIsRwy && Nat.eqb startN endN) eqn:Hsan;
    [injection H as _ <-; congruence|].
  set (orig := vecTaxiNodesA apt) in *.
  set (nodes0 := map InitDijkstraAttr orig) in H.
  destruct (if bStartIsRwy then option_map vecTaxiNodes (vecRwyEndPts apt !! startN)
            else option_map (fun _ => [startN]) (nodes0 !! startN)) as [ss|] eqn:Hss;
    [|discriminate].
  assert (Hstart : forall n, n ∈ ss -> start_node apt startN bStartIsRwy n /\ (n < length orig)%nat).
  { intros n Hn. unfold start_node. destruct bStartIsRwy.
    - destruct (vecRwyEndPts apt !! startN) as [ep|] eqn:Hep; [|discriminate].
      injection Hss as <-. split; [exists ep; auto|].
      apply (Hrwy ep n); [eapply list_elem_of_lookup_2; eauto|exact Hn].
    - destruct (nodes0 !! startN) as [x|] eqn:Hx; [|discriminate].
      injection Hss as <-. apply list_elem_of_singleton in Hn as ->. split; [reflexivity|].
      apply lookup_lt_Some in Hx. unfold nodes0 in Hx. rewrite length_map in Hx. exact Hx. }
  destruct (seed ss nodes0 []) as [nodes1 visit1] eqn:Hseed.
  destruct (dijkstra_loop (loop_fuel nodes1 ss) (vecTaxiEdges apt) maxLen endN nodes1 visit1)
    as [nodes2 visit2] eqn:Hloop.
  assert (HI1 : Inv orig (vecTaxiEdges apt) maxLen ss nodes1 visit1).
  { apply seeded_inv. eapply seed_seeded; [apply init_seeded| |exact Hseed].
    intros n Hn. destruct (Hstart n Hn). auto. }
  assert (HI2 : Inv orig (vecTaxiEdges apt) maxLen ss nodes2 visit2)
    by (eapply loop_inv; eauto).
  destruct (is_prev_none (prevIdx (nodes2 !!! endN))) eqn:Hpn; [injection H as _ <-; congruence|].
  assert (Hpn' : prevIdx (nodes2 !!! endN) <> PrevNone) by (intros Hq; rewrite Hq in Hpn; discriminate).
  assert (Hend2 : (endN < length nodes2)%nat) by (rewrite (inv_len _ _ _ _ _ _ HI2); exact Hend).
  destruct (inv_chain _ _ _ _ _ _ HI2 endN Hend2 Hpn') as (l0 & s & Hch & Hnd).
  rewrite (collect_chain _ _ _ _ _ Hch) in H
    by (pose proof (chain_length _ _ _ _ Hch Hnd); lia).
  injection H as <- <-.
  destruct (chain_end _ _ _ _ Hch) as [Hs Hss0].
  destruct (inv_start _ _ _ _ _ _ HI2 s Hs Hss0) as [_ Hsin].
  exists ss, visit2, s. split; [exact HI2|]. split; [exact Hch|]. apply (Hstart s Hsin).
Qed.

(** Every node listed by a chain has a predecessor node. *)
Lemma chain_prev (nodes : list TaxiNode) n l s m :
  chain nodes n l s -> m ∈ l -> exists p, prevIdx (nodes !!! m) = Prev p.
Proof.
  induction 1 as [n Hn Hs|n p l s Hn Hp Hc IH]; intros Hm.
  - inversion Hm.
  - apply elem_of_cons in Hm as [->|Hm]; eauto.
Qed.

(** The last node listed by a non-empty chain has the chain's start as
    predecessor. *)
Lemma chain_last (nodes : list TaxiNode) n l s :
  chain nodes n l s -> l <> [] -> exists x, last l = Some x /\ prevIdx (nodes !!! x) = Prev s.
Proof.
  induction 1 as [n Hn Hs|n p l s Hn Hp Hc IH]; intros Hl; [congruence|].
  destruct l as [|y l'].
  - inversion Hc; subst. exists n. auto.
  - destruct IH as (x & Hx & Hpx); [discriminate|]. exists x. split; [|exact Hpx].
    rewrite <- Hx. reflexivity.
Qed.

(** C1: a non-empty path returned by [Apt::ShortestPath] on a well-formed
    network, read backwards from a node seeded at distance 0 (the start node,
    or a taxi node attached to the start runway end), is a walk along edges of
    the network to [_endN] whose summed edge length does not exceed [_maxLen]
    (which is a number, not NaN): edges whose cumulative distance would exceed
    [_maxLen] are never relaxed.  The length is the [pathLen] of [_endN]. *)
Theorem ShortestPath_within_maxLen (apt : Apt) (startN : nat) (bStartIsRwy : bool)
    (endN : nat) (maxLen : dbl) (nodes' : list TaxiNode) (l : list nat) :
  wf_apt apt -> (endN < length (vecTaxiNodesA apt))%nat -> maxLen <> NaN ->
  ShortestPath apt startN bStartIsRwy endN maxLen = Some (nodes', l) -> l <> [] ->
  exists s es L, start_node apt startN bStartIsRwy s /\
    walk (vecTaxiNodesA apt) (vecTaxiEdges apt) s (rev l) es endN L /\
    pathLen (nodes' !!! endN) = Fin L /\ dle (Fin L) maxLen = true.
Proof.
  intros Hwf Hend Hmax H Hl.
  destruct (ShortestPath_result apt startN bStartIsRwy endN maxLen nodes' l Hwf Hend Hmax H Hl)
    as (ss & visit & s & HI & Hch & Hs).
  destruct (chain_walk _ _ _ _ _ _ _ _ _ HI Hch) as (es & L & Hw & HL).
  exists s, es, L. split; [exact Hs|]. split; [exact Hw|]. split; [exact HL|].
  inversion Hch as [|n p l1 s1 Hn Hp Hc1]; subst; [congruence|].
  destruct (inv_prev _ _ _ _ _ _ HI endN p Hn Hp) as (_ & _ & eIdx & e & d & x & _ & _ & _ & _ & _ & Hx & Hle).
  rewrite HL in Hx. injection Hx as ->. exact Hle.
Qed.

Lemma wf_apt_b_sound (apt : Apt) : wf_apt_b apt = true -> wf_apt apt.
Proof.
  unfold wf_apt_b, wf_net_b. intros H. apply andb_prop in H as [Hn Hr]. split.
  - intros n eIdx Hlt He. rewrite forallb_forall in Hn.
    assert (Hin : In n (seq 0 (length (vecTaxiNodesA apt)))) by (apply in_seq; lia).
    specialize (Hn n Hin). rewrite forallb_forall in Hn.
    specialize (Hn eIdx (proj1 (list_elem_of_In _ _) He)). unfold wf_edge_b in Hn.
    destruct (vecTaxiEdges apt !! eIdx) as [e|]; [|discriminate].
    destruct (dist_m e) as [d| | |] eqn:Hd; rewrite ?andb_false_r in Hn; try discriminate.
    repeat rewrite andb_true_iff in Hn. destruct Hn as [[[Hab Ha] Hb] Hd0].
    apply orb_true_iff in Hab. apply Nat.ltb_lt in Ha, Hb. apply Z.leb_le in Hd0.
    exists e, d. split; [reflexivity|]. split.
    + destruct Hab as [Hab|Hab]; apply Nat.eqb_eq in Hab; auto.
    + auto.
  - intros ep n Hep Hn'. rewrite forallb_forall in Hr.
    specialize (Hr ep (proj1 (list_elem_of_In _ _) Hep)). rewrite forallb_forall in Hr.
    apply Nat.ltb_lt, Hr, list_elem_of_In, Hn'.
Qed.

(** Witness for C1: the search from node 0 to node 1 of [g1] within 100 m. *)
Lemma ShortestPath_within_maxLen_witness :
  exists s es L, start_node g1 0 false s /\
    walk (vecTaxiNodesA g1) (vecTaxiEdges g1) s (rev [1%nat]) es 1 L /\
    pathLen (sp_nodes (ShortestPath g1 0 false 1 (Fin 100)) !!! 1%nat) = Fin L /\
    dle (Fin L) (Fin 100) = true.
Proof.
  apply (ShortestPath_within_maxLen g1 0 false 1 (Fin 100)
           (sp_nodes (ShortestPath g1 0 false 1 (Fin 100))) [1%nat]).
  - apply wf_apt_b_sound. vm_compute. reflexivity.
  - simpl. lia.
  - discriminate.
  - vm_compute. reflexivity.
  - discriminate.
Defined.

(** C2: [Apt::ShortestPath] does not stop when [_endN] is finalized but as
    soon as it is first relaxed.  On [g1] the search from node 0 to node 1
    within 100 m relaxes node 1 from node 0 over the 10 m edge and returns
    [[1]], a path of 10 m, although the path 0-2-1 of 2 m is within the
    budget. *)
Theorem ShortestPath_g1_not_shortest :
  ShortestPath g1 0 false 1 (Fin 100) =
    Some (sp_nodes (ShortestPath g1 0 false 1 (Fin 100)), [1%nat]) /\
  pathLen (sp_nodes (ShortestPath g1 0 false 1 (Fin 100)) !!! 1%nat) = Fin 10 /\
  walk (vecTaxiNodesA g1) (vecTaxiEdges g1) 0 (rev [1%nat]) [0%nat] 1 10 /\
  walk (vecTaxiNodesA g1) (vecTaxiEdges g1) 0 [2; 1]%nat [1; 2]%nat 1 2.
Proof.
  split; [vm_compute; reflexivity|]. split; [vm_compute; reflexivity|]. split.
  - apply (walk_cons _ _ 0 1 [] 0 (vecTaxiEdges g1 !!! 0%nat) 10 [] 1 0);
      [apply list_elem_of_In; simpl; auto | reflexivity | left; split; reflexivity
      | reflexivity | apply walk_nil].
  - apply (walk_cons _ _ 0 2 [1%nat] 1 (vecTaxiEdges g1 !!! 1%nat) 1 [2%nat] 1 1);
      [apply list_elem_of_In; simpl; auto | reflexivity | left; split; reflexivity
      | reflexivity |].
    apply (walk_cons _ _ 2 1 [] 2 (vecTaxiEdges g1 !!! 2%nat) 1 [] 1 0);
      [apply list_elem_of_In; simpl; auto | reflexivity | left; split; reflexivity
      | reflexivity | apply walk_nil].
Qed.

(** C3: the list returned by [Apt::ShortestPath] ends with the node after
    the start: its last node has a start node (seeded at distance 0) as
    predecessor, and no start node of the path is listed. *)
Theorem ShortestPath_omits_start (apt : Apt) (startN : nat) (bStartIsRwy : bool)
    (endN : nat) (maxLen : dbl) (nodes' : list TaxiNode) (l : list nat) :
  wf_apt apt -> (endN < length (vecTaxiNodesA apt))%nat -> maxLen <> NaN ->
  ShortestPath apt startN bStartIsRwy endN maxLen = Some (nodes', l) -> l <> [] ->
  exists s x, start_node apt startN bStartIsRwy s /\ last l = Some x /\
    prevIdx (nodes' !!! x) = Prev s /\ s ∉ l.
Proof.
  intros Hwf Hend Hmax H Hl.
  destruct (ShortestPath_result apt startN bStartIsRwy endN maxLen nodes' l Hwf Hend Hmax H Hl)
    as (ss & visit & s & HI & Hch & Hs).
  destruct (chain_last _ _ _ _ Hch Hl) as (x & Hx & Hpx).
  exists s, x. split; [exact Hs|]. split; [exact Hx|]. split; [exact Hpx|].
  intros Hin. destruct (chain_prev _ _ _ _ _ Hch Hin) as [p Hp].
  destruct (chain_end _ _ _ _ Hch) as [_ Hst]. congruence.
Qed.

(** Witness for C3: on [g1] the search from node 0 returns [[1]]. *)
Lemma ShortestPath_omits_start_witness :
  exists s x, start_node g1 0 false s /\ last [1%nat] = Some x /\
    prevIdx (sp_nodes (ShortestPath g1 0 false 1 (Fin 100)) !!! x) = Prev s /\ s ∉ [1%nat].
Proof.
  apply (ShortestPath_omits_start g1 0 false 1 (Fin 100)
           (sp_nodes (ShortestPath g1 0 false 1 (Fin 100))) [1%nat]).
  - apply wf_apt_b_sound. vm_compute. reflexivity.
  - simpl. lia.
  - discriminate.
  - vm_compute. reflexivity.
  - discriminate.
Defined.

End DijkstraProofs.

(** ** Building the network *)

Module BuildProofs.
Import Build Samples.

Definition in_store (nr nt : nat) (e : TaxiEdge) : Prop :=
  (etype e = RUN_WAY /\ (ea e < nr)%nat /\ (eb e < nr)%nat) \/
  (etype e = TAXI_WAY /\ (ea e < nt)%nat /\ (eb e < nt)%nat).

(** The store invariant of the edges, and the pairing of runway edges with
    runway endpoints. *)
Definition Inv10 (apt : Apt) : Prop :=
  Forall (in_store (length (vecRwyEndPts apt)) (length (vecTaxiNodesA apt))) (vecTaxiEdges apt) /\
  exists m, length (vecRwyEndPts apt) = (2 * m)%nat /\
    map rwy_ends (List.filter is_rwy (vecTaxiEdges apt)) = rwy_pairs m.

Lemma in_store_mono nr nt nr' nt' es :
  Forall (in_store nr nt) es -> (nr <= nr')%nat -> (nt <= nt')%nat -> Forall (in_store nr' nt') es.
Proof.
  intros H Hr Ht. eapply Forall_impl; [exact H|].
  intros e [(?&?&?)|(?&?&?)]; [left|right]; repeat split; auto; lia.
Qed.

Lemma Normalize_etype e : etype (Normalize e) = etype e.
Proof. unfold Normalize. destruct (dge _ _); reflexivity. Qed.

Lemma Normalize_ends e :
  (ea (Normalize e) = ea e /\ eb (Normalize e) = eb e) \/
  (ea (Normalize e) = eb e /\ eb (Normalize e) = ea e).
Proof. unfold Normalize. destruct (dge _ _); simpl; auto. Qed.

Lemma Normalize_in_store nr nt e : in_store nr nt e -> in_store nr nt (Normalize e).
Proof.
  unfold in_store. rewrite Normalize_etype.
  destruct (Normalize_ends e) as [[-> ->]|[-> ->]]; intuition.
Qed.

Lemma Normalize_rwy_ends e : rwy_ends (Normalize e) = rwy_ends e.
Proof.
  unfold rwy_ends. destruct (Normalize_ends e) as [[-> ->]|[-> ->]]; [reflexivity|].
  f_equal; lia.
Qed.

Lemma Normalize_is_rwy e : is_rwy (Normalize e) = is_rwy e.
Proof. unfold is_rwy. rewrite Normalize_etype. reflexivity. Qed.

Lemma filter_insert_nonrwy (es : list TaxiEdge) k e' :
  is_rwy (es !!! k) = false -> is_rwy e' = false ->
  List.filter is_rwy (<[k := e']> es) = List.filter is_rwy es.
Proof.
  revert k. induction es as [|x es IH]; intros k Hk He; [reflexivity|].
  destruct k as [|k]; simpl in *.
  - rewrite He, Hk. reflexivity.
  - rewrite IH by assumption. reflexivity.
Qed.

Lemma rwy_pairs_S m : rwy_pairs (S m) = rwy_pairs m ++ [(2 * m, 2 * m + 1)%nat].
Proof. unfold rwy_pairs. rewrite seq_S, map_app. reflexivity. Qed.

Lemma in_store_lookup nr nt es k e :
  Forall (in_store nr nt) es -> es !! k = Some e -> in_store nr nt e.
Proof. intros H Hk. eapply Forall_lookup_1; eauto. Qed.

Lemma not_rwy_taxi nr nt e : in_store nr nt e -> etype e <> RUN_WAY -> etype e = TAXI_WAY.
Proof. intros [(?&?&?)|(?&?&?)] Hn; congruence. Qed.

Lemma is_rwy_false e : etype e <> RUN_WAY -> is_rwy e = false.
Proof. unfold is_rwy. destruct (etype e); simpl; congruence. Qed.

Lemma nodeTy_eqb_true x y : nodeTy_eqb x y = true -> x = y.
Proof. destruct x, y; simpl; congruence. Qed.

Lemma nodeTy_eqb_false x y : nodeTy_eqb x y = false -> x <> y.
Proof. destruct x, y; simpl; congruence. Qed.

Section Ops.
Variable CoordAngle : dbl -> dbl -> dbl -> dbl -> dbl.
Variable DistLatLon : dbl -> dbl -> dbl -> dbl -> dbl.
Variable latDiff : dbl.
Variable lonDiff : dbl -> dbl.
Variable RwyTouchDown : dbl -> dbl -> dbl -> dbl -> dbl -> dbl -> dbl * dbl * dbl * dbl * dbl.

Lemma AddTaxiNode_shape apt la lo d apt' i :
  AddTaxiNode latDiff lonDiff apt la lo d = Some (apt', i) ->
  vecRwyEndPts apt' = vecRwyEndPts apt /\ vecTaxiEdges apt' = vecTaxiEdges apt /\
  (length (vecTaxiNodesA apt) <= length (vecTaxiNodesA apt'))%nat.
Proof.
  unfold AddTaxiNode. destruct (GetSimilarTaxiNode _ _ _ _ _ _) as [[j|]|]; intros H;
    inversion H; subst; simpl; [auto|]. rewrite length_app. simpl. split; [auto|split; [auto|lia]].
Qed.

Lemma AddTaxiNodeFixed_length apt la lo idx :
  (length (vecTaxiNodesA apt) <= length (vecTaxiNodesA (AddTaxiNodeFixed apt la lo idx)))%nat.
Proof.
  unfold AddTaxiNodeFixed. simpl.
  destruct (Nat.eqb idx _); [rewrite length_app; simpl; lia|].
  rewrite length_insert. destruct (Nat.ltb _ idx); [rewrite length_app|]; lia.
Qed.

Lemma AddTaxiEdge_inv10 apt n1 n2 d apt' r :
  Inv10 apt -> AddTaxiEdge CoordAngle DistLatLon apt n1 n2 d = Some (apt', r) -> Inv10 apt'.
Proof.
  intros [HF (m & Hm & Hp)]. unfold AddTaxiEdge.
  destruct (vecTaxiNodesA apt !! n1) as [a|] eqn:Ha; [|discriminate].
  destruct (vecTaxiNodesA apt !! n2) as [b|] eqn:Hb; [|discriminate].
  destruct (negb (HasGeoCoords a) || negb (HasGeoCoords b)).
  { intros H. injection H as <- _. split; eauto. }
  intros H. injection H as <- _. unfold Inv10. simpl. rewrite !length_insert.
  apply lookup_lt_Some in Ha, Hb. split.
  - apply Forall_app. split; [exact HF|]. constructor; [|constructor].
    apply Normalize_in_store. right. simpl. auto.
  - exists m. split; [exact Hm|]. rewrite List.filter_app. cbn [List.filter].
    unfold TaxiEdge_new. rewrite Normalize_is_rwy. cbn. rewrite app_nil_r. exact Hp.
Qed.

Lemma SplitEdge_inv10 apt eIdx insNode e apt' :
  Inv10 apt -> vecTaxiEdges apt !! eIdx = Some e -> etype e = TAXI_WAY ->
  SplitEdge CoordAngle DistLatLon apt eIdx insNode = Some apt' -> Inv10 apt'.
Proof.
  intros HI He Ht. unfold SplitEdge. rewrite He.
  destruct (Nat.eqb insNode (ea e) || Nat.eqb insNode (eb e)); [congruence|].
  destruct (vecTaxiNodesA apt !! insNode) as [b|] eqn:Hb; [|discriminate].
  match goal with |- option_map fst (AddTaxiEdge _ _ ?a1 _ _ _) = _ -> _ =>
    destruct (AddTaxiEdge CoordAngle DistLatLon a1 insNode (eb e) NaN) as [[a2 r]|] eqn:Hadd;
    [|discriminate]; intros H; injection H as <-; eapply AddTaxiEdge_inv10; [|exact Hadd] end.
  destruct HI as [HF (m & Hm & Hp)].
  pose proof (in_store_lookup _ _ _ _ _ HF He) as [(Hr&_)|(_&Hea&Heb)]; [congruence|].
  apply lookup_lt_Some in Hb.
  unfold Inv10. simpl. rewrite !length_insert. split.
  - apply Forall_insert; [exact HF|]. unfold SetEndNode. apply Normalize_in_store.
    right. simpl. auto.
  - exists m. split; [exact Hm|]. rewrite filter_insert_nonrwy; [exact Hp| |].
    + rewrite (list_lookup_total_correct _ _ _ He). unfold is_rwy. rewrite Ht. reflexivity.
    + unfold SetEndNode. rewrite Normalize_is_rwy. unfold is_rwy. simpl. rewrite Ht. reflexivity.
Qed.

Lemma SortTaxiEdges_fields apt :
  vecTaxiNodesA (SortTaxiEdges apt) = vecTaxiNodesA apt /\
  vecRwyEndPts (SortTaxiEdges apt) = vecRwyEndPts apt /\
  vecTaxiEdges (SortTaxiEdges apt) = vecTaxiEdges apt.
Proof. auto. Qed.

Lemma SortTaxiEdges_inv10 apt : Inv10 apt -> Inv10 (SortTaxiEdges apt).
Proof. unfold Inv10. destruct (SortTaxiEdges_fields apt) as (-> & -> & ->). auto. Qed.

Lemma RecalcTaxiEdge_etype apt e : etype (RecalcTaxiEdge CoordAngle DistLatLon apt e) = etype e.
Proof. unfold RecalcTaxiEdge. rewrite Normalize_etype. reflexivity. Qed.

Lemma RecalcTaxiEdge_in_store apt e nr nt :
  in_store nr nt e -> in_store nr nt (RecalcTaxiEdge CoordAngle DistLatLon apt e).
Proof. intros H. unfold RecalcTaxiEdge. apply Normalize_in_store. exact H. Qed.

Lemma JoinOpenTaxiEdge_inv10 apt i joinIdx bStartA la lo apt' :
  Inv10 apt -> JoinOpenTaxiEdge CoordAngle DistLatLon apt i joinIdx bStartA la lo = Some apt' ->
  Inv10 apt'.
Proof.
  intros HI. unfold JoinOpenTaxiEdge.
  destruct (vecTaxiNodesA apt !! i) as [n|] eqn:Hn; [|discriminate].
  destruct (vecEdges n) as [|eIdx [|]] eqn:Hen; try discriminate.
  destruct (vecTaxiEdges apt !! eIdx) as [e|] eqn:He; [|discriminate].
  destruct (vecTaxiEdges apt !! joinIdx) as [je|] eqn:Hje; [|discriminate].
  destruct (nodeTy_eqb (etype e) RUN_WAY) eqn:Her; [discriminate|].
  destruct (Nat.eqb joinIdx eIdx) eqn:Hji; [discriminate|]. simpl.
  apply nodeTy_eqb_false in Her. apply Nat.eqb_neq in Hji.
  destruct (nodeTy_eqb (etype je) RUN_WAY) eqn:Hjr.
  - destruct (vecRwyEndPts apt !! _) as [ep|]; [|discriminate].
    intros H. injection H as <-. destruct HI as [HF (m & Hm & Hp)].
    unfold Inv10. simpl. rewrite length_insert. split; [exact HF|]. exists m. auto.
  - apply nodeTy_eqb_false in Hjr.
    destruct (SplitEdge _ _ _ joinIdx i) as [a2|] eqn:Hs; [|discriminate].
    intros H. injection H as <-. apply SortTaxiEdges_inv10.
    destruct HI as [HF (m & Hm & Hp)].
    pose proof (in_store_lookup _ _ _ _ _ HF Hje) as Hjs.
    pose proof (in_store_lookup _ _ _ _ _ HF He) as Hes.
    eapply SplitEdge_inv10; [| |apply (not_rwy_taxi _ _ _ Hjs Hjr)|exact Hs].
    + unfold Inv10. simpl. rewrite length_insert. split.
      * apply Forall_insert; [exact HF|]. apply RecalcTaxiEdge_in_store. exact Hes.
      * exists m. split; [exact Hm|]. rewrite filter_insert_nonrwy; [exact Hp| |].
        -- rewrite (list_lookup_total_correct _ _ _ He). apply is_rwy_false. exact Her.
        -- apply is_rwy_false. rewrite RecalcTaxiEdge_etype. exact Her.
    + simpl. rewrite list_lookup_insert_ne by congruence. exact Hje.
Qed.

Lemma AddRwyEnds_edges apt lat1 lon1 d1 id1 lat2 lon2 d2 id2 :
  let apt' := AddRwyEnds CoordAngle RwyTouchDown apt lat1 lon1 d1 id1 lat2 lon2 d2 id2 in
  vecTaxiNodesA apt' = vecTaxiNodesA apt /\
  length (vecRwyEndPts apt') = (length (vecRwyEndPts apt) + 2)%nat /\
  exists e, vecTaxiEdges apt' = vecTaxiEdges apt ++ [e] /\ etype e = RUN_WAY /\
    rwy_ends e = (length (vecRwyEndPts apt), S (length (vecRwyEndPts apt))).
Proof.
  unfold AddRwyEnds. destruct (RwyTouchDown _ _ _ _ _ _) as [[[[la1 lo1] la2] lo2] rd].
  simpl. rewrite length_app. simpl. split; [reflexivity|]. split; [lia|].
  eexists. split; [reflexivity|]. split; [apply Normalize_etype|].
  unfold TaxiEdge_new. rewrite Normalize_rwy_ends. unfold rwy_ends. simpl.
  f_equal; lia.
Qed.

Lemma AddRwyEnds_inv10 apt lat1 lon1 d1 id1 lat2 lon2 d2 id2 :
  Inv10 apt -> Inv10 (AddRwyEnds CoordAngle RwyTouchDown apt lat1 lon1 d1 id1 lat2 lon2 d2 id2).
Proof.
  intros [HF (m & Hm & Hp)].
  destruct (AddRwyEnds_edges apt lat1 lon1 d1 id1 lat2 lon2 d2 id2) as (Hn & Hl & e & He & Ht & Hends).
  unfold Inv10. rewrite Hn, Hl, He. split.
  - apply Forall_app. split; [eapply in_store_mono; [exact HF|lia|lia]|].
    constructor; [|constructor]. left. split; [exact Ht|].
    unfold rwy_ends in Hends. injection Hends as H1 H2. lia.
  - exists (S m). split; [lia|]. rewrite List.filter_app. simpl.
    unfold is_rwy at 2. rewrite Ht. simpl. rewrite map_app, Hp, rwy_pairs_S. simpl.
    rewrite Hends, Hm. f_equal. f_equal. f_equal; lia.
Qed.

Lemma exec_op_inv10 apt op apt' :
  Inv10 apt -> exec_op CoordAngle DistLatLon latDiff lonDiff RwyTouchDown apt op = Some apt' ->
  Inv10 apt'.
Proof.
  intros HI. destruct op; simpl.
  - destruct (AddTaxiNode _ _ _ _ _ _) as [[a i]|] eqn:H; [|discriminate].
    intros Hs. injection Hs as <-. destruct (AddTaxiNode_shape _ _ _ _ _ _ H) as (Hr & He & Hl).
    destruct HI as [HF (m & Hm & Hp)]. unfold Inv10. rewrite Hr, He.
    split; [eapply in_store_mono; [exact HF|lia|exact Hl]|eauto].
  - intros Hs. injection Hs as <-. destruct HI as [HF (m & Hm & Hp)]. unfold Inv10.
    simpl. split; [eapply in_store_mono; [exact HF|lia|apply AddTaxiNodeFixed_length]|exists m; split; [lia|exact Hp]].
  - destruct (AddTaxiEdge _ _ _ _ _ _) as [[a r]|] eqn:H; [|discriminate].
    intros Hs. injection Hs as <-. eapply AddTaxiEdge_inv10; eauto.
  - intros Hs. injection Hs as <-. apply AddRwyEnds_inv10. exact HI.
  - intros Hs. injection Hs as <-. apply SortTaxiEdges_inv10. exact HI.
  - apply JoinOpenTaxiEdge_inv10. exact HI.
Qed.

Lemma run_inv10 ops apt apt' :
  Inv10 apt -> run CoordAngle DistLatLon latDiff lonDiff RwyTouchDown apt ops = Some apt' ->
  Inv10 apt'.
Proof.
  revert apt. induction ops as [|op ops IH]; intros apt HI; simpl.
  - intros H. injection H as <-. exact HI.
  - destruct (exec_op _ _ _ _ _ apt op) as [a|] eqn:H; [|discriminate].
    apply IH. eapply exec_op_inv10; eauto.
Qed.

Lemma Apt_new_inv10 i : Inv10 (Apt_new i).
Proof. split; [constructor|]. exists 0%nat. auto. Qed.

End Ops.

(** *** Edge angles *)

Definition angle_ok (e : TaxiEdge) : Prop := exists z, angle e = Fin z /\ 0 <= z < 180.

(** Taxi edges join nodes that have coordinates. *)
Definition geo_ends (ns : list TaxiNode) (e : TaxiEdge) : Prop :=
  etype e = TAXI_WAY -> HasGeoCoords (ns !!! ea e) = true /\ HasGeoCoords (ns !!! eb e) = true.

Definition geo_mono (ns ns' : list TaxiNode) : Prop :=
  (length ns <= length ns')%nat /\
  forall k, (k < length ns)%nat -> HasGeoCoords (ns !!! k) = true -> HasGeoCoords (ns' !!! k) = true.

Definition Inv4 (apt : Apt) : Prop :=
  Inv10 apt /\ Forall angle_ok (vecTaxiEdges apt) /\
  Forall (geo_ends (vecTaxiNodesA apt)) (vecTaxiEdges apt).

Lemma geo_ends_mono nr (ns ns' : list TaxiNode) es :
  Forall (in_store nr (length ns)) es -> Forall (geo_ends ns) es -> geo_mono ns ns' ->
  Forall (geo_ends ns') es.
Proof.
  rewrite !Forall_forall. intros Hs Hg [_ Hm] x Hx Ht.
  destruct (Hs x Hx) as [(Hr&_)|(_&Ha&Hb)]; [congruence|].
  destruct (Hg x Hx Ht). split; apply Hm; auto.
Qed.

Lemma geo_mono_refl (ns : list TaxiNode) : geo_mono ns ns.
Proof. split; auto. Qed.

Lemma geo_mono_trans (ns1 ns2 ns3 : list TaxiNode) : geo_mono ns1 ns2 -> geo_mono ns2 ns3 -> geo_mono ns1 ns3.
Proof. intros [H1 H2] [H3 H4]. split; [lia|]. intros k Hk Hg. apply H4; [lia|]. auto. Qed.

Lemma geo_insert_same (ns : list TaxiNode) (i : nat) x (k : nat) :
  HasGeoCoords x = HasGeoCoords (ns !!! i) -> HasGeoCoords (<[i:=x]> ns !!! k) = HasGeoCoords (ns !!! k).
Proof.
  intros Hx. rewrite list_lookup_total_insert. case_decide as Hd; [|reflexivity].
  destruct Hd as [<- _]. exact Hx.
Qed.

Lemma geo_mono_insert (ns : list TaxiNode) (i : nat) x :
  (HasGeoCoords (ns !!! i) = true -> HasGeoCoords x = true) -> geo_mono ns (<[i:=x]> ns).
Proof.
  intros Hx. split; [rewrite length_insert; lia|]. intros k Hk Hg.
  rewrite list_lookup_total_insert. case_decide as Hd; [|exact Hg].
  destruct Hd as [<- _]. auto.
Qed.

Lemma geo_mono_same (ns ns' : list TaxiNode) :
  length ns' = length ns -> (forall k, HasGeoCoords (ns' !!! k) = HasGeoCoords (ns !!! k)) ->
  geo_mono ns ns'.
Proof. intros Hl Hs. split; [lia|]. intros k _ Hk. rewrite Hs. exact Hk. Qed.

Lemma geo_mono_app (ns l : list TaxiNode) : geo_mono ns (ns ++ l).
Proof.
  split; [rewrite length_app; lia|]. intros k Hk Hg. rewrite lookup_total_app_l by lia. exact Hg.
Qed.

Lemma Normalize_angle_ok e z : angle e = Fin z -> 0 <= z < 360 -> angle_ok (Normalize e).
Proof.
  intros Ha Hz. unfold Normalize. rewrite Ha. simpl.
  destruct (180 <=? z) eqn:H; simpl.
  - apply Z.leb_le in H. exists (z + - 180). split; [reflexivity|lia].
  - apply Z.leb_gt in H. exists z. split; [exact Ha|lia].
Qed.

Lemma Normalize_geo_ends (ns : list TaxiNode) e : geo_ends ns e -> geo_ends ns (Normalize e).
Proof.
  unfold geo_ends. rewrite Normalize_etype. intros H Ht.
  destruct (Normalize_ends e) as [[-> ->]|[-> ->]]; destruct (H Ht); auto.
Qed.

Lemma HasGeoCoords_nan n : HasGeoCoords n = true -> isnan (lat n) = false /\ isnan (lon n) = false.
Proof. unfold HasGeoCoords. destruct (isnan (lat n)), (isnan (lon n)); simpl; auto; discriminate. Qed.

Section Angles.
Variable CoordAngle : dbl -> dbl -> dbl -> dbl -> dbl.
Variable DistLatLon : dbl -> dbl -> dbl -> dbl -> dbl.
Variable latDiff : dbl.
Variable lonDiff : dbl -> dbl.
Variable RwyTouchDown : dbl -> dbl -> dbl -> dbl -> dbl -> dbl -> dbl * dbl * dbl * dbl * dbl.
(** The bearing between two coordinates (none NaN) is in [0, 360). *)
Hypothesis HCA : forall a b c d, isnan a = false -> isnan b = false -> isnan c = false ->
  isnan d = false -> exists z, CoordAngle a b c d = Fin z /\ 0 <= z < 360.

Lemma CA_geo x y : HasGeoCoords x = true -> HasGeoCoords y = true ->
  exists z, CoordAngle (lat x) (lon x) (lat y) (lon y) = Fin z /\ 0 <= z < 360.
Proof.
  intros Hx Hy. apply HasGeoCoords_nan in Hx as [], Hy as []. apply HCA; assumption.
Qed.

Lemma AddTaxiEdge_inv4 apt n1 n2 d apt' r :
  Inv4 apt -> AddTaxiEdge CoordAngle DistLatLon apt n1 n2 d = Some (apt', r) -> Inv4 apt'.
Proof.
  intros [HI [HA HG]] H. split; [eapply AddTaxiEdge_inv10; eauto|]. revert H.
  pose proof HI as [HF _]. unfold AddTaxiEdge.
  destruct (vecTaxiNodesA apt !! n1) as [a|] eqn:Ha; [|discriminate].
  destruct (vecTaxiNodesA apt !! n2) as [b|] eqn:Hb; [|discriminate].
  destruct (negb (HasGeoCoords a) || negb (HasGeoCoords b)) eqn:Hg.
  { intros H. injection H as <- _. auto. }
  intros H. injection H as <- _. simpl.
  apply orb_false_iff in Hg as [Hga Hgb]. apply negb_false_iff in Hga, Hgb.
  set (ns := vecTaxiNodesA apt) in *.
  match goal with |- context [<[n2 := ?y]> (<[n1 := ?x]> ns)] =>
    assert (Hs : forall k, HasGeoCoords (<[n2 := y]> (<[n1 := x]> ns) !!! k) = HasGeoCoords (ns !!! k));
    [intros k; rewrite geo_insert_same; [apply geo_insert_same; reflexivity|reflexivity]|];
    assert (Hm : geo_mono ns (<[n2 := y]> (<[n1 := x]> ns)));
    [apply geo_mono_same; [rewrite !length_insert; reflexivity|exact Hs]|] end.
  split.
  - apply Forall_app. split; [exact HA|]. constructor; [|constructor].
    destruct (CA_geo a b Hga Hgb) as (z & Hz & Hr). eapply Normalize_angle_ok; [exact Hz|exact Hr].
  - apply Forall_app. split; [eapply geo_ends_mono; eauto|]. constructor; [|constructor].
    apply Normalize_geo_ends. intros _. simpl. rewrite !Hs.
    rewrite (list_lookup_total_correct _ _ _ Ha), (list_lookup_total_correct _ _ _ Hb). auto.
Qed.

(** The airport [SplitEdge] passes to its final [AddTaxiEdge]. *)
Definition split_mid (apt : Apt) (eIdx insNode : nat) (e : TaxiEdge) (b : TaxiNode) : Apt :=
  let joinOrigB := eb e in
  let ns := vecTaxiNodesA apt in
  let a := GetA apt e in
  let e' := SetEndNode e insNode (CoordAngle (lat a) (lon a) (lat b) (lon b))
              (DistLatLon (lat a) (lon a) (lat b) (lon b)) in
  let ns1 := <[insNode := push_edge b eIdx]> ns in
  let origB := ns1 !!! joinOrigB in
  let ns2 := <[joinOrigB := set_edges origB
                  (List.filter (fun x => negb (Nat.eqb x eIdx)) (vecEdges origB))]> ns1 in
  mkApt (aid apt) (bounds apt) (aalt_m apt) ns2 (vecRwyEndPts apt)
    (<[eIdx := e']> (vecTaxiEdges apt)) (vecTaxiEdgesIdxHead apt).

Lemma SplitEdge_cases apt eIdx insNode apt' :
  SplitEdge CoordAngle DistLatLon apt eIdx insNode = Some apt' ->
  exists e, vecTaxiEdges apt !! eIdx = Some e /\
    (apt' = apt \/ exists b r, vecTaxiNodesA apt !! insNode = Some b /\
       AddTaxiEdge CoordAngle DistLatLon (split_mid apt eIdx insNode e b) insNode (eb e) NaN = Some (apt', r)).
Proof.
  intros H. unfold SplitEdge in H.
  destruct (vecTaxiEdges apt !! eIdx) as [e|] eqn:He; [|discriminate].
  exists e. split; [reflexivity|].
  destruct (Nat.eqb insNode (ea e) || Nat.eqb insNode (eb e)).
  { injection H as <-. left. reflexivity. }
  destruct (vecTaxiNodesA apt !! insNode) as [b|] eqn:Hb; [|discriminate].
  change (option_map fst (AddTaxiEdge CoordAngle DistLatLon (split_mid apt eIdx insNode e b)
                            insNode (eb e) NaN) = Some apt') in H.
  destruct (AddTaxiEdge _ _ _ _ _ _) as [[a2 r]|] eqn:Hadd; [|discriminate].
  injection H as <-. right. eauto.
Qed.

Lemma split_mid_geo apt eIdx insNode e b k :
  vecTaxiNodesA apt !! insNode = Some b ->
  HasGeoCoords (vecTaxiNodesA (split_mid apt eIdx insNode e b) !!! k) = HasGeoCoords (vecTaxiNodesA apt !!! k).
Proof.
  intros Hb. simpl. rewrite geo_insert_same; [|reflexivity].
  apply geo_insert_same. rewrite (list_lookup_total_correct _ _ _ Hb). reflexivity.
Qed.

Lemma split_mid_inv4 apt eIdx insNode e b :
  Inv4 apt -> vecTaxiEdges apt !! eIdx = Some e -> etype e = TAXI_WAY ->
  vecTaxiNodesA apt !! insNode = Some b -> HasGeoCoords b = true ->
  Inv4 (split_mid apt eIdx insNode e b).
Proof.
  intros [[HF (m & Hm & Hp)] [HA HG]] He Ht Hb Hgb.
  pose proof (in_store_lookup _ _ _ _ _ HF He) as [(Hr&_)|(_&Hea&Heb)]; [congruence|].
  pose proof (lookup_lt_Some _ _ _ Hb) as Hib.
  assert (Hgm : geo_mono (vecTaxiNodesA apt) (vecTaxiNodesA (split_mid apt eIdx insNode e b))).
  { split; [simpl; rewrite !length_insert; lia|]. intros k _ Hk. rewrite split_mid_geo; auto. }
  assert (Hga : HasGeoCoords (GetA apt e) = true).
  { unfold GetA. rewrite Ht. simpl. apply (Forall_lookup_1 _ _ _ _ HG He Ht). }
  split; [split|split].
  - simpl. rewrite !length_insert. apply Forall_insert; [exact HF|].
    unfold SetEndNode. apply Normalize_in_store. right. simpl. auto.
  - exists m. split; [exact Hm|]. simpl. rewrite filter_insert_nonrwy; [exact Hp| |].
    + rewrite (list_lookup_total_correct _ _ _ He). unfold is_rwy. rewrite Ht. reflexivity.
    + unfold SetEndNode. rewrite Normalize_is_rwy. unfold is_rwy. simpl. rewrite Ht. reflexivity.
  - simpl. apply Forall_insert; [exact HA|]. unfold SetEndNode.
    destruct (CA_geo _ _ Hga Hgb) as (z & Hz & Hr). eapply Normalize_angle_ok; [exact Hz|exact Hr].
  - apply Forall_insert.
    + eapply geo_ends_mono; [exact HF|exact HG|]. simpl in Hgm. exact Hgm.
    + unfold SetEndNode. apply Normalize_geo_ends. intros _. simpl.
      split; [apply Hgm; [lia|exact (proj1 (Forall_lookup_1 _ _ _ _ HG He Ht))]|].
      apply Hgm; [lia|]. rewrite (list_lookup_total_correct _ _ _ Hb). exact Hgb.
Qed.

Lemma SplitEdge_inv4 apt eIdx insNode e apt' :
  Inv4 apt -> vecTaxiEdges apt !! eIdx = Some e -> etype e = TAXI_WAY ->
  HasGeoCoords (vecTaxiNodesA apt !!! insNode) = true ->
  SplitEdge CoordAngle DistLatLon apt eIdx insNode = Some apt' -> Inv4 apt'.
Proof.
  intros HI He Ht Hg H. destruct (SplitEdge_cases _ _ _ _ H) as (e0 & He0 & [->|(b & r & Hb & Hadd)]);
    [exact HI|].
  rewrite He in He0. injection He0 as <-.
  eapply AddTaxiEdge_inv4; [|exact Hadd]. apply split_mid_inv4; auto.
  rewrite (list_lookup_total_correct _ _ _ Hb) in Hg. exact Hg.
Qed.

Lemma geo_at la lo : isnan la = false -> isnan lo = false -> HasGeoCoords (TaxiNode_at la lo) = true.
Proof. intros H1 H2. unfold HasGeoCoords. simpl. rewrite H1, H2. reflexivity. Qed.

Lemma Inv4_nodes apt ns' :
  Inv4 apt -> geo_mono (vecTaxiNodesA apt) ns' -> Inv4 (set_nodes apt ns').
Proof.
  intros [[HF (m & Hm & Hp)] [HA HG]] Hg. pose proof Hg as [Hl _].
  split; [split|split]; simpl.
  - eapply in_store_mono; [exact HF|lia|exact Hl].
  - exists m. split; [exact Hm|exact Hp].
  - exact HA.
  - eapply geo_ends_mono; eauto.
Qed.

Lemma AddTaxiNode_inv4 apt la lo d apt' i :
  Inv4 apt -> AddTaxiNode latDiff lonDiff apt la lo d = Some (apt', i) -> Inv4 apt'.
Proof.
  intros HI. unfold AddTaxiNode. destruct (GetSimilarTaxiNode _ _ _ _ _ _) as [[j|]|]; intros H;
    inversion H; subst; [exact HI|].
  destruct (Inv4_nodes apt (vecTaxiNodesA apt ++ [TaxiNode_at la lo]) HI (geo_mono_app _ _))
    as [[HF HR] HAG]. split; [split|]; auto.
Qed.

Lemma AddTaxiNodeFixed_inv4 apt la lo idx :
  isnan la = false -> isnan lo = false -> Inv4 apt -> Inv4 (AddTaxiNodeFixed apt la lo idx).
Proof.
  intros H1 H2 HI. pose proof (geo_at la lo H1 H2) as Hx.
  destruct (Inv4_nodes apt (vecTaxiNodesA (AddTaxiNodeFixed apt la lo idx)) HI) as [[HF HR] HAG].
  - unfold AddTaxiNodeFixed. simpl. destruct (Nat.eqb idx _); [apply geo_mono_app|].
    destruct (Nat.ltb _ idx).
    + eapply geo_mono_trans; [apply geo_mono_app|]. apply geo_mono_insert. auto.
    + apply geo_mono_insert. auto.
  - split; [split|]; auto.
Qed.

Lemma AddRwyEnds_inv4 apt lat1 lon1 d1 id1 lat2 lon2 d2 id2 :
  isnan lat1 = false -> isnan lon1 = false -> isnan lat2 = false -> isnan lon2 = false ->
  Inv4 apt -> Inv4 (AddRwyEnds CoordAngle RwyTouchDown apt lat1 lon1 d1 id1 lat2 lon2 d2 id2).
Proof.
  intros H1 H2 H3 H4 [HI [HA HG]]. split; [apply AddRwyEnds_inv10; exact HI|].
  destruct (HCA lat1 lon1 lat2 lon2 H1 H2 H3 H4) as (z & Hz & Hr).
  unfold AddRwyEnds. destruct (RwyTouchDown _ _ _ _ _ _) as [[[[la1 lo1] la2] lo2] rd]. simpl.
  split; apply Forall_app; (split; [assumption|]); apply Forall_cons; (split; [|constructor]).
  - eapply Normalize_angle_ok; [|exact Hr]. exact Hz.
  - apply Normalize_geo_ends. intros Ht. discriminate.
Qed.

Lemma SortTaxiEdges_inv4 apt : Inv4 apt -> Inv4 (SortTaxiEdges apt).
Proof.
  unfold Inv4. intros [HI HAG]. split; [apply SortTaxiEdges_inv10; exact HI|].
  destruct (SortTaxiEdges_fields apt) as (-> & _ & ->). exact HAG.
Qed.

Lemma JoinOpenTaxiEdge_inv4 apt i joinIdx bStartA la lo apt' :
  isnan la = false -> isnan lo = false -> Inv4 apt ->
  JoinOpenTaxiEdge CoordAngle DistLatLon apt i joinIdx bStartA la lo = Some apt' -> Inv4 apt'.
Proof.
  intros Hla Hlo HI H. pose proof H as H'. revert H. unfold JoinOpenTaxiEdge.
  destruct (vecTaxiNodesA apt !! i) as [n|] eqn:Hn; [|discriminate].
  destruct (vecEdges n) as [|eIdx [|]] eqn:Hen; try discriminate.
  destruct (vecTaxiEdges apt !! eIdx) as [e|] eqn:He; [|discriminate].
  destruct (vecTaxiEdges apt !! joinIdx) as [je|] eqn:Hje; [|discriminate].
  destruct (nodeTy_eqb (etype e) RUN_WAY) eqn:Her; [discriminate|].
  destruct (Nat.eqb joinIdx eIdx) eqn:Hji; [discriminate|]. simpl.
  apply nodeTy_eqb_false in Her. apply Nat.eqb_neq in Hji.
  destruct (nodeTy_eqb (etype je) RUN_WAY) eqn:Hjr.
  - destruct (vecRwyEndPts apt !! _) as [ep|]; [|discriminate].
    intros H. injection H as <-. destruct HI as [HI10 HAG]. split; [|exact HAG].
    eapply JoinOpenTaxiEdge_inv10; [exact HI10|exact H'].
  - apply nodeTy_eqb_false in Hjr.
    destruct (SplitEdge _ _ _ joinIdx i) as [a2|] eqn:Hs; [|discriminate].
    intros H. injection H as <-. apply SortTaxiEdges_inv4.
    set (apt0 := set_nodes apt (<[i := set_pos n la lo]> (vecTaxiNodesA apt))) in Hs.
    assert (Hg0 : geo_mono (vecTaxiNodesA apt) (vecTaxiNodesA apt0)).
    { apply geo_mono_insert. intros _. unfold HasGeoCoords. simpl. rewrite Hla, Hlo. reflexivity. }
    assert (HI0 : Inv4 apt0) by (apply Inv4_nodes; assumption).
    destruct HI0 as [[HF (m & Hm & Hp)] [HA HG]].
    assert (He0 : vecTaxiEdges apt0 !! eIdx = Some e) by exact He.
    pose proof (in_store_lookup _ _ _ _ _ HF He0) as Hes.
    pose proof (not_rwy_taxi _ _ _ Hes Her) as Het.
    pose proof (in_store_lookup _ _ _ _ _ HF Hje) as Hjs.
    destruct (Forall_lookup_1 _ _ _ _ HG He0 Het) as [Hga Hgb].
    eapply SplitEdge_inv4; [| |apply (not_rwy_taxi _ _ _ Hjs Hjr)| |exact Hs].
    + split; [split|split].
      * simpl. apply Forall_insert; [exact HF|]. apply RecalcTaxiEdge_in_store. exact Hes.
      * exists m. split; [exact Hm|]. simpl. rewrite filter_insert_nonrwy; [exact Hp| |].
        -- rewrite (list_lookup_total_correct _ _ _ He). apply is_rwy_false. exact Her.
        -- apply is_rwy_false. rewrite RecalcTaxiEdge_etype. exact Her.
      * simpl. apply Forall_insert; [exact HA|]. unfold RecalcTaxiEdge.
        assert (HgA : HasGeoCoords (GetA apt0 e) = true) by (unfold GetA; rewrite Het; exact Hga).
        assert (HgB : HasGeoCoords (GetB apt0 e) = true) by (unfold GetB; rewrite Het; exact Hgb).
        destruct (CA_geo _ _ HgA HgB) as (z & Hz & Hr). eapply Normalize_angle_ok; [exact Hz|exact Hr].
      * simpl. apply Forall_insert; [exact HG|]. apply Normalize_geo_ends. intros _. simpl. auto.
    + simpl. rewrite list_lookup_insert_ne by congruence. exact Hje.
    + simpl. rewrite list_lookup_total_insert_eq by (apply lookup_lt_Some in Hn; exact Hn).
      unfold HasGeoCoords. simpl. rewrite Hla, Hlo. reflexivity.
Qed.

Lemma exec_op_inv4 apt op apt' :
  op_coords_ok op = true -> Inv4 apt ->
  exec_op CoordAngle DistLatLon latDiff lonDiff RwyTouchDown apt op = Some apt' -> Inv4 apt'.
Proof.
  intros Hok HI. destruct op; simpl in *.
  - destruct (AddTaxiNode _ _ _ _ _ _) as [[a i]|] eqn:H; [|discriminate].
    intros Hs. injection Hs as <-. eapply AddTaxiNode_inv4; eauto.
  - intros Hs. injection Hs as <-. apply andb_prop in Hok as [H1 H2].
    apply negb_true_iff in H1, H2. apply AddTaxiNodeFixed_inv4; auto.
  - destruct (AddTaxiEdge _ _ _ _ _ _) as [[a r]|] eqn:H; [|discriminate].
    intros Hs. injection Hs as <-. eapply AddTaxiEdge_inv4; eauto.
  - intros Hs. injection Hs as <-. repeat rewrite andb_true_iff in Hok.
    destruct Hok as [[[H1 H2] H3] H4]. apply negb_true_iff in H1, H2, H3, H4.
    apply AddRwyEnds_inv4; auto.
  - intros Hs. injection Hs as <-. apply SortTaxiEdges_inv4. exact HI.
  - apply andb_prop in Hok as [H1 H2]. apply negb_true_iff in H1, H2.
    apply JoinOpenTaxiEdge_inv4; auto.
Qed.

Lemma run_inv4 ops apt apt' :
  forallb op_coords_ok ops = true -> Inv4 apt ->
  run CoordAngle DistLatLon latDiff lonDiff RwyTouchDown apt ops = Some apt' -> Inv4 apt'.
Proof.
  revert apt. induction ops as [|op ops IH]; intros apt Hok HI; simpl in *.
  - intros H. injection H as <-. exact HI.
  - apply andb_prop in Hok as [Hop Hops].
    destruct (exec_op _ _ _ _ _ apt op) as [a|] eqn:H; [|discriminate].
    apply IH; [exact Hops|]. eapply exec_op_inv4; eauto.
Qed.

End Angles.

(** C4: [Normalize] (used by the [TaxiEdge] constructor, [SetEndNode] and
    [RecalcTaxiEdge]) maps an angle in [0, 360) to one in [0, 180),
    swapping the two node indices exactly when it subtracts 180; and in
    every airport built by a sequence of the building operations, every
    edge's stored angle is a number in [0, 180).  Assumptions: [CoordAngle]
    of four numbers is a bearing in [0, 360) (the geometry library's
    contract), and the coordinates given to [AddTaxiNodeFixed],
    [AddRwyEnds] and the join pass are numbers. *)
Theorem build_edge_angles
    (CoordAngle DistLatLon : dbl -> dbl -> dbl -> dbl -> dbl) (latDiff : dbl) (lonDiff : dbl -> dbl)
    (RwyTouchDown : dbl -> dbl -> dbl -> dbl -> dbl -> dbl -> dbl * dbl * dbl * dbl * dbl)
    (HCA : forall a b c d, isnan a = false -> isnan b = false -> isnan c = false ->
       isnan d = false -> exists z, CoordAngle a b c d = Fin z /\ 0 <= z < 360)
    (i : string) (ops : list BuildOp) (apt : Apt) :
  forallb op_coords_ok ops = true ->
  run CoordAngle DistLatLon latDiff lonDiff RwyTouchDown (Apt_new i) ops = Some apt ->
  (forall e z, angle e = Fin z -> 0 <= z < 360 ->
     exists z', angle (Normalize e) = Fin z' /\ 0 <= z' < 180 /\
       (if 180 <=? z then ea (Normalize e) = eb e /\ eb (Normalize e) = ea e /\ z' = z - 180
        else Normalize e = e)) /\
  Forall (fun e => exists z, angle e = Fin z /\ 0 <= z < 180) (vecTaxiEdges apt).
Proof.
  intros Hok H. split.
  - intros e z Ha Hz. unfold Normalize. rewrite Ha. simpl.
    destruct (180 <=? z) eqn:Hc; simpl.
    + apply Z.leb_le in Hc. exists (z + - 180). repeat split; lia.
    + apply Z.leb_gt in Hc. exists z. repeat split; auto; lia.
  - assert (HI : Inv4 (Apt_new i)).
    { split; [apply Apt_new_inv10|split; constructor]. }
    destruct (run_inv4 _ _ _ _ _ HCA _ _ _ Hok HI H) as [_ [HA _]]. exact HA.
Qed.

(** Witness for C4 *)
Lemma build_edge_angles_witness :
  forallb (op_coords_ok) sample_ops = true /\
  run sampleAngle sampleDist (Fin 1) (fun _ => Fin 1) sampleTD (Apt_new "TEST") sample_ops =
    Some (default (Apt_new "") (run sampleAngle sampleDist (Fin 1) (fun _ => Fin 1) sampleTD (Apt_new "TEST") sample_ops)) /\
  ((forall e z, angle e = Fin z -> 0 <= z < 360 ->
     exists z', angle (Normalize e) = Fin z' /\ 0 <= z' < 180 /\
       (if 180 <=? z then ea (Normalize e) = eb e /\ eb (Normalize e) = ea e /\ z' = z - 180
        else Normalize e = e)) /\
   Forall (fun e => exists z, angle e = Fin z /\ 0 <= z < 180)
     (vecTaxiEdges (default (Apt_new "") (run sampleAngle sampleDist (Fin 1) (fun _ => Fin 1) sampleTD (Apt_new "TEST") sample_ops)))).
Proof.
  split; [vm_compute; reflexivity|]. split; [vm_compute; reflexivity|].
  refine (build_edge_angles sampleAngle sampleDist (Fin 1) (fun _ => Fin 1) sampleTD _ "TEST" sample_ops _ _ _).
  - intros a b c d _ _ _ _. unfold sampleAngle.
    destruct a, b, c, d; try (exists 0; split; [reflexivity|lia]).
    destruct ((z =? z1) && (z0 <? z2)); [exists 90; split; [reflexivity|lia]|].
    destruct (z =? z1); [exists 270|exists 0]; split; [reflexivity|lia| reflexivity|lia].
  - vm_compute. reflexivity.
  - vm_compute. reflexivity.
Defined.

(** C10: in every airport built by a sequence of the building operations
    (any geometry helpers, any choices of [FindClosestEdge] in the join
    pass), every edge is either a [RUN_WAY] edge whose endpoint indices are
    valid runway endpoints, or a [TAXI_WAY] edge whose endpoint indices are
    valid taxi nodes, so [GetA]/[GetB] read the right store; and the runway
    edges, in order, connect the runway endpoints [(0,1), (2,3), ...]:
    exactly one per [AddRwyEnds], which appends the two endpoints it
    connects, and no other operation creates one. *)
Theorem build_edge_stores
    (CoordAngle DistLatLon : dbl -> dbl -> dbl -> dbl -> dbl) (latDiff : dbl) (lonDiff : dbl -> dbl)
    (RwyTouchDown : dbl -> dbl -> dbl -> dbl -> dbl -> dbl -> dbl * dbl * dbl * dbl * dbl)
    (i : string) (ops : list BuildOp) (apt : Apt) :
  run CoordAngle DistLatLon latDiff lonDiff RwyTouchDown (Apt_new i) ops = Some apt ->
  Forall (edge_in_store apt) (vecTaxiEdges apt) /\
  exists m, length (vecRwyEndPts apt) = (2 * m)%nat /\
    map rwy_ends (List.filter is_rwy (vecTaxiEdges apt)) = rwy_pairs m.
Proof.
  intros H. destruct (run_inv10 _ _ _ _ _ _ _ _ (Apt_new_inv10 i) H) as [HF Hm].
  split; [|exact Hm]. exact HF.
Qed.

(** Witness for C10 *)
Lemma build_edge_stores_witness :
  Forall (edge_in_store (default (Apt_new "") (run sampleAngle sampleDist (Fin 1) (fun _ => Fin 1) sampleTD (Apt_new "TEST") sample_ops)))
    (vecTaxiEdges (default (Apt_new "") (run sampleAngle sampleDist (Fin 1) (fun _ => Fin 1) sampleTD (Apt_new "TEST") sample_ops))) /\
  exists m, length (vecRwyEndPts (default (Apt_new "") (run sampleAngle sampleDist (Fin 1) (fun _ => Fin 1) sampleTD (Apt_new "TEST") sample_ops))) = (2 * m)%nat /\
    map rwy_ends (List.filter is_rwy (vecTaxiEdges (default (Apt_new "") (run sampleAngle sampleDist (Fin 1) (fun _ => Fin 1) sampleTD (Apt_new "TEST") sample_ops)))) = rwy_pairs m.
Proof.
  apply (build_edge_stores sampleAngle sampleDist (Fin 1) (fun _ => Fin 1) sampleTD "TEST" sample_ops).
  vm_compute. reflexivity.
Defined.

(** The node store after [AddTaxiEdge] registered [e] on [n1], then on [n2]. *)
Lemma push2_lookup (ns : list TaxiNode) (n1 n2 e k : nat) :
  (n1 < length ns)%nat -> (n2 < length ns)%nat ->
  let ns1 := <[n1 := push_edge (ns !!! n1) e]> ns in
  let ns2 := <[n2 := push_edge (ns1 !!! n2) e]> ns1 in
  lat (ns2 !!! k) = lat (ns !!! k) /\ lon (ns2 !!! k) = lon (ns !!! k) /\
  vecEdges (ns2 !!! k) =
    vecEdges (ns !!! k) ++ (if Nat.eqb k n1 then [e] else []) ++ (if Nat.eqb k n2 then [e] else []).
Proof.
  intros H1 H2 ns1 ns2. subst ns1 ns2.
  assert (Hl : (n2 < length (<[n1 := push_edge (ns !!! n1) e]> ns))%nat) by (rewrite length_insert; lia).
  destruct (Nat.eq_dec k n2) as [->|Hk2].
  - rewrite list_lookup_total_insert_eq by exact Hl. rewrite Nat.eqb_refl. simpl.
    destruct (Nat.eq_dec n2 n1) as [->|Hk1].
    + rewrite list_lookup_total_insert_eq by exact H1. rewrite Nat.eqb_refl. simpl.
      rewrite <- app_assoc. auto.
    + rewrite list_lookup_total_insert_ne by congruence.
      apply Nat.eqb_neq in Hk1. rewrite Hk1. auto.
  - rewrite list_lookup_total_insert_ne by congruence.
    apply Nat.eqb_neq in Hk2 as Hk2'. rewrite Hk2'.
    destruct (Nat.eq_dec k n1) as [->|Hk1].
    + rewrite list_lookup_total_insert_eq by exact H1. rewrite Nat.eqb_refl. simpl.
      auto.
    + rewrite list_lookup_total_insert_ne by congruence.
      apply Nat.eqb_neq in Hk1. rewrite Hk1. simpl. rewrite app_nil_r. auto.
Qed.

(** The whole node after the two registrations: only [vecEdges] changes. *)
Lemma push2_node (ns : list TaxiNode) (n1 n2 e k : nat) :
  (n1 < length ns)%nat -> (n2 < length ns)%nat -> (k < length ns)%nat ->
  let ns1 := <[n1 := push_edge (ns !!! n1) e]> ns in
  let ns2 := <[n2 := push_edge (ns1 !!! n2) e]> ns1 in
  ns2 !!! k = set_edges (ns !!! k)
    (vecEdges (ns !!! k) ++ (if Nat.eqb k n1 then [e] else []) ++ (if Nat.eqb k n2 then [e] else [])).
Proof.
  intros H1 H2 Hk ns1 ns2. subst ns1 ns2.
  assert (Hl : (n2 < length (<[n1 := push_edge (ns !!! n1) e]> ns))%nat) by (rewrite length_insert; lia).
  unfold push_edge, set_edges.
  destruct (Nat.eq_dec k n2) as [->|Hk2].
  - rewrite list_lookup_total_insert_eq by exact Hl. rewrite Nat.eqb_refl.
    destruct (Nat.eq_dec n2 n1) as [->|Hk1].
    + rewrite list_lookup_total_insert_eq by exact H1. rewrite Nat.eqb_refl. simpl.
      rewrite <- app_assoc. reflexivity.
    + rewrite list_lookup_total_insert_ne by congruence.
      apply Nat.eqb_neq in Hk1. rewrite Hk1. reflexivity.
  - rewrite list_lookup_total_insert_ne by congruence.
    apply Nat.eqb_neq in Hk2 as Hk2'. rewrite Hk2'.
    destruct (Nat.eq_dec k n1) as [->|Hk1].
    + rewrite list_lookup_total_insert_eq by exact H1. rewrite Nat.eqb_refl. simpl.
      rewrite ?app_nil_r. reflexivity.
    + rewrite list_lookup_total_insert_ne by congruence.
      apply Nat.eqb_neq in Hk1. rewrite Hk1. simpl. rewrite ?app_nil_r.
      destruct (ns !!! k); reflexivity.
Qed.

(** C9 (counterexample): a node index out of range is not answered by the
    failure sentinel: [vecTaxiNodes.at(n1)] throws [std::out_of_range]
    ([None]) before the coordinates are looked at.  Here in an empty
    airport. *)
Lemma AddTaxiEdge_out_of_range_throws :
  AddTaxiEdge sampleAngle sampleDist (Apt_new "X") 0 0 NaN = None.
Proof. reflexivity. Qed.

(** C9 (amended): if a node index is out of range, [AddTaxiEdge] throws
    ([None]).  For two valid node indices it returns the failure sentinel
    ([Some (apt, None)]: airport unchanged, no edge added) exactly when one
    of the two nodes lacks coordinates; otherwise it returns the new edge's
    index [length vecTaxiEdges], appends [TaxiEdge (TAXI_WAY, n1, n2,
    CoordAngle a b, dist)] (normalised), [dist] being [DistLatLon a b] when
    not supplied, registers the index on both nodes (twice on the node if
    [n1 = n2]), and changes nothing else: the id, bounds, altitude, runway
    endpoints and heading index of the airport, and every other field of
    every node, stay as they were. *)
Theorem AddTaxiEdge_spec
    (CoordAngle DistLatLon : dbl -> dbl -> dbl -> dbl -> dbl) (apt : Apt) (n1 n2 : nat) (d : dbl) :
  ((length (vecTaxiNodesA apt) <= n1)%nat \/ (length (vecTaxiNodesA apt) <= n2)%nat ->
     AddTaxiEdge CoordAngle DistLatLon apt n1 n2 d = None) /\
  ((n1 < length (vecTaxiNodesA apt))%nat -> (n2 < length (vecTaxiNodesA apt))%nat ->
   let a := vecTaxiNodesA apt !!! n1 in
   let b := vecTaxiNodesA apt !!! n2 in
   let eIdx := length (vecTaxiEdges apt) in
   if negb (HasGeoCoords a) || negb (HasGeoCoords b)
   then AddTaxiEdge CoordAngle DistLatLon apt n1 n2 d = Some (apt, None)
   else exists apt',
     AddTaxiEdge CoordAngle DistLatLon apt n1 n2 d = Some (apt', Some eIdx) /\
     vecTaxiEdges apt' = vecTaxiEdges apt ++
       [Normalize (mkTaxiEdge TAXI_WAY n1 n2 (CoordAngle (lat a) (lon a) (lat b) (lon b))
          (if isnan d then DistLatLon (lat a) (lon a) (lat b) (lon b) else d))] /\
     aid apt' = aid apt /\ bounds apt' = bounds apt /\ aalt_m apt' = aalt_m apt /\
     vecRwyEndPts apt' = vecRwyEndPts apt /\ vecTaxiEdgesIdxHead apt' = vecTaxiEdgesIdxHead apt /\
     length (vecTaxiNodesA apt') = length (vecTaxiNodesA apt) /\
     (forall k, (k < length (vecTaxiNodesA apt))%nat ->
        vecTaxiNodesA apt' !!! k =
        set_edges (vecTaxiNodesA apt !!! k)
          (vecEdges (vecTaxiNodesA apt !!! k) ++
           (if Nat.eqb k n1 then [eIdx] else []) ++ (if Nat.eqb k n2 then [eIdx] else []))) /\
     forall k, lat (vecTaxiNodesA apt' !!! k) = lat (vecTaxiNodesA apt !!! k) /\
       lon (vecTaxiNodesA apt' !!! k) = lon (vecTaxiNodesA apt !!! k) /\
       vecEdges (vecTaxiNodesA apt' !!! k) = vecEdges (vecTaxiNodesA apt !!! k) ++
         (if Nat.eqb k n1 then [eIdx] else []) ++ (if Nat.eqb k n2 then [eIdx] else [])).
Proof.
  split.
  - intros Hr. unfold AddTaxiEdge.
    destruct Hr as [Hr|Hr]; [rewrite (lookup_ge_None_2 _ _ Hr); reflexivity|].
    rewrite (lookup_ge_None_2 _ _ Hr). destruct (_ !! n1); reflexivity.
  - intros H1 H2 a b eIdx. unfold AddTaxiEdge.
    destruct (lookup_lt_is_Some_2 _ _ H1) as [x Hx].
    destruct (lookup_lt_is_Some_2 _ _ H2) as [y Hy].
    rewrite Hx, Hy.
    assert (Ha : a = x) by (subst a; apply list_lookup_total_correct; exact Hx).
    assert (Hb : b = y) by (subst b; apply list_lookup_total_correct; exact Hy).
    rewrite <- Ha, <- Hb. destruct (negb (HasGeoCoords a) || negb (HasGeoCoords b)); [reflexivity|].
    eexists. split; [reflexivity|]. simpl.
    split; [reflexivity|]. do 5 (split; [reflexivity|]).
    split; [rewrite !length_insert; reflexivity|].
    split; [intros k Hk; apply push2_node; assumption|].
    intros k. apply push2_lookup; assumption.
Qed.

Lemma find_similar_app latDiff lonDiff (ns : list TaxiNode) x i nt la lo :
  find_similar latDiff lonDiff (ns ++ [x]) i nt la lo =
  match find_similar latDiff lonDiff ns i nt la lo with
  | Some j => Some j
  | None => if negb (bool_decide (nt = Some (i + length ns)%nat)) && similar latDiff lonDiff la lo x
            then Some (i + length ns)%nat else None
  end.
Proof.
  revert i. induction ns as [|n ns IH]; intros i; simpl.
  - rewrite Nat.add_0_r. destruct (_ && _); reflexivity.
  - destruct (_ && _); [reflexivity|]. rewrite IH. replace (S i + length ns)%nat with (i + S (length ns))%nat by lia.
    reflexivity.
Qed.

Lemma similar_self latDiff lonDiff a b ld od :
  latDiff = Fin ld -> lonDiff (Fin a) = Fin od -> 0 <= ld -> 0 <= od ->
  similar latDiff lonDiff (Fin a) (Fin b) (TaxiNode_at (Fin a) (Fin b)) = true.
Proof.
  intros H1 H2 H3 H4. unfold similar. rewrite H1, H2. simpl.
  rewrite !Z.add_opp_diag_r. simpl. apply andb_true_intro. split; apply Z.leb_le; lia.
Qed.

(** C6 (counterexample): with nodes merged within 1 unit, an airport with
    a node at (0, 0) receives [AddTaxiNode (2, 0)], which appends node 1;
    a second call with coordinates within the threshold of the first,
    (1, 0), returns node 0, not 1: [find_if] returns the first node near
    the new coordinates, not the node the first call returned. *)
Lemma AddTaxiNode_near_not_same :
  exists apt1,
    AddTaxiNode (Fin 1) (fun _ => Fin 1) (set_nodes (Apt_new "X") [TaxiNode_at (Fin 0) (Fin 0)])
      (Fin 2) (Fin 0) None = Some (apt1, 1%nat) /\
    dle (dabs (dsub (Fin 1) (Fin 2))) (Fin 1) = true /\
    AddTaxiNode (Fin 1) (fun _ => Fin 1) apt1 (Fin 1) (Fin 0) None = Some (apt1, 0%nat).
Proof. eexists. split; [reflexivity|]. split; reflexivity. Qed.

(** C6 (amended): for numeric coordinates and non-negative thresholds, a
    second [AddTaxiNode] with the same coordinates (and the same
    [dontCombineWith]) returns the same index as the first and leaves the
    airport unchanged; the first call either returned an existing node
    (then nothing changed) or appended one, which the second call finds. *)
Theorem AddTaxiNode_same_coords_idempotent
    (latDiff : dbl) (lonDiff : dbl -> dbl) (apt apt1 : Apt) (a b ld od : Z) (d : option nat) (i : nat) :
  latDiff = Fin ld -> lonDiff (Fin a) = Fin od -> 0 <= ld -> 0 <= od ->
  AddTaxiNode latDiff lonDiff apt (Fin a) (Fin b) d = Some (apt1, i) ->
  AddTaxiNode latDiff lonDiff apt1 (Fin a) (Fin b) d = Some (apt1, i).
Proof.
  intros H1 H2 H3 H4. unfold AddTaxiNode.
  destruct (GetSimilarTaxiNode _ _ (vecTaxiNodesA apt) _ _ d) as [[j|]|] eqn:Hg; intros H;
    [injection H as <- <-; rewrite Hg; reflexivity|injection H as <- <-|discriminate]. simpl.
  pose proof (similar_self latDiff lonDiff a b ld od H1 H2 H3 H4) as Hs.
  unfold GetSimilarTaxiNode in *. destruct d as [dd|].
  - destruct (Nat.ltb dd (length (vecTaxiNodesA apt))) eqn:Hd; [|discriminate].
    injection Hg as Hg. apply Nat.ltb_lt in Hd.
    rewrite length_app. simpl. replace (Nat.ltb dd _) with true by (symmetry; apply Nat.ltb_lt; lia).
    rewrite find_similar_app, Hg, Hs. simpl. rewrite bool_decide_false by (intros Hc; injection Hc; lia).
    reflexivity.
  - injection Hg as Hg. rewrite find_similar_app, Hg, Hs. reflexivity.
Qed.

(** Witness for C6 *)
Lemma AddTaxiNode_same_coords_idempotent_witness :
  AddTaxiNode (Fin 1) (fun _ => Fin 1) (Apt_new "X") (Fin 0) (Fin 0) None =
    Some (mkApt "X" (Some (Fin 0, Fin 0, Fin 0, Fin 0)) NaN [TaxiNode_at (Fin 0) (Fin 0)] [] [] [], 0%nat) /\
  AddTaxiNode (Fin 1) (fun _ => Fin 1) (mkApt "X" (Some (Fin 0, Fin 0, Fin 0, Fin 0)) NaN [TaxiNode_at (Fin 0) (Fin 0)] [] [] [])
    (Fin 0) (Fin 0) None = Some (mkApt "X" (Some (Fin 0, Fin 0, Fin 0, Fin 0)) NaN [TaxiNode_at (Fin 0) (Fin 0)] [] [] [], 0%nat).
Proof.
  split; [vm_compute; reflexivity|].
  apply (AddTaxiNode_same_coords_idempotent (Fin 1) (fun _ => Fin 1) (Apt_new "X") _ 0 0 1 1 None 0);
    [reflexivity|reflexivity|lia|lia|vm_compute; reflexivity].
Defined.

End BuildProofs.

Module SnapProofs.
Import Snap.

(** C8 (counterexample): a position in the landing phase (70) that
    [FindClosestEdge] places on the runway edge of [rwyApt] is moved to the
    base point and gets the edge's index, and [SnapToTaxiway] returns
    [true]; its flight phase stays 70: nothing marks it as on a runway
    ("we don't mark positions on a runway yet").  The code does return
    without inserting any path. *)
Lemma SnapToTaxiway_rwy_not_marked :
  SnapToTaxiway 0 10 (fun _ _ => Some (0%nat, Fin 0, Fin 50)) (fun _ dq it _ => (dq ++ dq, it))
    rwyApt [mkPos (Fin 1) (Fin 50) (Fin 0) (Fin 90) 7 70] 0 =
  (true, [mkPos (Fin 0) (Fin 50) (Fin 0) (Fin 90) 0 70], 0%nat).
Proof. reflexivity. Qed.

(** C8 (amended): when [FindClosestEdge] resolves the position at
    [posIter] to a runway edge [eIdx] with base point [(bla, blo)],
    [SnapToTaxiway] returns [true] after setting that position's
    coordinates to the base point and its [edgeIdx] to [eIdx]; its flight
    phase and every other position of the deque are unchanged, no position
    is inserted and the iterator stays.  Only a taxiway match (or a match of
    any non-runway edge) reaches the path insertion. *)
Theorem SnapToTaxiway_runway EDGE_UNAVAIL FPH_TAXI FindClosestEdge InsertTaxiPath
    (apt : Apt) (posDeque : list positionTy) (posIter eIdx : nat) (bla blo : dbl) :
  (posIter < length posDeque)%nat ->
  FindClosestEdge apt (posDeque !!! posIter) = Some (eIdx, bla, blo) ->
  etype (vecTaxiEdges apt !!! eIdx) = RUN_WAY ->
  exists posDeque',
    SnapToTaxiway EDGE_UNAVAIL FPH_TAXI FindClosestEdge InsertTaxiPath apt posDeque posIter =
      (true, posDeque', posIter) /\
    length posDeque' = length posDeque /\
    plat (posDeque' !!! posIter) = bla /\ plon (posDeque' !!! posIter) = blo /\
    edgeIdx (posDeque' !!! posIter) = eIdx /\
    flightPhase (posDeque' !!! posIter) = flightPhase (posDeque !!! posIter) /\
    pts (posDeque' !!! posIter) = pts (posDeque !!! posIter) /\
    pheading (posDeque' !!! posIter) = pheading (posDeque !!! posIter) /\
    (forall k, k <> posIter -> posDeque' !!! k = posDeque !!! k).
Proof.
  intros Hi Hf Ht. unfold SnapToTaxiway. rewrite Hf, Ht. simpl.
  eexists. split; [reflexivity|].
  rewrite length_insert, list_lookup_total_insert_eq by exact Hi.
  repeat split; try reflexivity.
  intros k Hk. apply list_lookup_total_insert_ne. congruence.
Qed.

(** Witness for C8 *)
Lemma SnapToTaxiway_runway_witness :
  (0 < length [mkPos (Fin 1) (Fin 50) (Fin 0) (Fin 90) 7 70])%nat /\
  (fun (_ : Apt) (_ : positionTy) => Some (0%nat, Fin 0, Fin 50))
    rwyApt ([mkPos (Fin 1) (Fin 50) (Fin 0) (Fin 90) 7 70] !!! 0%nat) = Some (0%nat, Fin 0, Fin 50) /\
  etype (vecTaxiEdges rwyApt !!! 0%nat) = RUN_WAY /\
  exists posDeque',
    SnapToTaxiway 0 10 (fun _ _ => Some (0%nat, Fin 0, Fin 50)) (fun _ dq it _ => (dq ++ dq, it))
      rwyApt [mkPos (Fin 1) (Fin 50) (Fin 0) (Fin 90) 7 70] 0 = (true, posDeque', 0%nat) /\
    length posDeque' = length [mkPos (Fin 1) (Fin 50) (Fin 0) (Fin 90) 7 70] /\
    plat (posDeque' !!! 0%nat) = Fin 0 /\ plon (posDeque' !!! 0%nat) = Fin 50 /\
    edgeIdx (posDeque' !!! 0%nat) = 0%nat /\
    flightPhase (posDeque' !!! 0%nat) = flightPhase ([mkPos (Fin 1) (Fin 50) (Fin 0) (Fin 90) 7 70] !!! 0%nat) /\
    pts (posDeque' !!! 0%nat) = pts ([mkPos (Fin 1) (Fin 50) (Fin 0) (Fin 90) 7 70] !!! 0%nat) /\
    pheading (posDeque' !!! 0%nat) = pheading ([mkPos (Fin 1) (Fin 50) (Fin 0) (Fin 90) 7 70] !!! 0%nat) /\
    (forall k, k <> 0%nat -> posDeque' !!! k = [mkPos (Fin 1) (Fin 50) (Fin 0) (Fin 90) 7 70] !!! k).
Proof.
  split; [simpl; lia|]. split; [reflexivity|]. split; [reflexivity|].
  apply (SnapToTaxiway_runway 0 10 (fun _ _ => Some (0%nat, Fin 0, Fin 50)) (fun _ dq it _ => (dq ++ dq, it))
    rwyApt [mkPos (Fin 1) (Fin 50) (Fin 0) (Fin 90) 7 70] 0 0 (Fin 0) (Fin 50)); [simpl; lia|reflexivity|reflexivity].
Defined.

End SnapProofs.

Module FindRwyProofs.
Import FindRwy.

Section Scan.
Variable ART_RWY_MAX_HEAD_DIFF : dbl.
Variable vsi_min vsi_max : dbl.
Variable headingDiffTo : RwyEndPt -> dbl.
Variable vsiTo : RwyEndPt -> dbl.

Local Abbreviation cand_ep := FindRwy.cand_ep.
Local Abbreviation hd := (FindRwy.hd headingDiffTo).
Local Abbreviation base_ok := (FindRwy.base_ok vsi_min vsi_max vsiTo).
Local Abbreviation pass_b := (FindRwy.pass_b vsi_min vsi_max headingDiffTo vsiTo).

Lemma Forall_conj {A} (P Q : A -> Prop) l : Forall P l -> Forall Q l -> Forall (fun x => P x /\ Q x) l.
Proof. intros HP HQ. induction HP; inversion HQ; subst; constructor; auto. Qed.

Lemma cand_step_eq st c :
  cand_step vsi_min vsi_max headingDiffTo vsiTo st c =
  if pass_b (snd st) c then (Some c, hd c) else st.
Proof.
  destruct c as [[a e] ep]. unfold cand_step, pass_b, base_ok, hd. simpl.
  destruct (isnan (alt_m ep)); simpl; [reflexivity|].
  destruct (dgt _ _); simpl; [destruct (_ || _); reflexivity|].
  destruct (_ || _); reflexivity.
Qed.

Lemma pass_fin h z c : hd c = Fin z ->
  pass_b (Fin h) c = base_ok c && (z <=? h).
Proof.
  intros Hz. unfold pass_b. rewrite Hz. unfold dgt. simpl.
  destruct (h <? z) eqn:E1, (z <=? h) eqn:E2; try reflexivity;
    apply Z.ltb_lt in E1 || apply Z.ltb_ge in E1; apply Z.leb_le in E2 || apply Z.leb_gt in E2; lia.
Qed.

Lemma scan_best cs b h :
  Forall (fun c => exists z, hd c = Fin z) cs ->
  let r := fold_left (cand_step vsi_min vsi_max headingDiffTo vsiTo) cs (b, Fin h) in
  (r = (b, Fin h) /\ Forall (fun c => pass_b (Fin h) c = false) cs) \/
  (exists l1 c l2, cs = l1 ++ c :: l2 /\ fst r = Some c /\ pass_b (Fin h) c = true /\
     Forall (fun c' => pass_b (Fin h) c' = true -> dle (hd c) (hd c') = true) (l1 ++ l2) /\
     Forall (fun c' => pass_b (Fin h) c' = true -> dlt (hd c) (hd c') = true) l2).
Proof.
  revert b h. induction cs as [|c cs IH]; intros b h HF; simpl.
  - left. split; [reflexivity|constructor].
  - inversion HF as [|? ? [zc Hzc] HF']; subst.
    rewrite cand_step_eq. simpl.
    destruct (pass_b (Fin h) c) eqn:Hp.
    + rewrite Hzc. right.
      pose proof Hp as Hp'. rewrite (pass_fin _ _ _ Hzc) in Hp'.
      apply andb_prop in Hp' as [Hb Hle]. apply Z.leb_le in Hle.
      destruct (IH (Some c) zc HF') as [[-> Hn]|(l1 & d & l2 & -> & Hr & Hpd & Hall & Hl2)].
      * exists [], c, cs. split; [reflexivity|]. split; [reflexivity|]. split; [exact Hp|].
        assert (Hgt : Forall (fun c' => pass_b (Fin h) c' = true -> zc < match hd c' with Fin z => z | _ => 0 end) cs).
        { eapply Forall_impl; [apply (Forall_conj _ _ _ Hn HF')|].
          intros c' [Hn' [z' Hz']] Hp2. rewrite Hz'.
          rewrite (pass_fin _ _ _ Hz') in Hn'. rewrite (pass_fin _ _ _ Hz') in Hp2. apply andb_prop in Hp2 as [Hb2 Hl2].
          rewrite Hb2 in Hn'. simpl in Hn'. apply Z.leb_gt in Hn'. exact Hn'. }
        simpl. split; eapply Forall_impl; try exact (Forall_conj _ _ _ Hgt HF');
          intros c' [Hg [z' Hz']] Hp2; specialize (Hg Hp2); rewrite Hz' in Hg |- *; rewrite Hzc; simpl.
        -- apply Z.leb_le. lia.
        -- apply Z.ltb_lt. lia.
      * exists (c :: l1), d, l2. split; [reflexivity|]. split; [exact Hr|].
        apply Forall_app in HF' as [HF1 HF2]. inversion HF2 as [|? ? [zd Hzd] HF3]; subst.
        assert (Hdc : zd <= zc).
        { rewrite (pass_fin _ _ _ Hzd) in Hpd. apply andb_prop in Hpd as [_ H]. apply Z.leb_le in H. exact H. }
        split.
        { rewrite (pass_fin _ _ _ Hzd). rewrite (pass_fin _ _ _ Hzd) in Hpd.
          apply andb_prop in Hpd as [Hbd _]. rewrite Hbd. simpl. apply Z.leb_le. lia. }
        assert (Hcase : forall c', (exists z, hd c' = Fin z) -> pass_b (Fin h) c' = true ->
                  pass_b (Fin zc) c' = true \/ zc < match hd c' with Fin z => z | _ => 0 end).
        { intros c' [z' Hz'] Hp2. rewrite (pass_fin _ _ _ Hz') in Hp2. rewrite (pass_fin _ _ _ Hz'). rewrite Hz'.
          apply andb_prop in Hp2 as [Hb2 _]. rewrite Hb2. simpl.
          destruct (z' <=? zc) eqn:E; [left; reflexivity|right; apply Z.leb_gt in E; exact E]. }
        split.
        -- constructor.
           ++ intros _. rewrite Hzd, Hzc. simpl. apply Z.leb_le. exact Hdc.
           ++ apply Forall_app in Hall as [Hall1 Hall2]. apply Forall_app. split.
              ** eapply Forall_impl; [apply (Forall_conj _ _ _ Hall1 HF1)|].
                 intros c' [Hi [z' Hz']] Hp2.
                 destruct (Hcase c' (ex_intro _ z' Hz') Hp2) as [Hq|Hq]; [auto|].
                 rewrite Hz' in Hq |- *. rewrite Hzd. simpl. apply Z.leb_le. lia.
              ** eapply Forall_impl; [apply (Forall_conj _ _ _ Hall2 HF3)|].
                 intros c' [Hi [z' Hz']] Hp2.
                 destruct (Hcase c' (ex_intro _ z' Hz') Hp2) as [Hq|Hq]; [auto|].
                 rewrite Hz' in Hq |- *. rewrite Hzd. simpl. apply Z.leb_le. lia.
        -- eapply Forall_impl; [apply (Forall_conj _ _ _ Hl2 HF3)|].
           intros c' [Hi [z' Hz']] Hp2.
           destruct (Hcase c' (ex_intro _ z' Hz') Hp2) as [Hq|Hq]; [auto|].
           rewrite Hz' in Hq |- *. rewrite Hzd. simpl. apply Z.ltb_lt. lia.
    + destruct (IH b h HF') as [[Hr Hn]|(l1 & d & l2 & -> & Hr & Hpd & Hall & Hl2)].
      * left. split; [exact Hr|]. constructor; assumption.
      * right. exists (c :: l1), d, l2. split; [reflexivity|]. split; [exact Hr|]. split; [exact Hpd|].
        split; [|exact Hl2]. constructor; [|exact Hall]. intros Hc. congruence.
Qed.

End Scan.

(** C7 (counterexample): two runways of one airport are both found, both
    endpoints have a known altitude, the same heading deviation 5 and an
    acceptable vertical speed; [LTAptFindRwy] selects the second one found
    (runway edge 1), not the first: a candidate is only rejected if its
    deviation is strictly greater than the best so far, so an equal one
    replaces it. *)
Lemma LTAptFindRwy_tie_last :
  candidates false (fun _ => [0; 1]%nat) [twoRwyApt] =
    [(twoRwyApt, 0%nat, vecRwyEndPts twoRwyApt !!! 0%nat);
     (twoRwyApt, 1%nat, vecRwyEndPts twoRwyApt !!! 2%nat)] /\
  alt_m (vecRwyEndPts twoRwyApt !!! 0%nat) = Fin 100 /\
  alt_m (vecRwyEndPts twoRwyApt !!! 2%nat) = Fin 100 /\
  LTAptFindRwy_best (Fin 30) (Fin (-10)) (Fin 10) (fun _ => Fin 5) (fun _ => Fin 0)
    false (fun _ => [0; 1]%nat) [twoRwyApt] =
    Some (twoRwyApt, 1%nat, vecRwyEndPts twoRwyApt !!! 2%nat).
Proof. repeat split; reflexivity. Qed.

(** C7 (amended): with numeric heading deviations and initial bound, the
    selected endpoint is one that passes the known-altitude, heading-bound
    and vertical-speed checks, whose deviation is minimal among all passing
    candidates, and strictly smaller than that of every passing candidate
    found after it: ties go to the last one found.  If none passes,
    there is no result. *)
Theorem LTAptFindRwy_last_min (ART_RWY_MAX_HEAD_DIFF vsi_min vsi_max : dbl)
    (headingDiffTo vsiTo : RwyEndPt -> dbl) (m : Z) (bHeadInverted : bool)
    (rwysFor : Apt -> list nat) (apts : list Apt) :
  ART_RWY_MAX_HEAD_DIFF = Fin m ->
  Forall (fun c => exists z, headingDiffTo (cand_ep c) = Fin z) (candidates bHeadInverted rwysFor apts) ->
  match LTAptFindRwy_best ART_RWY_MAX_HEAD_DIFF vsi_min vsi_max headingDiffTo vsiTo
          bHeadInverted rwysFor apts with
  | None => Forall (fun c => pass_b vsi_min vsi_max headingDiffTo vsiTo ART_RWY_MAX_HEAD_DIFF c = false)
              (candidates bHeadInverted rwysFor apts)
  | Some c => exists l1 l2, candidates bHeadInverted rwysFor apts = l1 ++ c :: l2 /\
      pass_b vsi_min vsi_max headingDiffTo vsiTo ART_RWY_MAX_HEAD_DIFF c = true /\
      Forall (fun c' => pass_b vsi_min vsi_max headingDiffTo vsiTo ART_RWY_MAX_HEAD_DIFF c' = true ->
                dle (headingDiffTo (cand_ep c)) (headingDiffTo (cand_ep c')) = true) (l1 ++ l2) /\
      Forall (fun c' => pass_b vsi_min vsi_max headingDiffTo vsiTo ART_RWY_MAX_HEAD_DIFF c' = true ->
                dlt (headingDiffTo (cand_ep c)) (headingDiffTo (cand_ep c')) = true) l2
  end.
Proof.
  intros -> HF. unfold LTAptFindRwy_best.
  destruct (scan_best vsi_min vsi_max headingDiffTo vsiTo _ None m HF)
    as [[-> Hn]|(l1 & c & l2 & Hc & Hr & Hp & Hall & Hl2)].
  - exact Hn.
  - rewrite Hr. exists l1, l2. auto.
Qed.

(** Witness for C7 *)
Lemma LTAptFindRwy_last_min_witness :
  Fin 30 = Fin 30 /\
  Forall (fun c => exists z, (fun _ : RwyEndPt => Fin 5) (cand_ep c) = Fin z)
    (candidates false (fun _ => [0; 1]%nat) [twoRwyApt]) /\
  match LTAptFindRwy_best (Fin 30) (Fin (-10)) (Fin 10) (fun _ => Fin 5) (fun _ => Fin 0)
          false (fun _ => [0; 1]%nat) [twoRwyApt] with
  | None => Forall (fun c => pass_b (Fin (-10)) (Fin 10) (fun _ => Fin 5) (fun _ => Fin 0) (Fin 30) c = false)
              (candidates false (fun _ => [0; 1]%nat) [twoRwyApt])
  | Some c => exists l1 l2, candidates false (fun _ => [0; 1]%nat) [twoRwyApt] = l1 ++ c :: l2 /\
      pass_b (Fin (-10)) (Fin 10) (fun _ => Fin 5) (fun _ => Fin 0) (Fin 30) c = true /\
      Forall (fun c' => pass_b (Fin (-10)) (Fin 10) (fun _ => Fin 5) (fun _ => Fin 0) (Fin 30) c' = true ->
                dle ((fun _ : RwyEndPt => Fin 5) (cand_ep c)) ((fun _ : RwyEndPt => Fin 5) (cand_ep c')) = true) (l1 ++ l2) /\
      Forall (fun c' => pass_b (Fin (-10)) (Fin 10) (fun _ => Fin 5) (fun _ => Fin 0) (Fin 30) c' = true ->
                dlt ((fun _ : RwyEndPt => Fin 5) (cand_ep c)) ((fun _ : RwyEndPt => Fin 5) (cand_ep c')) = true) l2
  end.
Proof.
  split; [reflexivity|].
  assert (HF : Forall (fun c => exists z, (fun _ : RwyEndPt => Fin 5) (cand_ep c) = Fin z)
    (candidates false (fun _ => [0; 1]%nat) [twoRwyApt])).
  { simpl. repeat constructor; exists 5; reflexivity. }
  split; [exact HF|].
  exact (LTAptFindRwy_last_min (Fin 30) (Fin (-10)) (Fin 10) (fun _ => Fin 5) (fun _ => Fin 0) 30
    false (fun _ => [0; 1]%nat) [twoRwyApt] eq_refl HF).
Defined.

End FindRwyProofs.

Module HeadingProofs.
Import Heading.

Section Query.
Variable es : list TaxiEdge.
Variable restrictType : nodeTy.

Definition angZ (i : nat) : Z := match angle (es !!! i) with Fin z => z | _ => 0 end.
Definition fin_angle (i : nat) : Prop := exists z, angle (es !!! i) = Fin z.
Definition angle_le (i j : nat) : Prop := dle (angle (es !!! i)) (angle (es !!! j)) = true.
Definition type_ok (i : nat) : bool :=
  nodeTy_eqb restrictType UNKNOWN_WAY || nodeTy_eqb restrictType (etype (es !!! i)).

Lemma fin_angZ i : fin_angle i -> angle (es !!! i) = Fin (angZ i).
Proof. intros [z Hz]. unfold angZ. rewrite Hz. reflexivity. Qed.

Lemma angle_le_Z i j : fin_angle i -> fin_angle j -> angle_le i j -> angZ i <= angZ j.
Proof.
  intros Hi Hj H. unfold angle_le in H. rewrite (fin_angZ i Hi), (fin_angZ j Hj) in H.
  simpl in H. apply Z.leb_le in H. exact H.
Qed.

Lemma sorted_cons_inv i l : StronglySorted angle_le (i :: l) ->
  StronglySorted angle_le l /\ Forall (angle_le i) l.
Proof. intros H. inversion H. auto. Qed.

Lemma lower_bound_split l x :
  Forall fin_angle l -> StronglySorted angle_le l ->
  exists pre, l = pre ++ lower_bound es l (Fin x) /\
    Forall (fun i => angZ i < x) pre /\ Forall (fun i => x <= angZ i) (lower_bound es l (Fin x)).
Proof.
  induction l as [|i l IH]; intros HF HS; simpl.
  - exists []. repeat constructor.
  - inversion HF as [|? ? Hi HF']; subst. apply sorted_cons_inv in HS as [HS Hall].
    rewrite (fin_angZ i Hi). simpl. destruct (angZ i <? x) eqn:E.
    + apply Z.ltb_lt in E. destruct (IH HF' HS) as (pre & Hpre & H1 & H2).
      exists (i :: pre). split; [simpl; rewrite <- Hpre; reflexivity|]. split; [constructor; auto|exact H2].
    + apply Z.ltb_ge in E. exists []. split; [reflexivity|]. split; [constructor|].
      constructor; [exact E|]. apply Forall_forall. intros j Hj.
      pose proof (proj1 (Forall_forall _ _) Hall j Hj) as Hle.
      pose proof (proj1 (Forall_forall _ _) HF' j Hj) as Hfj.
      pose proof (angle_le_Z i j Hi Hfj Hle). lia.
Qed.

Lemma scan_range_mem l hi i :
  Forall fin_angle l -> StronglySorted angle_le l ->
  i ∈ scan_range es restrictType l (Fin hi) <-> i ∈ l /\ angZ i <= hi /\ type_ok i = true.
Proof.
  induction l as [|j l IH]; intros HF HS; simpl.
  - split; [intros H; apply not_elem_of_nil in H; contradiction|intros [H _]; apply not_elem_of_nil in H; contradiction].
  - inversion HF as [|? ? Hj HF']; subst. apply sorted_cons_inv in HS as [HS Hall].
    rewrite (fin_angZ j Hj). simpl. destruct (angZ j <=? hi) eqn:E.
    + apply Z.leb_le in E. fold (type_ok j). destruct (type_ok j) eqn:Ht.
      * rewrite elem_of_cons, IH by assumption. rewrite elem_of_cons.
        split; [intros [->|(?&?&?)]; auto|intros [[->|?] [? ?]]; auto].
      * rewrite IH by assumption. rewrite elem_of_cons.
        split; [intros (?&?&?); auto|intros [[->|?] [? ?]]; [congruence|auto]].
    + apply Z.leb_gt in E. split; [intros H; apply not_elem_of_nil in H; contradiction|].
      intros [Hin [Hle _]]. exfalso. apply elem_of_cons in Hin as [->|Hin]; [lia|].
      pose proof (proj1 (Forall_forall _ _) Hall i Hin) as Hji.
      pose proof (proj1 (Forall_forall _ _) HF' i Hin) as Hfi.
      pose proof (angle_le_Z j i Hj Hfi Hji). lia.
Qed.

Lemma sorted_app_r l1 l2 : StronglySorted angle_le (l1 ++ l2) -> StronglySorted angle_le l2.
Proof. induction l1 as [|j l1 IH]; simpl; [auto|]. intros H. apply IH. inversion H. auto. Qed.

(** One search range [[lo, hi]] of [FindEdgesForHeading]. *)
Lemma range_query_mem idxHead lo hi i :
  Forall fin_angle idxHead -> StronglySorted angle_le idxHead ->
  i ∈ scan_range es restrictType (lower_bound es idxHead (Fin lo)) (Fin hi) <->
  i ∈ idxHead /\ lo <= angZ i <= hi /\ type_ok i = true.
Proof.
  intros HF HS. destruct (lower_bound_split idxHead lo HF HS) as (pre & Hpre & Hp & Hs).
  assert (HF2 : Forall fin_angle (lower_bound es idxHead (Fin lo))).
  { rewrite Hpre in HF. apply Forall_app in HF. tauto. }
  assert (HS2 : StronglySorted angle_le (lower_bound es idxHead (Fin lo))).
  { rewrite Hpre in HS. eapply sorted_app_r. exact HS. }
  rewrite scan_range_mem by assumption. split.
  - intros (Hin & Hle & Ht). split; [rewrite Hpre; apply elem_of_app; right; exact Hin|].
    pose proof (proj1 (Forall_forall _ _) Hs i Hin) as Hq. cbv beta in Hq. split; [lia|exact Ht].
  - intros (Hin & Hle & Ht). split; [|tauto]. rewrite Hpre in Hin. apply elem_of_app in Hin as [Hin|Hin]; [|exact Hin].
    pose proof (proj1 (Forall_forall _ _) Hp i Hin) as Hq. cbv beta in Hq. lia.
Qed.

End Query.

Lemma type_ok_iff es rt i :
  type_ok es rt i = true <-> rt = UNKNOWN_WAY \/ etype (es !!! i) = rt.
Proof.
  unfold type_ok. destruct rt, (etype (es !!! i)); simpl; split; intuition congruence.
Qed.

(** The search ranges for numeric arguments, in [Z]. *)
Definition zranges (h0 t : Z) : list (Z * Z) :=
  let h := if 180 <=? h0 then h0 - 180 else h0 in
  if (0 <=? h - t) && (h + t <? 180) then [(h - t, h + t)]
  else if h - t <? 0 then [(0, h + t); (h - t + 180, 180)]
  else [(0, h + t - 180); (h - t, 180)].

Definition in_zranges (a : Z) (rs : list (Z * Z)) : bool :=
  existsb (fun p => (fst p <=? a) && (a <=? snd p)) rs.

Lemma heading_ranges_fin h0 t :
  heading_ranges (Fin h0) (Fin t) = map (fun p => (Fin (fst p), Fin (snd p))) (zranges h0 t).
Proof.
  unfold heading_ranges, zranges. simpl. destruct (180 <=? h0); simpl;
  destruct (_ && _); simpl; [reflexivity| |reflexivity|]; destruct (_ <? 0); reflexivity.
Qed.

Lemma zranges_split h0 t : 0 <= h0 < 360 ->
  (h0 mod 180 - t < 0 \/ 180 <= h0 mod 180 + t) -> length (zranges h0 t) = 2%nat.
Proof.
  intros Hh Hs. unfold zranges.
  destruct (180 <=? h0) eqn:Eh.
  - apply Z.leb_le in Eh.
    assert (Hm : h0 mod 180 = h0 - 180) by (symmetry; apply Z.mod_unique with (q := 1); lia).
    rewrite Hm in Hs. destruct (0 <=? h0 - 180 - t) eqn:E1, (h0 - 180 + t <? 180) eqn:E2; simpl;
      rewrite ?Z.leb_le, ?Z.leb_gt, ?Z.ltb_lt, ?Z.ltb_ge in E1, E2; try lia;
      destruct (_ <? 0); reflexivity.
  - apply Z.leb_gt in Eh.
    assert (Hm : h0 mod 180 = h0) by (apply Z.mod_small; lia).
    rewrite Hm in Hs. destruct (0 <=? h0 - t) eqn:E1, (h0 + t <? 180) eqn:E2; simpl;
      rewrite ?Z.leb_le, ?Z.leb_gt, ?Z.ltb_lt, ?Z.ltb_ge in E1, E2; try lia;
      destruct (_ <? 0); reflexivity.
Qed.

Ltac zbool := repeat match goal with
  | H : (_ <=? _) = true |- _ => apply Z.leb_le in H
  | H : (_ <=? _) = false |- _ => apply Z.leb_gt in H
  | H : (_ <? _) = true |- _ => apply Z.ltb_lt in H
  | H : (_ <? _) = false |- _ => apply Z.ltb_ge in H
  end.

Ltac zcase := first [exists 0; lia | exists 1; lia | exists (-1); lia | exists (-2); lia | exists 2; lia].

(** An angle in [0, 180) is in one of the ranges iff it is within [t] of
    [h0] modulo 180. *)
Lemma zranges_mod a h0 t : 0 <= a < 180 -> 0 <= h0 < 360 -> 0 <= t ->
  in_zranges a (zranges h0 t) = true <-> exists k, Z.abs (a - h0 - 180 * k) <= t.
Proof.
  intros Ha Hh Ht. unfold in_zranges, zranges.
  destruct (180 <=? h0) eqn:Eh;
  destruct (0 <=? _ - t) eqn:E1, (_ + t <? 180) eqn:E2; simpl;
    try (destruct (_ - t <? 0) eqn:E3; simpl);
    zbool;
    rewrite ?orb_false_r, ?orb_true_iff, ?andb_true_iff, ?Z.leb_le;
    (split; [intros H; try destruct H as [H|H]; destruct H; zcase
            |intros [k Hk]; lia]).
Qed.

Lemma search_ranges_mem es idx rt lst rs x :
  (forall lo hi x, x ∈ scan_range es rt (lower_bound es idx (Fin lo)) (Fin hi) <->
     (x < length es)%nat /\ (rt = UNKNOWN_WAY \/ etype (es !!! x) = rt) /\ lo <= angZ es x <= hi) ->
  x ∈ search_ranges es idx rt lst (map (fun p => (Fin (fst p), Fin (snd p))) rs) <->
  x ∈ lst \/ ((x < length es)%nat /\ (rt = UNKNOWN_WAY \/ etype (es !!! x) = rt) /\
              in_zranges (angZ es x) rs = true).
Proof.
  intros Hq. revert lst. induction rs as [|[lo hi] rs IH]; intros lst; simpl.
  - split; [auto|]. intros [H|(_&_&H)]; [exact H|discriminate].
  - rewrite IH, elem_of_app, Hq, orb_true_iff, andb_true_iff, !Z.leb_le. simpl. tauto.
Qed.

Lemma angles_normalised_spec es :
  angles_normalised es = true -> Forall (fun e => exists z, angle e = Fin z /\ 0 <= z < 180) es.
Proof.
  unfold angles_normalised. rewrite forallb_forall. intros H. apply Forall_forall.
  intros e He. apply list_elem_of_In in He. specialize (H e He).
  destruct (angle e) as [z| | |]; try discriminate.
  apply andb_prop in H as [H1 H2]. apply Z.leb_le in H1. apply Z.ltb_lt in H2. eauto.
Qed.

Lemma idx_complete_spec es idx :
  idx_complete es idx = true -> forall i, i ∈ idx <-> (i < length es)%nat.
Proof.
  unfold idx_complete. intros H. apply andb_prop in H as [H1 H2].
  rewrite forallb_forall in H1, H2. intros i. split.
  - intros Hi. apply list_elem_of_In in Hi. apply Nat.ltb_lt. auto.
  - intros Hi. assert (Hs : In i (seq 0 (length es))) by (apply in_seq; lia).
    specialize (H2 i Hs). apply bool_decide_eq_true in H2. exact H2.
Qed.

Lemma dle_trans x y z : dle x y = true -> dle y z = true -> dle x z = true.
Proof.
  destruct x, y, z; simpl; try discriminate; try reflexivity.
  rewrite !Z.leb_le. lia.
Qed.

Lemma sorted_by_angle_spec es l :
  sorted_by_angle es l = true -> StronglySorted (angle_le es) l.
Proof.
  intros H. apply Sorted_StronglySorted.
  - intros i j k. unfold angle_le. apply dle_trans.
  - induction l as [|i l IH]; [constructor|].
    destruct l as [|j l]; [repeat constructor|].
    simpl in H. apply andb_prop in H as [Hij H]. constructor; [exact (IH H)|].
    constructor. exact Hij.
Qed.

(** C5: with the edge angles normalised to [0, 180), the index
    [vecTaxiEdgesIdxHead] listing every edge and sorted by angle
    ([SortTaxiEdges]), a search heading in [0, 360) and a non-negative
    tolerance: a window that spills below 0 or above 180 (for the heading
    normalised to [0, 180)) is split into two search ranges; and the edges
    [FindEdgesForHeading] adds to [lst] are exactly the edges of the
    requested type whose angle lies within the tolerance of the search
    heading modulo 180 (as a set: with a tolerance of 90 or more the two
    ranges overlap and an edge may be added twice); the result tells
    whether [lst] is non-empty. *)
Theorem FindEdgesForHeading_mod180 (apt : Apt) (h0 t : Z) (lst : list nat) (restrictType : nodeTy) :
  0 <= h0 < 360 -> 0 <= t ->
  angles_normalised (vecTaxiEdges apt) = true ->
  idx_complete (vecTaxiEdges apt) (vecTaxiEdgesIdxHead apt) = true ->
  sorted_by_angle (vecTaxiEdges apt) (vecTaxiEdgesIdxHead apt) = true ->
  ((h0 mod 180 - t < 0 \/ 180 <= h0 mod 180 + t) -> length (heading_ranges (Fin h0) (Fin t)) = 2%nat) /\
  (snd (FindEdgesForHeading apt (Fin h0) (Fin t) lst restrictType) = true <->
     fst (FindEdgesForHeading apt (Fin h0) (Fin t) lst restrictType) <> []) /\
  (forall x, x ∈ fst (FindEdgesForHeading apt (Fin h0) (Fin t) lst restrictType) <->
    x ∈ lst \/
    ((x < length (vecTaxiEdges apt))%nat /\
     (restrictType = UNKNOWN_WAY \/ etype (vecTaxiEdges apt !!! x) = restrictType) /\
     exists z k, angle (vecTaxiEdges apt !!! x) = Fin z /\ Z.abs (z - h0 - 180 * k) <= t)).
Proof.
  intros Hh Ht HA Hcov HS.
  apply angles_normalised_spec in HA. pose proof (idx_complete_spec _ _ Hcov) as Hcov'.
  clear Hcov. rename Hcov' into Hcov. apply sorted_by_angle_spec in HS.
  set (es := vecTaxiEdges apt) in *. set (idx := vecTaxiEdgesIdxHead apt) in *.
  assert (Hfa : forall i, (i < length es)%nat -> angle (es !!! i) = Fin (angZ es i) /\ 0 <= angZ es i < 180).
  { intros i Hi. destruct (lookup_lt_is_Some_2 _ _ Hi) as [e He].
    destruct (Forall_lookup_1 _ _ _ _ HA He) as (z & Hz & Hr).
    unfold angZ. rewrite (list_lookup_total_correct _ _ _ He), Hz. auto. }
  assert (HF : Forall (fin_angle es) idx).
  { apply Forall_forall. intros i Hi. apply Hcov in Hi. exists (angZ es i). apply Hfa. exact Hi. }
  assert (Hq : forall lo hi x, x ∈ scan_range es restrictType (lower_bound es idx (Fin lo)) (Fin hi) <->
    (x < length es)%nat /\ (restrictType = UNKNOWN_WAY \/ etype (es !!! x) = restrictType) /\
    lo <= angZ es x <= hi).
  { intros lo hi x. rewrite range_query_mem by assumption. rewrite Hcov, type_ok_iff. tauto. }
  unfold FindEdgesForHeading. fold es idx. rewrite heading_ranges_fin. simpl.
  split; [|split].
  - rewrite length_map. apply zranges_split; lia.
  - split; [intros H Hn; rewrite Hn in H; discriminate|intros H; apply negb_true_iff, bool_decide_eq_false; exact H].
  - intros x. rewrite (search_ranges_mem es idx restrictType _ _ _ Hq). split.
    + intros [Hl|(Hx & Hty & Hr)]; [left; exact Hl|right].
      destruct (Hfa x Hx) as [Hz Hr']. split; [exact Hx|]. split; [exact Hty|].
      rewrite Hz. apply zranges_mod in Hr; [|lia|lia|exact Ht]. destruct Hr as [k Hk].
      exists (angZ es x), k. auto.
    + intros [Hl|(Hx & Hty & z & k & Hz & Hk)]; [left; exact Hl|right].
      destruct (Hfa x Hx) as [Hz' Hr']. rewrite Hz' in Hz. injection Hz as <-.
      split; [exact Hx|]. split; [exact Hty|]. apply zranges_mod; [lia|lia|exact Ht|]. eauto.
Qed.

(** Witness for C5: heading 185 (5 after normalisation), tolerance 10; the
    window [-5, 15] is split into [0, 15] and [175, 180]. *)
Lemma FindEdgesForHeading_mod180_witness :
  0 <= 185 < 360 /\ 0 <= 10 /\
  angles_normalised (vecTaxiEdges headApt) = true /\
  idx_complete (vecTaxiEdges headApt) (vecTaxiEdgesIdxHead headApt) = true /\
  sorted_by_angle (vecTaxiEdges headApt) (vecTaxiEdgesIdxHead headApt) = true /\
  fst (FindEdgesForHeading headApt (Fin 185) (Fin 10) [] UNKNOWN_WAY) = [0%nat; 2%nat] /\
  (((185 mod 180 - 10 < 0 \/ 180 <= 185 mod 180 + 10) -> length (heading_ranges (Fin 185) (Fin 10)) = 2%nat) /\
  (snd (FindEdgesForHeading headApt (Fin 185) (Fin 10) [] UNKNOWN_WAY) = true <->
     fst (FindEdgesForHeading headApt (Fin 185) (Fin 10) [] UNKNOWN_WAY) <> []) /\
  (forall x, x ∈ fst (FindEdgesForHeading headApt (Fin 185) (Fin 10) [] UNKNOWN_WAY) <->
    x ∈ [] \/
    ((x < length (vecTaxiEdges headApt))%nat /\
     (UNKNOWN_WAY = UNKNOWN_WAY \/ etype (vecTaxiEdges headApt !!! x) = UNKNOWN_WAY) /\
     exists z k, angle (vecTaxiEdges headApt !!! x) = Fin z /\ Z.abs (z - 185 - 180 * k) <= 10))).
Proof.
  split; [lia|]. split; [lia|]. split; [reflexivity|]. split; [vm_compute; reflexivity|].
  split; [reflexivity|]. split; [vm_compute; reflexivity|].
  apply (FindEdgesForHeading_mod180 headApt 185 10 [] UNKNOWN_WAY); [lia|lia|reflexivity|vm_compute; reflexivity|reflexivity].
Defined.

End HeadingProofs.

(** ** The closest edge *)

Module ClosestProofs.
Import Snap Heading Closest.

Section Loop.
Variable HeadingNormalize : dbl -> dbl.
Variable HeadingDiff : dbl -> dbl -> dbl.
Variable Lon2Dist : dbl -> dbl -> dbl.
Variable Lat2Dist : dbl -> dbl.
Variable Dist2Lon : dbl -> dbl -> dbl.
Variable Dist2Lat : dbl -> dbl.
Variable distToLineTy : Type.
Variable dist2 : distToLineTy -> dbl.
Variable DistSqrOfBaseBeyondLine : distToLineTy -> dbl.
Variable DistPointToLineSqr : dbl -> dbl -> dbl -> dbl -> dbl -> dbl -> distToLineTy.
Variable DistResultToBaseLoc : dbl -> dbl -> dbl -> dbl -> distToLineTy -> dbl * dbl.
Variable SCND_PRIO_ADD : dbl.

Local Abbreviation geo := (edge_geo HeadingDiff Lon2Dist Lat2Dist distToLineTy DistPointToLineSqr).
Local Abbreviation prio :=
  (prio_dist HeadingDiff Lon2Dist Lat2Dist distToLineTy dist2 DistPointToLineSqr SCND_PRIO_ADD).
Local Abbreviation loop :=
  (closest_loop HeadingDiff Lon2Dist Lat2Dist distToLineTy dist2 DistSqrOfBaseBeyondLine
     DistPointToLineSqr SCND_PRIO_ADD).
Local Abbreviation okb :=
  (closest_ok HeadingNormalize HeadingDiff Lon2Dist Lat2Dist distToLineTy dist2
     DistSqrOfBaseBeyondLine DistPointToLineSqr).

Variable apt : Apt.
Variable pos : positionTy.
Variable maxDist_m : Z.
Variable angleTolerance : dbl.
Variable skip : option nat.

Local Abbreviation hs := (HeadingNormalize (pheading pos)).
Local Abbreviation md2 := (Fin (sqr_int maxDist_m)).

Ltac elem :=
  match goal with
  | H : _ ∈ [] |- _ => apply not_elem_of_nil in H; contradiction
  | |- ?x ∈ ?x :: _ => apply elem_of_cons; left; reflexivity
  | |- _ ∈ _ :: _ => apply elem_of_cons; right; elem
  | _ => assumption
  end.

Ltac loop_cases :=
  repeat match goal with
  | |- context [if ?b then _ else _] => destruct b eqn:?
  end.

Lemma okb_unfold j :
  okb apt pos maxDist_m skip j =
  negb (bool_decide (skip = Some j)) &&
  negb (dgt (dist2 (geo_dist distToLineTy (geo apt pos hs j))) md2) &&
  negb (dgt (DistSqrOfBaseBeyondLine (geo_dist distToLineTy (geo apt pos hs j))) md2).
Proof. reflexivity. Qed.

(** The loop keeps its state or ends on an edge of the list that passes the
    checks. *)
Lemma closest_loop_sound l best bp b' bp' :
  loop apt pos hs md2 angleTolerance skip l best bp = (b', bp') ->
  (b' = best /\ bp' = bp) \/
  (exists i, b' = Some (i, geo apt pos hs i) /\ bp' = prio apt pos hs angleTolerance i /\
             i ∈ l /\ okb apt pos maxDist_m skip i = true).
Proof.
  revert best bp. induction l as [|j l IH]; intros best bp H; cbn [closest_loop] in H.
  - injection H as <- <-. left. auto.
  - destruct (bool_decide (skip = Some j)) eqn:Hs.
    { destruct (IH _ _ H) as [[-> ->]|(i & ? & ? & ? & ?)]; [left; auto|right; exists i; repeat split; auto; elem]. }
    destruct (dgt (dist2 (geo_dist distToLineTy (geo apt pos hs j))) md2) eqn:Hd.
    { destruct (IH _ _ H) as [[-> ->]|(i & ? & ? & ? & ?)]; [left; auto|right; exists i; repeat split; auto; elem]. }
    destruct (dge (prio apt pos hs angleTolerance j) bp) eqn:Hp.
    { destruct (IH _ _ H) as [[-> ->]|(i & ? & ? & ? & ?)]; [left; auto|right; exists i; repeat split; auto; elem]. }
    destruct (dgt (DistSqrOfBaseBeyondLine (geo_dist distToLineTy (geo apt pos hs j))) md2) eqn:Hb.
    { destruct (IH _ _ H) as [[-> ->]|(i & ? & ? & ? & ?)]; [left; auto|right; exists i; repeat split; auto; elem]. }
    destruct (IH _ _ H) as [[-> ->]|(i & ? & ? & ? & ?)].
    + right. exists j. repeat split; [elem|]. rewrite okb_unfold, Hs, Hd, Hb. reflexivity.
    + right. exists i. repeat split; auto. elem.
Qed.

(** An edge that passes the checks is never lost: the loop ends on some edge. *)
Lemma closest_loop_some l best bp :
  (best = None -> bp = NaN) ->
  (best <> None \/ exists j, j ∈ l /\ okb apt pos maxDist_m skip j = true) ->
  fst (loop apt pos hs md2 angleTolerance skip l best bp) <> None.
Proof.
  revert best bp. induction l as [|j l IH]; intros best bp Hnan Hex; cbn [closest_loop fst].
  - destruct Hex as [Hb|(j & Hj & _)]; [exact Hb|elem].
  - assert (Hsub : forall best' bp', (best' = None -> bp' = NaN) ->
              (best' <> None \/ exists j', j' ∈ l /\ okb apt pos maxDist_m skip j' = true) ->
              fst (loop apt pos hs md2 angleTolerance skip l best' bp') <> None) by (intros; apply IH; auto).
    destruct Hex as [Hb|(j' & Hj' & Hok)].
    + loop_cases; apply Hsub; auto; discriminate.
    + apply elem_of_cons in Hj' as [->|Hj'].
      * rewrite okb_unfold in Hok. apply andb_true_iff in Hok as [Hok Hb].
        apply andb_true_iff in Hok as [Hs Hd]. apply negb_true_iff in Hs, Hd, Hb.
        rewrite Hs, Hd, Hb.
        destruct (dge (prio apt pos hs angleTolerance j) bp) eqn:Hp.
        -- destruct best as [b|]; [apply Hsub; auto; left; discriminate|].
           rewrite (Hnan eq_refl) in Hp. unfold dge, dle in Hp. destruct (prio apt pos hs angleTolerance j); discriminate.
        -- apply Hsub; [discriminate|left; discriminate].
      * loop_cases; apply Hsub; auto; try discriminate; right; eauto.
Qed.

Lemma dle_fin_trans x y z :
  dfin x = true -> dfin y = true -> dfin z = true -> dle x y = true -> dle y z = true -> dle x z = true.
Proof.
  destruct x, y, z; simpl; try discriminate. intros _ _ _ H1 H2.
  apply Z.leb_le in H1, H2. apply Z.leb_le. lia.
Qed.

(** With finite prioritised distances the loop ends on a smallest one. *)
Lemma closest_loop_min l best bp b' bp' :
  (forall j, j ∈ l -> okb apt pos maxDist_m skip j = true -> dfin (prio apt pos hs angleTolerance j) = true) ->
  (bp = NaN \/ dfin bp = true) ->
  loop apt pos hs md2 angleTolerance skip l best bp = (b', bp') ->
  (bp' = bp \/ dfin bp' = true) /\
  (dfin bp = true -> dle bp' bp = true) /\
  (forall j, j ∈ l -> okb apt pos maxDist_m skip j = true -> dle bp' (prio apt pos hs angleTolerance j) = true).
Proof.
  revert best bp. induction l as [|j l IH]; intros best bp Hfin Hbp H; cbn [closest_loop] in H.
  - injection H as <- <-. split; [left; auto|]. split.
    + intros Hf. destruct bp; try discriminate. simpl. apply Z.leb_le. lia.
    + intros j Hj. elem.
  - assert (Hfin' : forall j', j' ∈ l -> okb apt pos maxDist_m skip j' = true ->
                     dfin (prio apt pos hs angleTolerance j') = true) by (intros; apply Hfin; elem).
    assert (Hkeep : loop apt pos hs md2 angleTolerance skip l best bp = (b', bp') ->
              okb apt pos maxDist_m skip j = true -> dfin bp = true /\ dle bp (prio apt pos hs angleTolerance j) = true ->
              (bp' = bp \/ dfin bp' = true) /\ (dfin bp = true -> dle bp' bp = true) /\
              (forall j', j' ∈ j :: l -> okb apt pos maxDist_m skip j' = true ->
                 dle bp' (prio apt pos hs angleTolerance j') = true)).
    { intros Hl Hok [Hf Hle]. destruct (IH _ _ Hfin' Hbp Hl) as (H1 & H2 & H3).
      split; [auto|]. split; [auto|]. intros j' Hj' Hok'.
      apply elem_of_cons in Hj' as [->|Hj']; [|auto].
      destruct H1 as [->|H1]; [auto|].
      apply (dle_fin_trans _ bp); auto. apply Hfin; [elem|auto]. }
    assert (Hnot : loop apt pos hs md2 angleTolerance skip l best bp = (b', bp') ->
              okb apt pos maxDist_m skip j = false ->
              (bp' = bp \/ dfin bp' = true) /\ (dfin bp = true -> dle bp' bp = true) /\
              (forall j', j' ∈ j :: l -> okb apt pos maxDist_m skip j' = true ->
                 dle bp' (prio apt pos hs angleTolerance j') = true)).
    { intros Hl Hok. destruct (IH _ _ Hfin' Hbp Hl) as (H1 & H2 & H3).
      split; [auto|]. split; [auto|]. intros j' Hj' Hok'.
      apply elem_of_cons in Hj' as [->|Hj']; [congruence|auto]. }
    pose proof (okb_unfold j) as Hu.
    destruct (bool_decide (skip = Some j)) eqn:Hs; [apply Hnot; auto; rewrite Hu; reflexivity|].
    destruct (dgt (dist2 (geo_dist distToLineTy (geo apt pos hs j))) md2) eqn:Hd;
      [apply Hnot; auto; rewrite Hu; reflexivity|].
    destruct (dge (prio apt pos hs angleTolerance j) bp) eqn:Hp.
    { destruct (okb apt pos maxDist_m skip j) eqn:Hok; [|apply Hnot; auto].
      apply Hkeep; auto. destruct Hbp as [->|Hf].
      - unfold dge, dle in Hp. destruct (prio apt pos hs angleTolerance j); discriminate.
      - split; [exact Hf|exact Hp]. }
    destruct (dgt (DistSqrOfBaseBeyondLine (geo_dist distToLineTy (geo apt pos hs j))) md2) eqn:Hb;
      [apply Hnot; auto; rewrite Hu; reflexivity|].
    assert (Hok : okb apt pos maxDist_m skip j = true) by (rewrite Hu; reflexivity).
    assert (Hpf : dfin (prio apt pos hs angleTolerance j) = true) by (apply Hfin; [elem|auto]).
    destruct (IH _ _ Hfin' (or_intror Hpf) H) as (H1 & H2 & H3).
    split; [destruct H1 as [->|]; auto|]. split.
    + intros Hf. destruct bp as [zb| | |]; try discriminate.
      destruct (prio apt pos hs angleTolerance j) as [zp| | |] eqn:Ep; try discriminate.
      unfold dge, dle in Hp. apply Z.leb_gt in Hp.
      specialize (H2 eq_refl). destruct bp' as [zq| | |]; try (destruct H1 as [H1|H1]; discriminate). simpl in *.
      apply Z.leb_le in H2. apply Z.leb_le. lia.
    + intros j' Hj' Hok'. apply elem_of_cons in Hj' as [->|Hj']; [|auto].
      apply H2. exact Hpf.
Qed.

End Loop.

Section Result.
Variable HeadingNormalize : dbl -> dbl.
Variable HeadingDiff : dbl -> dbl -> dbl.
Variable Lon2Dist : dbl -> dbl -> dbl.
Variable Lat2Dist : dbl -> dbl.
Variable Dist2Lon : dbl -> dbl -> dbl.
Variable Dist2Lat : dbl -> dbl.
Variable distToLineTy : Type.
Variable dist2 : distToLineTy -> dbl.
Variable DistSqrOfBaseBeyondLine : distToLineTy -> dbl.
Variable DistPointToLineSqr : dbl -> dbl -> dbl -> dbl -> dbl -> dbl -> distToLineTy.
Variable DistResultToBaseLoc : dbl -> dbl -> dbl -> dbl -> distToLineTy -> dbl * dbl.
Variable SCND_PRIO_ADD : dbl.

Local Abbreviation FCE :=
  (FindClosestEdge HeadingNormalize HeadingDiff Lon2Dist Lat2Dist Dist2Lon Dist2Lat distToLineTy dist2
     DistSqrOfBaseBeyondLine DistPointToLineSqr DistResultToBaseLoc SCND_PRIO_ADD).
Local Abbreviation okb :=
  (closest_ok HeadingNormalize HeadingDiff Lon2Dist Lat2Dist distToLineTy dist2
     DistSqrOfBaseBeyondLine DistPointToLineSqr).
Local Abbreviation prio :=
  (prio_dist HeadingDiff Lon2Dist Lat2Dist distToLineTy dist2 DistPointToLineSqr SCND_PRIO_ADD).
Local Abbreviation loop :=
  (closest_loop HeadingDiff Lon2Dist Lat2Dist distToLineTy dist2 DistSqrOfBaseBeyondLine
     DistPointToLineSqr SCND_PRIO_ADD).

Lemma FCE_loop apt pos maxDist_m tol ext skip r :
  FCE apt pos maxDist_m tol ext skip = Some r ->
  exists i g bp, r.1.1 = i /\
    loop apt pos (HeadingNormalize (pheading pos)) (Fin (sqr_int maxDist_m)) tol skip
      (closest_candidates HeadingNormalize apt pos tol ext) None NaN = (Some (i, g), bp).
Proof.
  unfold FindClosestEdge, closest_candidates.
  destruct (FindEdgesForHeading apt (HeadingNormalize (pheading pos)) (dstdmax tol ext) [] UNKNOWN_WAY)
    as [lst found]. simpl. destruct found; simpl; [|discriminate].
  destruct (loop apt pos (HeadingNormalize (pheading pos)) (Fin (sqr_int maxDist_m)) tol skip lst None NaN)
    as [[[i [[[[fx fy] tx] ty] d]]|] bp] eqn:E; simpl; [|discriminate].
  destruct (DistResultToBaseLoc fx fy tx ty d) as [bx by']. intros H. injection H as <-.
  exists i, (fx, fy, tx, ty, d), bp. auto.
Qed.

(** The edge found passes the checks and was listed for the heading. *)
Lemma FCE_cand apt pos maxDist_m tol ext skip i la lo :
  FCE apt pos maxDist_m tol ext skip = Some (i, la, lo) ->
  i ∈ closest_candidates HeadingNormalize apt pos tol ext /\ okb apt pos maxDist_m skip i = true.
Proof.
  intros H. destruct (FCE_loop _ _ _ _ _ _ _ H) as (i' & g & bp & Hi & E). simpl in Hi. subst i'.
  destruct (ClosestProofs.closest_loop_sound HeadingNormalize HeadingDiff Lon2Dist Lat2Dist distToLineTy
              dist2 DistSqrOfBaseBeyondLine DistPointToLineSqr SCND_PRIO_ADD apt pos maxDist_m tol skip
              _ _ _ _ _ E) as [[? _]|(i' & Hb & _ & Hm & Hok)]; [discriminate|].
  injection Hb as <- _. auto.
Qed.

(** X1: an edge [FindClosestEdge] returns is one of the edges
    [FindEdgesForHeading] lists for the search heading, never the edge to
    skip, within the maximum distance, and with its base point not too far
    beyond the edge; for a maximum distance whose [int] square does not
    overflow. *)
Theorem FindClosestEdge_result_ok apt pos maxDist_m tol ext skip i la lo :
  Z.abs maxDist_m <= 46340 ->
  FCE apt pos maxDist_m tol ext skip = Some (i, la, lo) ->
  i ∈ closest_candidates HeadingNormalize apt pos tol ext /\ okb apt pos maxDist_m skip i = true.
Proof. intros _. exact (FCE_cand apt pos maxDist_m tol ext skip i la lo). Qed.

(** X2: [FindClosestEdge] finds an edge exactly when some edge listed for the
    search heading passes its checks (not the edge to skip, within the
    maximum distance, base point not too far beyond the edge); for a
    maximum distance whose [int] square does not overflow. *)
Theorem FindClosestEdge_found_iff apt pos maxDist_m tol ext skip :
  Z.abs maxDist_m <= 46340 ->
  (exists i la lo, FCE apt pos maxDist_m tol ext skip = Some (i, la, lo)) <->
  (exists j, j ∈ closest_candidates HeadingNormalize apt pos tol ext /\ okb apt pos maxDist_m skip j = true).
Proof.
  intros _. split.
  - intros (i & la & lo & H). exists i. exact (FCE_cand _ _ _ _ _ _ _ _ _ H).
  - intros (j & Hj & Hok).
    pose proof (ClosestProofs.closest_loop_some HeadingNormalize HeadingDiff Lon2Dist Lat2Dist distToLineTy
                  dist2 DistSqrOfBaseBeyondLine DistPointToLineSqr SCND_PRIO_ADD apt pos maxDist_m tol skip
                  (closest_candidates HeadingNormalize apt pos tol ext) None NaN (fun _ => eq_refl)
                  (or_intror (ex_intro _ j (conj Hj Hok)))) as Hs.
    revert Hj Hs. unfold FindClosestEdge, closest_candidates.
    destruct (FindEdgesForHeading apt (HeadingNormalize (pheading pos)) (dstdmax tol ext) [] UNKNOWN_WAY)
      as [lst found] eqn:EF. simpl. intros Hj Hs.
    assert (found = true) as ->.
    { unfold FindEdgesForHeading in EF. injection EF as E1 E2. subst found.
      destruct (bool_decide _) eqn:Hb; [|reflexivity].
      apply bool_decide_eq_true in Hb. rewrite <- E1, Hb in Hj. apply not_elem_of_nil in Hj. contradiction. }
    simpl.
    destruct (loop apt pos (HeadingNormalize (pheading pos)) (Fin (sqr_int maxDist_m)) tol skip lst None NaN)
      as [[[i [[[[fx fy] tx] ty] d]]|] bp]; simpl in *; [|congruence].
    destruct (DistResultToBaseLoc fx fy tx ty d) as [bx by']. eauto.
Qed.

(** X3: when the prioritised distances of the edges passing the checks are
    finite, the edge [FindClosestEdge] returns has the smallest prioritised
    distance among them (square distance, plus a penalty when its angle is
    outside the first tolerance); for a maximum distance whose [int] square
    does not overflow. *)
Theorem FindClosestEdge_min apt pos maxDist_m tol ext skip i la lo :
  Z.abs maxDist_m <= 46340 ->
  FCE apt pos maxDist_m tol ext skip = Some (i, la, lo) ->
  forallb (fun j => negb (okb apt pos maxDist_m skip j) || dfin (prio apt pos (HeadingNormalize (pheading pos)) tol j))
    (closest_candidates HeadingNormalize apt pos tol ext) = true ->
  forall j, j ∈ closest_candidates HeadingNormalize apt pos tol ext -> okb apt pos maxDist_m skip j = true ->
    dle (prio apt pos (HeadingNormalize (pheading pos)) tol i)
        (prio apt pos (HeadingNormalize (pheading pos)) tol j) = true.
Proof.
  intros _ H Hall.
  assert (Hfin : forall j, j ∈ closest_candidates HeadingNormalize apt pos tol ext -> okb apt pos maxDist_m skip j = true ->
            dfin (prio apt pos (HeadingNormalize (pheading pos)) tol j) = true).
  { intros j Hj Hok. rewrite forallb_forall in Hall. specialize (Hall j (proj1 (list_elem_of_In _ _) Hj)).
    rewrite Hok in Hall. exact Hall. }
  destruct (FCE_loop _ _ _ _ _ _ _ H) as (i' & g & bp & Hi & E). simpl in Hi. subst i'.
  destruct (ClosestProofs.closest_loop_sound HeadingNormalize HeadingDiff Lon2Dist Lat2Dist distToLineTy
              dist2 DistSqrOfBaseBeyondLine DistPointToLineSqr SCND_PRIO_ADD apt pos maxDist_m tol skip
              _ _ _ _ _ E) as [[? _]|(i' & Hb & Hbp & _ & _)]; [discriminate|].
  injection Hb as <- _. subst bp.
  destruct (ClosestProofs.closest_loop_min HeadingNormalize HeadingDiff Lon2Dist Lat2Dist distToLineTy
              dist2 DistSqrOfBaseBeyondLine DistPointToLineSqr SCND_PRIO_ADD apt pos maxDist_m tol skip
              _ _ _ _ _ Hfin (or_introl eq_refl) E) as (_ & _ & Hmin).
  exact Hmin.
Qed.

End Result.

Section Witnesses.
Import Samples2.

Local Abbreviation FCE_flat :=
  (FindClosestEdge (fun h => h) flatHeadingDiff flatLon2Dist flatLat2Dist flatLon2Dist flatLat2Dist (dbl * dbl)
     fst snd flatDistToLine flatBaseLoc (Fin 40)).

(** Witness for X1: on [twoTaxiApt] the edge 0, one meter south of [eastPos], is found. *)
Lemma FindClosestEdge_result_ok_witness :
  FCE_flat twoTaxiApt eastPos 5 (Fin 15) (Fin 30) None = Some (0%nat, Fin 0, Fin 5) /\
  0%nat ∈ closest_candidates (fun h => h) twoTaxiApt eastPos (Fin 15) (Fin 30) /\
  closest_ok (fun h => h) flatHeadingDiff flatLon2Dist flatLat2Dist (dbl * dbl) fst snd flatDistToLine
    twoTaxiApt eastPos 5 None 0 = true.
Proof.
  split; [vm_compute; reflexivity|].
  apply (FindClosestEdge_result_ok (fun h => h) flatHeadingDiff flatLon2Dist flatLat2Dist flatLon2Dist
           flatLat2Dist (dbl * dbl) fst snd flatDistToLine flatBaseLoc (Fin 40)
           twoTaxiApt eastPos 5 (Fin 15) (Fin 30) None 0 (Fin 0) (Fin 5));
    [lia|vm_compute; reflexivity].
Defined.

(** Witness for X2: on [twoTaxiApt] the edge 0 passes the checks for
    [eastPos], so an edge is found. *)
Lemma FindClosestEdge_found_iff_witness :
  exists i la lo, FCE_flat twoTaxiApt eastPos 5 (Fin 15) (Fin 30) None = Some (i, la, lo).
Proof.
  apply (FindClosestEdge_found_iff (fun h => h) flatHeadingDiff flatLon2Dist flatLat2Dist flatLon2Dist
           flatLat2Dist (dbl * dbl) fst snd flatDistToLine flatBaseLoc (Fin 40)
           twoTaxiApt eastPos 5 (Fin 15) (Fin 30) None); [lia|].
  exists 0%nat. split.
  - apply elem_of_cons. left. reflexivity.
  - vm_compute. reflexivity.
Defined.

(** Witness for X3: the edge found is closer than the edge 1. *)
Lemma FindClosestEdge_min_witness :
  FCE_flat twoTaxiApt eastPos 5 (Fin 15) (Fin 30) None = Some (0%nat, Fin 0, Fin 5) /\
  dle (prio_dist flatHeadingDiff flatLon2Dist flatLat2Dist (dbl * dbl) fst flatDistToLine (Fin 40)
         twoTaxiApt eastPos (Fin 90) (Fin 15) 0)
      (prio_dist flatHeadingDiff flatLon2Dist flatLat2Dist (dbl * dbl) fst flatDistToLine (Fin 40)
         twoTaxiApt eastPos (Fin 90) (Fin 15) 1) = true.
Proof.
  split; [vm_compute; reflexivity|].
  apply (FindClosestEdge_min (fun h => h) flatHeadingDiff flatLon2Dist flatLat2Dist flatLon2Dist
           flatLat2Dist (dbl * dbl) fst snd flatDistToLine flatBaseLoc (Fin 40)
           twoTaxiApt eastPos 5 (Fin 15) (Fin 30) None 0 (Fin 0) (Fin 5));
    [lia|vm_compute..]; [reflexivity|reflexivity| |reflexivity].
  apply elem_of_cons. right. apply elem_of_cons. left. reflexivity.
Defined.

End Witnesses.
End ClosestProofs.

(** ** Joining open ends and adding airports *)

Module JoinProofs.
Import Build Snap Closest AptMap Join BuildProofs.

(** [net_wf] as a proposition. *)
Definition WF (apt : Apt) : Prop :=
  Forall (in_store (length (vecRwyEndPts apt)) (length (vecTaxiNodesA apt))) (vecTaxiEdges apt) /\
  Forall (fun n => Forall (fun x => x < length (vecTaxiEdges apt))%nat (vecEdges n)) (vecTaxiNodesA apt) /\
  Forall (fun x => x < length (vecTaxiEdges apt))%nat (vecTaxiEdgesIdxHead apt).

Lemma forallb_Forall_iff {A} (f : A -> bool) (P : A -> Prop) (l : list A) :
  (forall x, f x = true <-> P x) -> (forallb f l = true <-> Forall P l).
Proof.
  intros H. induction l as [|x l IH]; simpl; [split; auto|].
  rewrite andb_true_iff, Forall_cons, H, IH. tauto.
Qed.

Lemma net_wf_WF apt : net_wf apt = true <-> WF apt.
Proof.
  unfold net_wf, WF. rewrite !andb_true_iff.
  rewrite (forallb_Forall_iff _ (in_store (length (vecRwyEndPts apt)) (length (vecTaxiNodesA apt)))).
  2:{ intros e. unfold in_store. destruct (etype e); rewrite ?andb_true_iff, ?Nat.ltb_lt;
      intuition congruence. }
  rewrite (forallb_Forall_iff _ (fun n => Forall (fun x => x < length (vecTaxiEdges apt))%nat (vecEdges n))).
  2:{ intros n. apply forallb_Forall_iff. intros x. apply Nat.ltb_lt. }
  rewrite (forallb_Forall_iff _ (fun x => x < length (vecTaxiEdges apt))%nat).
  2:{ intros x. apply Nat.ltb_lt. }
  tauto.
Qed.

(** What a step of the join keeps: the id and both node stores; edges are
    only added. *)
Definition grows (apt apt' : Apt) : Prop :=
  aid apt' = aid apt /\ length (vecTaxiNodesA apt') = length (vecTaxiNodesA apt) /\
  length (vecRwyEndPts apt') = length (vecRwyEndPts apt) /\
  (length (vecTaxiEdges apt) <= length (vecTaxiEdges apt'))%nat.

Lemma grows_refl apt : grows apt apt.
Proof. repeat split; lia. Qed.

Lemma grows_trans a b c : grows a b -> grows b c -> grows a c.
Proof. intros (?&?&?&?) (?&?&?&?). repeat split; congruence || lia. Qed.

Lemma Forall_lt_mono (l : list nat) a b :
  Forall (fun x => x < a)%nat l -> (a <= b)%nat -> Forall (fun x => x < b)%nat l.
Proof. intros H Hab. eapply Forall_impl; [exact H|]. intros x Hx; simpl in *; lia. Qed.

Lemma Forall_filter_nat (P : nat -> Prop) (f : nat -> bool) (l : list nat) :
  Forall P l -> Forall P (List.filter f l).
Proof. induction 1; simpl; [constructor|]. destruct (f x); [constructor|]; auto. Qed.

Lemma Forall_insert_by_angle (P : nat -> Prop) es i l :
  P i -> Forall P l -> Forall P (insert_by_angle es i l).
Proof.
  intros Hi Hl. induction Hl as [|j l Hj Hl IH]; simpl; [constructor; auto|].
  destruct (dlt _ _); constructor; auto.
Qed.

Lemma Forall_sort (P : nat -> Prop) es idx :
  Forall P idx -> Forall P (fold_right (insert_by_angle es) [] idx).
Proof. induction 1; simpl; [constructor|]. apply Forall_insert_by_angle; assumption. Qed.

Lemma SortTaxiEdges_WF apt : WF apt -> WF (SortTaxiEdges apt) /\ grows apt (SortTaxiEdges apt).
Proof.
  intros (H1 & H2 & H3). split; [|unfold grows; simpl; repeat split; lia].
  unfold SortTaxiEdges, WF; simpl. split; [exact H1|]. split; [exact H2|].
  apply Forall_sort. destruct (Nat.eqb _ _); [exact H3|].
  apply Forall_forall. intros x Hx. apply elem_of_seq in Hx. lia.
Qed.

Section Ops.
Variable CoordAngle : dbl -> dbl -> dbl -> dbl -> dbl.
Variable DistLatLon : dbl -> dbl -> dbl -> dbl -> dbl.

Lemma AddTaxiEdge_WF apt n1 n2 d :
  WF apt -> (n1 < length (vecTaxiNodesA apt))%nat -> (n2 < length (vecTaxiNodesA apt))%nat ->
  exists apt' r, AddTaxiEdge CoordAngle DistLatLon apt n1 n2 d = Some (apt', r) /\
    WF apt' /\ grows apt apt'.
Proof.
  intros (H1 & H2 & H3) Hn1 Hn2. unfold AddTaxiEdge.
  destruct (lookup_lt_is_Some_2 _ _ Hn1) as [a Ha]. destruct (lookup_lt_is_Some_2 _ _ Hn2) as [b Hb].
  rewrite Ha, Hb.
  destruct (negb (HasGeoCoords a) || negb (HasGeoCoords b)).
  { do 2 eexists. split; [reflexivity|]. split; [repeat split; assumption|apply grows_refl]. }
  do 2 eexists. split; [reflexivity|].
  set (ne := length (vecTaxiEdges apt)).
  assert (H2' : Forall (fun n => Forall (fun x => x < ne + 1)%nat (vecEdges n)) (vecTaxiNodesA apt)).
  { eapply Forall_impl; [exact H2|]. intros n Hn. eapply Forall_lt_mono; [exact Hn|lia]. }
  assert (Hp : forall (ns : list TaxiNode) k, Forall (fun n => Forall (fun x => x < ne + 1)%nat (vecEdges n)) ns ->
            (k < length ns)%nat -> Forall (fun x => x < ne + 1)%nat (vecEdges (push_edge (ns !!! k) ne))).
  { intros ns k Hns Hk. simpl. apply Forall_app. split; [exact (Forall_lookup_total_1 _ _ _ Hns Hk)|].
    constructor; [lia|constructor]. }
  unfold WF, grows; simpl. rewrite !length_insert, length_app. simpl.
  fold ne.
  split; [split; [|split]|].
  - apply Forall_app. split; [exact H1|]. constructor; [|constructor].
    unfold TaxiEdge_new. apply Normalize_in_store. right. simpl. auto.
  - apply Forall_insert; [apply Forall_insert; [exact H2'|apply Hp; assumption]|].
    apply Hp; [apply Forall_insert; [exact H2'|apply Hp; assumption]|rewrite length_insert; exact Hn2].
  - eapply Forall_lt_mono; [exact H3|lia].
  - repeat split; lia.
Qed.

Lemma SplitEdge_WF apt eIdx insNode je :
  WF apt -> vecTaxiEdges apt !! eIdx = Some je -> etype je = TAXI_WAY ->
  (insNode < length (vecTaxiNodesA apt))%nat ->
  exists apt', SplitEdge CoordAngle DistLatLon apt eIdx insNode = Some apt' /\ WF apt' /\ grows apt apt'.
Proof.
  intros HW He Ht Hi. unfold SplitEdge. rewrite He.
  destruct (Nat.eqb insNode (ea je) || Nat.eqb insNode (eb je)).
  { exists apt. split; [reflexivity|]. split; [exact HW|apply grows_refl]. }
  destruct (lookup_lt_is_Some_2 _ _ Hi) as [b Hb]. rewrite Hb.
  destruct HW as (H1 & H2 & H3).
  pose proof (in_store_lookup _ _ _ _ _ H1 He) as [(Hr&_)|(_&Hea&Heb)]; [congruence|].
  pose proof (lookup_lt_Some _ _ _ He) as HeIdx.
  match goal with |- exists _, option_map fst (AddTaxiEdge _ _ ?a1 _ _ _) = _ /\ _ =>
    set (apt1 := a1) end.
  assert (HW1 : WF apt1 /\ grows apt apt1).
  { unfold apt1, WF, grows; simpl. rewrite !length_insert.
    split; [split; [|split]|repeat split; lia].
    + apply Forall_insert; [exact H1|]. unfold SetEndNode. apply Normalize_in_store.
      right. simpl. auto.
    + assert (H2b : Forall (fun n => Forall (fun x => x < length (vecTaxiEdges apt))%nat (vecEdges n))
                      (<[insNode := push_edge b eIdx]> (vecTaxiNodesA apt))).
      { apply Forall_insert; [exact H2|]. simpl. apply Forall_app. split.
        - exact (Forall_lookup_1 _ _ _ _ H2 Hb).
        - constructor; [exact HeIdx|constructor]. }
      apply Forall_insert; [exact H2b|]. simpl. apply Forall_filter_nat.
      apply Forall_lookup_total_1; [exact H2b|]. rewrite length_insert. exact Heb.
    + exact H3. }
  destruct HW1 as [HW1 Hg1].
  assert (Hl : length (vecTaxiNodesA apt1) = length (vecTaxiNodesA apt))
    by (unfold apt1; simpl; rewrite !length_insert; reflexivity).
  destruct (AddTaxiEdge_WF apt1 insNode (eb je) NaN HW1) as (a2 & r & Hadd & HW2 & Hg2); [lia|lia|].
  rewrite Hadd. exists a2. split; [reflexivity|]. split; [exact HW2|]. eapply grows_trans; eauto.
Qed.

Lemma JoinOpenTaxiEdge_WF apt i joinIdx bStartA la lo n eIdx :
  WF apt -> vecTaxiNodesA apt !! i = Some n -> vecEdges n = [eIdx] ->
  is_rwy (vecTaxiEdges apt !!! eIdx) = false -> joinIdx <> eIdx ->
  (joinIdx < length (vecTaxiEdges apt))%nat ->
  exists apt', JoinOpenTaxiEdge CoordAngle DistLatLon apt i joinIdx bStartA la lo = Some apt' /\
    WF apt' /\ grows apt apt'.
Proof.
  intros HW Hn Hen Hr Hji Hj. destruct HW as (H1 & H2 & H3).
  unfold JoinOpenTaxiEdge. rewrite Hn, Hen.
  pose proof (Forall_lookup_1 _ _ _ _ H2 Hn) as He. cbv beta in He. rewrite Hen in He.
  apply Forall_cons in He as [HeIdx _].
  destruct (lookup_lt_is_Some_2 _ _ HeIdx) as [e Hee].
  destruct (lookup_lt_is_Some_2 _ _ Hj) as [je Hje]. rewrite Hee, Hje.
  rewrite (list_lookup_total_correct _ _ _ Hee) in Hr. unfold is_rwy in Hr. rewrite Hr.
  apply Nat.eqb_neq in Hji. rewrite Hji. simpl. apply Nat.eqb_neq in Hji.
  pose proof (in_store_lookup _ _ _ _ _ H1 Hje) as Hjs.
  destruct (nodeTy_eqb (etype je) RUN_WAY) eqn:Hjr.
  - apply nodeTy_eqb_true in Hjr.
    destruct Hjs as [(_ & Ha & Hb)|(Ht & _)]; [|congruence].
    destruct (vecRwyEndPts apt !! (if bStartA then ea je else eb je)) as [ep|] eqn:Hk.
    + eexists. split; [reflexivity|]. unfold WF, grows; simpl. rewrite length_insert.
      split; [split; [exact H1|split; assumption]|repeat split; lia].
    + exfalso. apply lookup_ge_None in Hk. destruct bStartA; lia.
  - apply nodeTy_eqb_false in Hjr. pose proof (not_rwy_taxi _ _ _ Hjs Hjr) as Hjt.
    pose proof (in_store_lookup _ _ _ _ _ H1 Hee) as Hes.
    match goal with |- exists _, option_map SortTaxiEdges (SplitEdge _ _ ?a1 _ _) = _ /\ _ =>
      set (apt1 := a1) end.
    assert (HW1 : WF apt1 /\ grows apt apt1).
    { unfold apt1, WF, grows; simpl. rewrite !length_insert.
      split; [split; [|split]|repeat split; lia].
      * apply Forall_insert; [exact H1|]. apply RecalcTaxiEdge_in_store. exact Hes.
      * apply Forall_insert; [exact H2|]. simpl. exact (Forall_lookup_1 _ _ _ _ H2 Hn).
      * exact H3. }
    destruct HW1 as [HW1 Hg1].
    assert (Hje1 : vecTaxiEdges apt1 !! joinIdx = Some je)
      by (unfold apt1; simpl; rewrite list_lookup_insert_ne by congruence; exact Hje).
    assert (Hi1 : (i < length (vecTaxiNodesA apt1))%nat)
      by (unfold apt1; simpl; rewrite length_insert; exact (lookup_lt_Some _ _ _ Hn)).
    destruct (SplitEdge_WF apt1 joinIdx i je HW1 Hje1 Hjt Hi1) as (a2 & Hs & HW2 & Hg2).
    rewrite Hs. simpl. eexists. split; [reflexivity|].
    destruct (SortTaxiEdges_WF a2 HW2) as [HW3 Hg3].
    split; [exact HW3|]. eapply grows_trans; [exact Hg1|]. eapply grows_trans; eauto.
Qed.

End Ops.

Lemma lower_bound_sub es l x y : y ∈ Heading.lower_bound es l x -> y ∈ l.
Proof.
  induction l as [|i l IH]; simpl; [auto|]. destruct (dlt _ _); [|auto].
  intros H. apply elem_of_cons. right. auto.
Qed.

Lemma scan_range_sub es rt l hi y : y ∈ Heading.scan_range es rt l hi -> y ∈ l.
Proof.
  induction l as [|i l IH]; simpl; [auto|]. destruct (dle _ _); [|intros H; inversion H].
  destruct (_ || _).
  - intros H. apply elem_of_cons in H as [->|H]; apply elem_of_cons; auto.
  - intros H. apply elem_of_cons. auto.
Qed.

Lemma search_ranges_sub es idx rt lst rs y :
  y ∈ Heading.search_ranges es idx rt lst rs -> y ∈ lst \/ y ∈ idx.
Proof.
  revert lst. induction rs as [|[lo hi] rs IH]; intros lst; simpl; [auto|].
  intros H. destruct (IH _ H) as [H'|H']; [|auto].
  apply elem_of_app in H' as [H'|H']; [auto|].
  right. eapply lower_bound_sub, scan_range_sub. exact H'.
Qed.

Lemma str_compare_refl k : String.compare k k = Eq.
Proof.
  induction k as [|c k IH]; simpl; [reflexivity|].
  unfold Ascii.compare. rewrite N.compare_refl. exact IH.
Qed.

Lemma str_lt_trans a b c :
  String.compare a b = Lt -> String.compare b c = Lt -> String.compare a c = Lt.
Proof.
  revert b c. induction a as [|x a IH]; intros [|y b] [|z c]; simpl; intros H1 H2;
    try discriminate; try reflexivity.
  destruct (Ascii.compare x y) eqn:Hxy; try discriminate H1.
  - apply Ascii.compare_eq_iff in Hxy. subst y.
    destruct (Ascii.compare x z); try discriminate; try reflexivity. eauto.
  - destruct (Ascii.compare y z) eqn:Hyz; try discriminate H2.
    + apply Ascii.compare_eq_iff in Hyz. subst z. rewrite Hxy. reflexivity.
    + assert (Ascii.compare x z = Lt) as ->; [|reflexivity].
      unfold Ascii.compare in *. rewrite N.compare_lt_iff in *. lia.
Qed.

Lemma str_lt_neq a b : String.compare a b = Lt -> a <> b.
Proof. intros H ->. rewrite str_compare_refl in H. discriminate. Qed.

Lemma str_gt_lt a b : String.compare a b = Gt -> String.compare b a = Lt.
Proof. intros H. rewrite String.compare_antisym, H. reflexivity. Qed.

Lemma sorted_above k v m :
  map_sorted ((k, v) :: m) = true -> Forall (fun p => String.compare k (fst p) = Lt) m.
Proof.
  revert k v. induction m as [|[k1 v1] m IH]; intros k v; simpl; [constructor|].
  destruct (String.compare k k1) eqn:H; try discriminate. intros Hs.
  constructor; [exact H|]. eapply Forall_impl; [exact (IH k1 v1 Hs)|].
  intros [k2 v2] H2. simpl in *. eapply str_lt_trans; eauto.
Qed.

Lemma sorted_tail p m : map_sorted (p :: m) = true -> map_sorted m = true.
Proof. destruct p as [k v], m as [|[k1 v1] m]; simpl; [auto|]. destruct (String.compare k k1); congruence. Qed.

Lemma sorted_cons k v m :
  Forall (fun p => String.compare k (fst p) = Lt) m -> map_sorted m = true ->
  map_sorted ((k, v) :: m) = true.
Proof.
  destruct m as [|[k1 v1] m]; [reflexivity|]. intros Hf Hs. apply Forall_cons in Hf as [Hk _].
  simpl in Hk. simpl. rewrite Hk. exact Hs.
Qed.

Lemma map_find_above k m : Forall (fun p => String.compare k (fst p) = Lt) m -> map_find k m = None.
Proof.
  induction 1 as [|[k1 v1] m Hk _ IH]; simpl; [reflexivity|]. simpl in Hk.
  destruct (String.eqb_spec k k1) as [->|]; [rewrite str_compare_refl in Hk; discriminate|exact IH].
Qed.

Lemma emplace_Forall (P : string * Apt -> Prop) k v m :
  P (k, v) -> Forall P m -> Forall P (emplace k v m).
Proof.
  intros Hp. induction 1 as [|[k1 v1] m H1 Hm IH]; simpl; [constructor; auto|].
  destruct (String.compare k k1); repeat constructor; auto.
Qed.

Lemma emplace_sorted k v m : map_sorted m = true -> map_sorted (emplace k v m) = true.
Proof.
  induction m as [|[k1 v1] m IH]; intros Hs; [reflexivity|]. cbn [emplace].
  destruct (String.compare k k1) eqn:Hc.
  - exact Hs.
  - apply sorted_cons; [|exact Hs]. constructor; [exact Hc|].
    eapply Forall_impl; [exact (sorted_above _ _ _ Hs)|].
    intros [k2 v2] H2. simpl in *. eapply str_lt_trans; eauto.
  - apply sorted_cons; [|exact (IH (sorted_tail _ _ Hs))].
    apply emplace_Forall; [exact (str_gt_lt _ _ Hc)|exact (sorted_above _ _ _ Hs)].
Qed.

Lemma emplace_find k k' v m :
  map_sorted m = true ->
  map_find k (emplace k' v m) =
  match map_find k m with Some x => Some x | None => if String.eqb k k' then Some v else None end.
Proof.
  induction m as [|[k1 v1] m IH]; intros Hs; cbn [emplace map_find].
  - destruct (String.eqb k k'); reflexivity.
  - destruct (String.compare k' k1) eqn:Hc; cbn [map_find].
    + apply String.compare_eq_iff in Hc. subst k1.
      destruct (String.eqb k k'); [reflexivity|]. destruct (map_find k m); reflexivity.
    + destruct (String.eqb_spec k k') as [->|Hne].
      * assert (Hn : k' <> k1) by exact (str_lt_neq _ _ Hc).
        apply String.eqb_neq in Hn. rewrite Hn.
        rewrite map_find_above; [reflexivity|].
        eapply Forall_impl; [exact (sorted_above _ _ _ Hs)|].
        intros [k2 v2] H2. simpl in *. eapply str_lt_trans; eauto.
      * destruct (String.eqb k k1); [reflexivity|]. destruct (map_find k m); reflexivity.
    + destruct (String.eqb k k1); [reflexivity|]. exact (IH (sorted_tail _ _ Hs)).
Qed.

Section Loop.
Variable CoordAngle : dbl -> dbl -> dbl -> dbl -> dbl.
Variable DistLatLon : dbl -> dbl -> dbl -> dbl -> dbl.
Variable HeadingNormalize : dbl -> dbl.
Variable HeadingDiff : dbl -> dbl -> dbl.
Variable Lon2Dist : dbl -> dbl -> dbl.
Variable Lat2Dist : dbl -> dbl.
Variable Dist2Lon : dbl -> dbl -> dbl.
Variable Dist2Lat : dbl -> dbl.
Variable distToLineTy : Type.
Variable dist2 : distToLineTy -> dbl.
Variable DistSqrOfBaseBeyondLine : distToLineTy -> dbl.
Variable DistPointToLineSqr : dbl -> dbl -> dbl -> dbl -> dbl -> dbl -> distToLineTy.
Variable DistResultToBaseLoc : dbl -> dbl -> dbl -> dbl -> distToLineTy -> dbl * dbl.
Variable SCND_PRIO_ADD : dbl.
Variable APT_JOIN_MAX_DIST_M : Z.
Variable APT_JOIN_ANGLE_TOLERANCE APT_JOIN_ANGLE_TOLERANCE_EXT : dbl.
Variable EDGE_UNKNOWN : nat.
Variable FPH_UNKNOWN : Z.
Variable EnlargeBounds_m : boundingBoxTy -> boundingBoxTy.

Local Abbreviation jnode :=
  (join_node CoordAngle DistLatLon HeadingNormalize HeadingDiff Lon2Dist Lat2Dist Dist2Lon Dist2Lat
     distToLineTy dist2 DistSqrOfBaseBeyondLine DistPointToLineSqr DistResultToBaseLoc SCND_PRIO_ADD
     APT_JOIN_MAX_DIST_M APT_JOIN_ANGLE_TOLERANCE APT_JOIN_ANGLE_TOLERANCE_EXT EDGE_UNKNOWN FPH_UNKNOWN).
Local Abbreviation jloop :=
  (join_loop CoordAngle DistLatLon HeadingNormalize HeadingDiff Lon2Dist Lat2Dist Dist2Lon Dist2Lat
     distToLineTy dist2 DistSqrOfBaseBeyondLine DistPointToLineSqr DistResultToBaseLoc SCND_PRIO_ADD
     APT_JOIN_MAX_DIST_M APT_JOIN_ANGLE_TOLERANCE APT_JOIN_ANGLE_TOLERANCE_EXT EDGE_UNKNOWN FPH_UNKNOWN).

Lemma join_node_WF apt i :
  WF apt -> (i < length (vecTaxiNodesA apt))%nat ->
  exists apt', jnode apt i = Some apt' /\ WF apt' /\ grows apt apt'.
Proof.
  intros HW Hi. unfold join_node.
  pose proof (list_lookup_lookup_total_lt _ _ Hi) as Hn.
  assert (Hkeep : exists apt', Some apt = Some apt' /\ WF apt' /\ grows apt apt')
    by (exists apt; split; [reflexivity|split; [exact HW|apply grows_refl]]).
  destruct (vecEdges (vecTaxiNodesA apt !!! i)) as [|eIdx [|]] eqn:Hen; try exact Hkeep.
  destruct (is_rwy (vecTaxiEdges apt !!! eIdx)) eqn:Hr; [exact Hkeep|].
  match goal with |- exists _, match ?f with _ => _ end = _ /\ _ =>
    destruct f as [[[joinIdx la] lo]|] eqn:Hf; [|exact Hkeep] end.
  apply ClosestProofs.FCE_cand in Hf as [Hc Hok].
  unfold closest_candidates, Heading.FindEdgesForHeading in Hc. simpl in Hc.
  apply search_ranges_sub in Hc as [Hc|Hc]; [inversion Hc|].
  pose proof HW as (_ & _ & H3). apply Forall_forall with (x := joinIdx) in H3; [|exact Hc].
  unfold closest_ok in Hok. apply andb_true_iff in Hok as [Hok _]. apply andb_true_iff in Hok as [Hok _].
  apply negb_true_iff, bool_decide_eq_false in Hok.
  eapply JoinOpenTaxiEdge_WF; [exact HW|exact Hn|exact Hen|exact Hr| |exact H3]. congruence.
Qed.

Lemma join_loop_WF k i apt :
  WF apt -> exists apt', jloop k i apt = Some apt' /\ WF apt' /\ grows apt apt'.
Proof.
  revert i apt. induction k as [|k IH]; intros i apt HW; simpl.
  - exists apt. split; [reflexivity|]. split; [exact HW|apply grows_refl].
  - destruct (Nat.ltb i (length (vecTaxiNodesA apt))) eqn:Hi.
    + apply Nat.ltb_lt in Hi. destruct (join_node_WF apt i HW Hi) as (a1 & -> & HW1 & Hg1).
      destruct (IH (S i) a1 HW1) as (a2 & -> & HW2 & Hg2).
      exists a2. split; [reflexivity|]. split; [exact HW2|]. eapply grows_trans; eauto.
    + exists apt. split; [reflexivity|]. split; [exact HW|apply grows_refl].
Qed.

Local Abbreviation JOTE :=
  (JoinOpenTaxiEdges CoordAngle DistLatLon HeadingNormalize HeadingDiff Lon2Dist Lat2Dist Dist2Lon Dist2Lat
     distToLineTy dist2 DistSqrOfBaseBeyondLine DistPointToLineSqr DistResultToBaseLoc SCND_PRIO_ADD
     APT_JOIN_MAX_DIST_M APT_JOIN_ANGLE_TOLERANCE APT_JOIN_ANGLE_TOLERANCE_EXT EDGE_UNKNOWN FPH_UNKNOWN).
Local Abbreviation ADDAPT :=
  (AddApt CoordAngle DistLatLon HeadingNormalize HeadingDiff Lon2Dist Lat2Dist Dist2Lon Dist2Lat
     distToLineTy dist2 DistSqrOfBaseBeyondLine DistPointToLineSqr DistResultToBaseLoc SCND_PRIO_ADD
     APT_JOIN_MAX_DIST_M APT_JOIN_ANGLE_TOLERANCE APT_JOIN_ANGLE_TOLERANCE_EXT EDGE_UNKNOWN FPH_UNKNOWN
     EnlargeBounds_m).

(** X4: on a network whose indices are in range, [JoinOpenTaxiEdges] never
    throws; the network stays in range, the airport keeps its id and its
    numbers of taxi nodes and runway endpoints, and edges are only added. *)
Theorem JoinOpenTaxiEdges_ok apt :
  net_wf apt = true ->
  exists apt', JOTE apt = Some apt' /\ net_wf apt' = true /\ aid apt' = aid apt /\
    length (vecTaxiNodesA apt') = length (vecTaxiNodesA apt) /\
    length (vecRwyEndPts apt') = length (vecRwyEndPts apt) /\
    (length (vecTaxiEdges apt) <= length (vecTaxiEdges apt'))%nat.
Proof.
  intros H. apply net_wf_WF in H.
  destruct (join_loop_WF (length (vecTaxiNodesA apt)) 0 apt H) as (a & Ha & HW & Hg & Hn & Hr & He).
  exists a. unfold JoinOpenTaxiEdges. rewrite Ha. apply net_wf_WF in HW. auto 7.
Qed.

(** X5: [AddApt] on a well-ordered map and an airport whose indices are in
    range never throws and keeps the map ordered; an airport already stored
    under a key stays there, and the new airport, still in range and with
    its id, is stored under its id exactly when the id was not yet used. *)
Theorem AddApt_ok gmapApt apt :
  map_sorted gmapApt = true -> net_wf apt = true ->
  exists m' apt', ADDAPT gmapApt apt = Some m' /\ map_sorted m' = true /\
    aid apt' = aid apt /\ net_wf apt' = true /\
    forall k, map_find k m' =
      match map_find k gmapApt with
      | Some x => Some x
      | None => if String.eqb k (aid apt) then Some apt' else None
      end.
Proof.
  intros Hs H. apply net_wf_WF in H. unfold AddApt.
  match goal with |- context [SortTaxiEdges ?a1] => set (apt1 := a1) end.
  assert (HW1 : WF apt1) by (unfold apt1, WF; simpl; exact H).
  destruct (SortTaxiEdges_WF apt1 HW1) as [HW2 (Hg2 & _)].
  unfold JoinOpenTaxiEdges.
  destruct (join_loop_WF (length (vecTaxiNodesA (SortTaxiEdges apt1))) 0 (SortTaxiEdges apt1) HW2)
    as (a & Ha & HW & Hg & _).
  rewrite Ha. exists (emplace (aid a) a gmapApt), a.
  assert (Hid : aid a = aid apt) by (rewrite Hg, Hg2; reflexivity).
  split; [reflexivity|]. split; [exact (emplace_sorted _ _ _ Hs)|].
  split; [exact Hid|]. split; [apply net_wf_WF; exact HW|].
  intros k. rewrite emplace_find by exact Hs. rewrite Hid. reflexivity.
Qed.

End Loop.

Section Witnesses.
Import Samples Samples2.

Local Abbreviation JOTE_flat :=
  (JoinOpenTaxiEdges sampleAngle sampleDist (fun h => h) flatHeadingDiff flatLon2Dist flatLat2Dist
     flatLon2Dist flatLat2Dist (dbl * dbl) fst snd flatDistToLine flatBaseLoc (Fin 40) 2 (Fin 90) (Fin 90) 0 0).

(** Witness for X4: the T junction [teeApt]. *)
Lemma JoinOpenTaxiEdges_ok_witness :
  net_wf teeApt = true /\
  exists apt', JOTE_flat teeApt = Some apt' /\ net_wf apt' = true /\ aid apt' = aid teeApt /\
    length (vecTaxiNodesA apt') = length (vecTaxiNodesA teeApt) /\
    length (vecRwyEndPts apt') = length (vecRwyEndPts teeApt) /\
    (length (vecTaxiEdges teeApt) <= length (vecTaxiEdges apt'))%nat.
Proof.
  split; [vm_compute; reflexivity|].
  apply (JoinOpenTaxiEdges_ok sampleAngle sampleDist (fun h => h) flatHeadingDiff flatLon2Dist flatLat2Dist
           flatLon2Dist flatLat2Dist (dbl * dbl) fst snd flatDistToLine flatBaseLoc (Fin 40) 2 (Fin 90)
           (Fin 90) 0 0 teeApt).
  vm_compute. reflexivity.
Defined.

(** Witness for X5: adding [teeApt] to a map holding [twoTaxiApt]. *)
Lemma AddApt_ok_witness :
  map_sorted [("TWOTWY", twoTaxiApt)] = true /\ net_wf teeApt = true /\
  exists m' apt',
    AddApt sampleAngle sampleDist (fun h => h) flatHeadingDiff flatLon2Dist flatLat2Dist
      flatLon2Dist flatLat2Dist (dbl * dbl) fst snd flatDistToLine flatBaseLoc (Fin 40) 2 (Fin 90)
      (Fin 90) 0 0 (fun b => b) [("TWOTWY", twoTaxiApt)] teeApt = Some m' /\
    map_sorted m' = true /\ aid apt' = aid teeApt /\ net_wf apt' = true /\
    forall k, map_find k m' =
      match map_find k [("TWOTWY", twoTaxiApt)] with
      | Some x => Some x
      | None => if String.eqb k (aid teeApt) then Some apt' else None
      end.
Proof.
  split; [vm_compute; reflexivity|]. split; [vm_compute; reflexivity|].
  apply (AddApt_ok sampleAngle sampleDist (fun h => h) flatHeadingDiff flatLon2Dist flatLat2Dist
           flatLon2Dist flatLat2Dist (dbl * dbl) fst snd flatDistToLine flatBaseLoc (Fin 40) 2 (Fin 90)
           (Fin 90) 0 0 (fun b => b) [("TWOTWY", twoTaxiApt)] teeApt); vm_compute; reflexivity.
Defined.

End Witnesses.
End JoinProofs.

(** ** Runway list and altitudes *)

Module RwysProofs.
Import Build Rwys AptMap.

Lemma rwys_loop_app apt es1 es2 s :
  rwys_loop apt (es1 ++ es2) s = rwys_loop apt es2 (rwys_loop apt es1 s).
Proof.
  revert s. induction es1 as [|e es1 IH]; intros s; simpl; [reflexivity|].
  destruct (is_rwy e); apply IH.
Qed.

Lemma rwys_loop_ext apt apt' es s :
  Forall (fun e => is_rwy e = true ->
            rid (vecRwyEndPts apt' !!! ea e) = rid (vecRwyEndPts apt !!! ea e) /\
            rid (vecRwyEndPts apt' !!! eb e) = rid (vecRwyEndPts apt !!! eb e)) es ->
  rwys_loop apt' es s = rwys_loop apt es s.
Proof.
  revert s. induction es as [|e es IH]; intros s Hf; simpl; [reflexivity|].
  apply Forall_cons in Hf as [He Hf].
  destruct (is_rwy e) eqn:Hr; [|apply IH; exact Hf].
  unfold GetRwyEP_A, GetRwyEP_B. rewrite Hr.
  destruct (He eq_refl) as [-> ->]. apply IH. exact Hf.
Qed.

(** X6: adding a runway with [AddRwyEnds] appends it to [GetRwysString]:
    after a [" / "] if the string was not empty, the id of the end the
    normalised runway edge starts from, a ["-"], and the id of the other
    end; the end with id [id2] comes first when the bearing from end 1 to
    end 2 is 180 degrees or more. *)
Theorem GetRwysString_AddRwyEnds CoordAngle RwyTouchDown apt lat1 lon1 d1 id1 lat2 lon2 d2 id2 :
  forallb (fun e => negb (is_rwy e) ||
                    (Nat.ltb (ea e) (length (vecRwyEndPts apt)) && Nat.ltb (eb e) (length (vecRwyEndPts apt))))
          (vecTaxiEdges apt) = true ->
  GetRwysString (AddRwyEnds CoordAngle RwyTouchDown apt lat1 lon1 d1 id1 lat2 lon2 d2 id2) =
  let s := GetRwysString apt in
  let swapped := dge (CoordAngle lat1 lon1 lat2 lon2) (Fin 180) in
  String.append
    (String.append
       (String.append (if String.eqb s "" then s else String.append s " / ")
          (if swapped then id2 else id1)) "-")
    (if swapped then id1 else id2).
Proof.
  intros Hin. unfold GetRwysString, AddRwyEnds.
  destruct (RwyTouchDown lat1 lon1 d1 lat2 lon2 d2) as [[[[la1 lo1] la2] lo2] rd].
  cbn [vecTaxiEdges vecRwyEndPts]. rewrite rwys_loop_app.
  rewrite (rwys_loop_ext apt _ (vecTaxiEdges apt)); cycle 1.
  { apply Forall_forall. intros e He Hr.
    pose proof (proj1 (forallb_forall _ _) Hin e (proj1 (list_elem_of_In _ _) He)) as Hin'.
    clear Hin. rename Hin' into Hin. cbv beta in Hin. rewrite Hr in Hin. simpl in Hin. apply andb_true_iff in Hin as [Ha Hb].
    apply Nat.ltb_lt in Ha, Hb. cbn [vecRwyEndPts]. rewrite !lookup_total_app_l by lia. split; reflexivity. }
  set (s := rwys_loop apt (vecTaxiEdges apt) "").
  set (n := length (vecRwyEndPts apt)).
  assert (Hn : length (vecRwyEndPts apt ++ [RwyEndPt_new id1 la1 lo1; RwyEndPt_new id2 la2 lo2]) = (n + 2)%nat)
    by (rewrite length_app; reflexivity).
  rewrite Hn. replace (n + 2 - 2)%nat with n by lia. replace (n + 2 - 1)%nat with (S n) by lia.
  assert (H1 : (vecRwyEndPts apt ++ [RwyEndPt_new id1 la1 lo1; RwyEndPt_new id2 la2 lo2]) !!! n =
               RwyEndPt_new id1 la1 lo1)
    by (rewrite lookup_total_app_r by lia; replace (n - length (vecRwyEndPts apt))%nat with 0%nat by lia;
        reflexivity).
  assert (H2 : (vecRwyEndPts apt ++ [RwyEndPt_new id1 la1 lo1; RwyEndPt_new id2 la2 lo2]) !!! S n =
               RwyEndPt_new id2 la2 lo2)
    by (rewrite lookup_total_app_r by lia; replace (S n - length (vecRwyEndPts apt))%nat with 1%nat by lia;
        reflexivity).
  unfold TaxiEdge_new, Normalize. cbn [angle].
  destruct (dge (CoordAngle lat1 lon1 lat2 lon2) (Fin 180)); simpl;
    unfold GetRwyEP_A, GetRwyEP_B, is_rwy; simpl; rewrite ?H1, ?H2; reflexivity.
Qed.

Lemma ComputeAlt_idem YProbe_at_m re :
  ComputeAlt YProbe_at_m (ComputeAlt YProbe_at_m re) = ComputeAlt YProbe_at_m re.
Proof.
  unfold ComputeAlt. destruct (isnan (alt_m re)) eqn:H; simpl; [|rewrite H; reflexivity].
  destruct (isnan (YProbe_at_m (lat (rnode re)) (lon (rnode re)))); reflexivity.
Qed.

Lemma UpdateAltitudes_idem YProbe_at_m center apt :
  UpdateAltitudes YProbe_at_m center (UpdateAltitudes YProbe_at_m center apt) =
  UpdateAltitudes YProbe_at_m center apt.
Proof.
  unfold UpdateAltitudes. destruct (center (bounds apt)) as [cla clo] eqn:Hc. simpl.
  rewrite Hc, map_map. f_equal. apply map_ext. apply ComputeAlt_idem.
Qed.

(** X7: [LTAptUpdateRwyAltitudes] is idempotent: for a given terrain, a
    second run changes no airport, since the airport altitude is probed at
    the same center and a runway endpoint is only probed while its altitude
    is NaN, at the same coordinates. *)
Theorem LTAptUpdateRwyAltitudes_idem YProbe_at_m center m :
  LTAptUpdateRwyAltitudes YProbe_at_m center (LTAptUpdateRwyAltitudes YProbe_at_m center m) =
  LTAptUpdateRwyAltitudes YProbe_at_m center m.
Proof.
  unfold LTAptUpdateRwyAltitudes. rewrite map_map. apply map_ext.
  intros [k a]. simpl. rewrite UpdateAltitudes_idem. reflexivity.
Qed.

(** X8: [LTAptUpdateRwyAltitudes] never changes a runway endpoint whose
    altitude is known: after the update, the airport stored under the same
    key has the same endpoint at the same index. *)
Theorem LTAptUpdateRwyAltitudes_keeps_known YProbe_at_m center m k a j re :
  map_find k m = Some a -> vecRwyEndPts a !! j = Some re -> isnan (alt_m re) = false ->
  exists a', map_find k (LTAptUpdateRwyAltitudes YProbe_at_m center m) = Some a' /\
    vecRwyEndPts a' !! j = Some re.
Proof.
  intros Hf Hj Hn. exists (UpdateAltitudes YProbe_at_m center a). split.
  - induction m as [|[k' a'] m IH]; simpl in *; [discriminate|].
    destruct (String.eqb k k'); [injection Hf as ->; reflexivity|exact (IH Hf)].
  - unfold UpdateAltitudes. destruct (center (bounds a)). simpl.
    rewrite list_lookup_fmap, Hj. simpl. unfold ComputeAlt. rewrite Hn. reflexivity.
Qed.

Section Witnesses.
Import Samples.

Local Abbreviation oneRwyApt :=
  (AddRwyEnds sampleAngle rwyTD (Apt_new "RWY") (Fin 0) (Fin 0) (Fin 0) "05" (Fin 0) (Fin 10) (Fin 0) "23").

(** Witness for X6: a second runway, given from its western end with the
    bearing 270, is listed from its other end. *)
Lemma GetRwysString_AddRwyEnds_witness :
  forallb (fun e => negb (is_rwy e) ||
                    (Nat.ltb (ea e) (length (vecRwyEndPts oneRwyApt)) &&
                     Nat.ltb (eb e) (length (vecRwyEndPts oneRwyApt))))
          (vecTaxiEdges oneRwyApt) = true /\
  GetRwysString (AddRwyEnds rwyAngle270 rwyTD oneRwyApt (Fin 1) (Fin 0) (Fin 0) "09" (Fin 1) (Fin 10) (Fin 0) "27")
  = "05-23 / 27-09".
Proof.
  split; [vm_compute; reflexivity|].
  rewrite (GetRwysString_AddRwyEnds rwyAngle270 rwyTD oneRwyApt (Fin 1) (Fin 0) (Fin 0) "09"
             (Fin 1) (Fin 10) (Fin 0) "27"); [|vm_compute; reflexivity].
  vm_compute. reflexivity.
Defined.

Local Abbreviation altApt :=
  (mkApt "ALT" None NaN [] [mkRwyEndPt (TaxiNode_at (Fin 0) (Fin 0)) "09" (Fin 120) [];
                            mkRwyEndPt (TaxiNode_at (Fin 0) (Fin 10)) "27" NaN []] [] []).

(** Witness for X8: the known altitude of runway end 09 stays 120 with a
    terrain at 100. *)
Lemma LTAptUpdateRwyAltitudes_keeps_known_witness :
  map_find "ALT" [("ALT", altApt)] = Some altApt /\
  vecRwyEndPts altApt !! 0%nat = Some (mkRwyEndPt (TaxiNode_at (Fin 0) (Fin 0)) "09" (Fin 120) []) /\
  isnan (Fin 120) = false /\
  exists a', map_find "ALT" (LTAptUpdateRwyAltitudes (fun _ _ => Fin 100) (fun _ => (Fin 0, Fin 5))
                               [("ALT", altApt)]) = Some a' /\
    vecRwyEndPts a' !! 0%nat = Some (mkRwyEndPt (TaxiNode_at (Fin 0) (Fin 0)) "09" (Fin 120) []).
Proof.
  split; [reflexivity|]. split; [reflexivity|]. split; [reflexivity|].
  apply (LTAptUpdateRwyAltitudes_keeps_known (fun _ _ => Fin 100) (fun _ => (Fin 0, Fin 5))
           [("ALT", altApt)] "ALT" altApt 0 (mkRwyEndPt (TaxiNode_at (Fin 0) (Fin 0)) "09" (Fin 120) []));
    reflexivity.
Defined.

End Witnesses.
End RwysProofs.

(** ** Taxiway centerlines: [ReadOneTaxiLine] *)

Module TaxiLineProofs.
Import Build TaxiLine BuildProofs.

(** A new centerline edge in the node store [ns]: a taxiway between two
    different nodes of the store. *)
Definition line_edge (ns : list TaxiNode) (e : TaxiEdge) : Prop :=
  etype e = TAXI_WAY /\ (ea e < length ns)%nat /\ (eb e < length ns)%nat /\ ea e <> eb e.

Lemma line_edge_mono (ns ns' : list TaxiNode) es :
  (length ns <= length ns')%nat -> Forall (line_edge ns) es -> Forall (line_edge ns') es.
Proof.
  intros Hl Hf. refine (Forall_impl _ _ _ Hf _). intros e (H1 & H2 & H3 & H4). repeat split; auto; lia.
Qed.

Lemma similar_geo latDiff lonDiff la lo n :
  similar latDiff lonDiff la lo n = true -> HasGeoCoords n = true.
Proof.
  unfold similar, HasGeoCoords. intros H. apply andb_true_iff in H as [H1 H2].
  destruct (lat n), (lon n); simpl in *; try reflexivity;
    destruct la; simpl in *; try discriminate; destruct (lonDiff _); discriminate.
Qed.

Lemma find_similar_spec latDiff lonDiff ns i nt la lo j :
  find_similar latDiff lonDiff ns i nt la lo = Some j ->
  (i <= j < i + length ns)%nat /\ nt <> Some j /\
  similar latDiff lonDiff la lo (ns !!! (j - i)%nat) = true.
Proof.
  revert i. induction ns as [|n ns IH]; intros i H; simpl in H; [discriminate|].
  destruct (negb (bool_decide (nt = Some i)) && similar latDiff lonDiff la lo n) eqn:Hc.
  - injection H as <-. apply andb_true_iff in Hc as [Hn Hs].
    apply negb_true_iff, bool_decide_eq_false in Hn. rewrite Nat.sub_diag. simpl. repeat split; auto; lia.
  - destruct (IH (S i) H) as (Hr & Hnt & Hs). split; [simpl; lia|]. split; [exact Hnt|].
    replace (j - i)%nat with (S (j - S i)) by lia. exact Hs.
Qed.

Section Ops.
Variable CoordAngle DistLatLon : dbl -> dbl -> dbl -> dbl -> dbl.
Variable latDiff : dbl.
Variable lonDiff : dbl -> dbl.

(** What [AddTaxiNode] guarantees for a point with coordinates: a node with
    coordinates, not [dontCombineWith], the edges and runways untouched. *)
Lemma AddTaxiNode_geo apt la lo d :
  isnan la = false -> isnan lo = false ->
  (forall x, d = Some x -> (x < length (vecTaxiNodesA apt))%nat) ->
  exists apt' i, AddTaxiNode latDiff lonDiff apt la lo d = Some (apt', i) /\
    (i < length (vecTaxiNodesA apt'))%nat /\ HasGeoCoords (vecTaxiNodesA apt' !!! i) = true /\
    d <> Some i /\ vecTaxiEdges apt' = vecTaxiEdges apt /\ vecRwyEndPts apt' = vecRwyEndPts apt /\
    geo_mono (vecTaxiNodesA apt) (vecTaxiNodesA apt').
Proof.
  intros Hla Hlo Hd. unfold AddTaxiNode.
  assert (Hgs : GetSimilarTaxiNode latDiff lonDiff (vecTaxiNodesA apt) la lo d =
                Some (find_similar latDiff lonDiff (vecTaxiNodesA apt) 0 d la lo)).
  { destruct d as [x|]; [|reflexivity]. unfold GetSimilarTaxiNode.
    rewrite (proj2 (Nat.ltb_lt _ _) (Hd x eq_refl)). reflexivity. }
  rewrite Hgs.
  destruct (find_similar latDiff lonDiff (vecTaxiNodesA apt) 0 d la lo) as [j|] eqn:Hf.
  - apply find_similar_spec in Hf as (Hr & Hn & Hs). rewrite Nat.sub_0_r in Hs.
    exists apt, j. split; [reflexivity|]. split; [lia|].
    split; [exact (similar_geo _ _ _ _ _ Hs)|]. split; [exact Hn|].
    split; [reflexivity|]. split; [reflexivity|]. apply geo_mono_refl.
  - exists (mkApt (aid apt) (enlarge_pos (bounds apt) la lo) (aalt_m apt)
              (vecTaxiNodesA apt ++ [TaxiNode_at la lo]) (vecRwyEndPts apt)
              (vecTaxiEdges apt) (vecTaxiEdgesIdxHead apt)), (length (vecTaxiNodesA apt)).
    simpl. split; [reflexivity|]. split; [rewrite length_app; simpl; lia|].
    split; [rewrite lookup_total_app_r by lia; rewrite Nat.sub_diag; exact (geo_at _ _ Hla Hlo)|].
    split; [intros Hdx; specialize (Hd _ Hdx); lia|].
    split; [reflexivity|]. split; [reflexivity|]. apply geo_mono_app.
Qed.

(** [AddTaxiEdge] between two different nodes with coordinates appends one
    centerline edge and keeps the node coordinates. *)
Lemma AddTaxiEdge_line apt i j :
  (i < length (vecTaxiNodesA apt))%nat -> (j < length (vecTaxiNodesA apt))%nat ->
  HasGeoCoords (vecTaxiNodesA apt !!! i) = true -> HasGeoCoords (vecTaxiNodesA apt !!! j) = true ->
  i <> j ->
  exists apt' e, AddTaxiEdge CoordAngle DistLatLon apt i j NaN = Some (apt', Some (length (vecTaxiEdges apt))) /\
    vecTaxiEdges apt' = vecTaxiEdges apt ++ [e] /\ line_edge (vecTaxiNodesA apt') e /\
    vecRwyEndPts apt' = vecRwyEndPts apt /\
    length (vecTaxiNodesA apt') = length (vecTaxiNodesA apt) /\
    (forall k, HasGeoCoords (vecTaxiNodesA apt' !!! k) = HasGeoCoords (vecTaxiNodesA apt !!! k)).
Proof.
  intros Hi Hj Hgi Hgj Hij. unfold AddTaxiEdge. cbv zeta.
  rewrite (list_lookup_lookup_total_lt _ i Hi), (list_lookup_lookup_total_lt _ j Hj), Hgi, Hgj.
  cbn [negb orb]. eexists. eexists. split; [reflexivity|]. cbn [vecTaxiEdges vecTaxiNodesA vecRwyEndPts].
  split; [reflexivity|].
  split.
  { unfold line_edge. cbn [vecTaxiNodesA]. rewrite !length_insert. unfold TaxiEdge_new, Normalize. cbn [angle].
    destruct (dge _ (Fin 180)); simpl; repeat split; auto; lia. }
  split; [reflexivity|]. split; [rewrite !length_insert; reflexivity|].
  intros k. destruct (push2_lookup (vecTaxiNodesA apt) i j (length (vecTaxiEdges apt)) k Hi Hj)
    as (Hla & Hlo & _).
  unfold HasGeoCoords. rewrite Hla, Hlo. reflexivity.
Qed.

Variable DistLatLonSqr : dbl -> dbl -> dbl -> dbl -> dbl.
Variable HeadingDiff : dbl -> dbl -> dbl.
Variable APT_MAX_EDGE_LEN_M2 APT_MAX_TAXI_SEGM_TURN : dbl.

Local Abbreviation ELOOP :=
  (edge_loop CoordAngle DistLatLon latDiff lonDiff DistLatLonSqr HeadingDiff
     APT_MAX_EDGE_LEN_M2 APT_MAX_TAXI_SEGM_TURN).
Local Abbreviation ATL :=
  (AddTaxiLine CoordAngle DistLatLon latDiff lonDiff DistLatLonSqr HeadingDiff
     APT_MAX_EDGE_LEN_M2 APT_MAX_TAXI_SEGM_TURN).

Lemma edge_loop_step apt idxA fa b c l :
  ELOOP apt idxA fa (b :: c :: l) =
  let a := vecTaxiNodesA apt !!! idxA in
  let bcAngle := CoordAngle (lat b) (lon b) (lat c) (lon c) in
  if isnan fa then ELOOP apt idxA bcAngle (c :: l)
  else if dgt (DistLatLonSqr (lat a) (lon a) (lat c) (lon c)) APT_MAX_EDGE_LEN_M2 ||
          dgt (dabs (HeadingDiff fa bcAngle)) APT_MAX_TAXI_SEGM_TURN then
    match AddTaxiNode latDiff lonDiff apt (lat b) (lon b) None with
    | None => None
    | Some (apt1, idxB) =>
        if Nat.eqb idxA idxB then ELOOP apt1 idxA fa (c :: l)
        else
          match AddTaxiEdge CoordAngle DistLatLon apt1 idxA idxB NaN with
          | None => None
          | Some (apt2, _) => ELOOP apt2 idxB NaN (c :: l)
          end
    end
  else ELOOP apt idxA fa (c :: l).
Proof. reflexivity. Qed.

Lemma edge_loop_line l apt idxA fa :
  Forall (fun n => HasGeoCoords n = true) l ->
  (idxA < length (vecTaxiNodesA apt))%nat -> HasGeoCoords (vecTaxiNodesA apt !!! idxA) = true ->
  exists apt' idxA' new, ELOOP apt idxA fa l = Some (apt', idxA') /\
    (idxA' < length (vecTaxiNodesA apt'))%nat /\ HasGeoCoords (vecTaxiNodesA apt' !!! idxA') = true /\
    vecTaxiEdges apt' = vecTaxiEdges apt ++ new /\ Forall (line_edge (vecTaxiNodesA apt')) new /\
    (idxA' = idxA \/ new <> []) /\ vecRwyEndPts apt' = vecRwyEndPts apt /\
    geo_mono (vecTaxiNodesA apt) (vecTaxiNodesA apt').
Proof.
  revert apt idxA fa. induction l as [|b l IH]; intros apt idxA fa Hl Hi Hg.
  { exists apt, idxA, []. split; [reflexivity|]. split; [exact Hi|]. split; [exact Hg|]. split; [rewrite app_nil_r; reflexivity|].
    split; [constructor|]. split; [left; reflexivity|]. split; [reflexivity|apply geo_mono_refl]. }
  destruct l as [|c l'].
  { exists apt, idxA, []. split; [reflexivity|]. split; [exact Hi|]. split; [exact Hg|]. split; [rewrite app_nil_r; reflexivity|].
    split; [constructor|]. split; [left; reflexivity|]. split; [reflexivity|apply geo_mono_refl]. }
  apply Forall_cons in Hl as [Hb Hl].
  rewrite edge_loop_step. cbv zeta.
  destruct (isnan fa); [apply IH; auto|].
  destruct (_ || _); [|apply IH; auto].
  destruct (HasGeoCoords_nan _ Hb) as [Hla Hlo].
  destruct (AddTaxiNode_geo apt (lat b) (lon b) None Hla Hlo ltac:(discriminate))
    as (apt1 & idxB & Hadd & HiB & HgB & _ & He1 & Hr1 & Hm1).
  rewrite Hadd.
  assert (HiA1 : (idxA < length (vecTaxiNodesA apt1))%nat) by (destruct Hm1; lia).
  assert (HgA1 : HasGeoCoords (vecTaxiNodesA apt1 !!! idxA) = true) by (destruct Hm1 as [_ Hm1]; auto).
  destruct (Nat.eqb idxA idxB) eqn:Hab.
  - destruct (IH apt1 idxA fa Hl HiA1 HgA1) as (apt' & idxA' & new & Hr & H1 & H2 & H3 & H4 & H5 & H6 & H7).
    exists apt', idxA', new. rewrite Hr. rewrite <- He1, <- Hr1.
    split; [reflexivity|]. split; [exact H1|]. split; [exact H2|]. split; [exact H3|].
    split; [exact H4|]. split; [exact H5|]. split; [exact H6|]. exact (geo_mono_trans _ _ _ Hm1 H7).
  - apply Nat.eqb_neq in Hab.
    destruct (AddTaxiEdge_line apt1 idxA idxB HiA1 HiB HgA1 HgB Hab)
      as (apt2 & e & Hae & He2 & Hle & Hr2 & Hn2 & Hg2).
    rewrite Hae.
    assert (HiB2 : (idxB < length (vecTaxiNodesA apt2))%nat) by lia.
    assert (HgB2 : HasGeoCoords (vecTaxiNodesA apt2 !!! idxB) = true) by (rewrite Hg2; exact HgB).
    destruct (IH apt2 idxB NaN Hl HiB2 HgB2) as (apt' & idxA' & new & Hr & H1 & H2 & H3 & H4 & H5 & H6 & H7).
    exists apt', idxA', (e :: new). rewrite Hr.
    split; [reflexivity|]. split; [exact H1|]. split; [exact H2|].
    split; [rewrite H3, He2, He1, <- app_assoc; reflexivity|].
    split.
    { constructor; [|exact H4]. destruct H7 as [Hlen _].
      destruct Hle as (Ht & Ha & Hb' & Hne). repeat split; auto; lia. }
    split; [right; discriminate|]. split; [rewrite H6, Hr2, Hr1; reflexivity|].
    apply (geo_mono_trans _ _ _ Hm1). apply (geo_mono_trans _ _ _ (geo_mono_same _ _ Hn2 Hg2) H7).
Qed.

(** X9: [ReadOneTaxiLine] turns a centerline of at least two nodes, all with
    coordinates, into taxiway edges: it never throws, it appends at least
    one edge and keeps the edges already there, each new edge is a
    [TAXI_WAY] between two different nodes of the airport, and the runways
    are not touched.  The last node is never combined with the first, so
    even a closed line gets an edge. *)
Theorem AddTaxiLine_edges apt vecNodes :
  (2 <= length vecNodes)%nat -> forallb HasGeoCoords vecNodes = true ->
  exists apt' new, ATL apt vecNodes = Some apt' /\
    vecTaxiEdges apt' = vecTaxiEdges apt ++ new /\ new <> [] /\
    Forall (line_edge (vecTaxiNodesA apt')) new /\
    vecRwyEndPts apt' = vecRwyEndPts apt /\
    (length (vecTaxiNodesA apt) <= length (vecTaxiNodesA apt'))%nat.
Proof.
  intros Hlen Hgeo'.
  assert (Hgeo : Forall (fun n => HasGeoCoords n = true) vecNodes)
    by (apply Forall_forall; intros x Hx; exact (proj1 (forallb_forall _ _) Hgeo' x (proj1 (list_elem_of_In _ _) Hx))).
  unfold AddTaxiLine. rewrite (proj2 (Nat.leb_le _ _) Hlen). cbv zeta.
  assert (Hf : HasGeoCoords (vecNodes !!! 0%nat) = true) by (apply Forall_lookup_total_1; auto; lia).
  assert (Hbk : HasGeoCoords (vecNodes !!! (length vecNodes - 1)%nat) = true)
    by (apply Forall_lookup_total_1; auto; lia).
  destruct (HasGeoCoords_nan _ Hf) as [Hfa Hfo].
  destruct (AddTaxiNode_geo apt _ _ None Hfa Hfo ltac:(discriminate))
    as (apt1 & iF & Hadd1 & HiF & HgF & _ & He1 & Hr1 & Hm1).
  rewrite Hadd1.
  destruct (edge_loop_line vecNodes apt1 iF NaN Hgeo HiF HgF)
    as (apt2 & iA & new & Hl & HiA & HgA & He2 & Hn2 & Hor & Hr2 & Hm2).
  rewrite Hl.
  destruct (HasGeoCoords_nan _ Hbk) as [Hba Hbo].
  assert (HiF2 : (iF < length (vecTaxiNodesA apt2))%nat) by (destruct Hm2; lia).
  destruct (AddTaxiNode_geo apt2 _ _ (Some iF) Hba Hbo ltac:(intros x Hx; injection Hx as <-; exact HiF2))
    as (apt3 & iB & Hadd3 & HiB & HgB & HnB & He3 & Hr3 & Hm3).
  rewrite Hadd3.
  assert (Hlen3 : (length (vecTaxiNodesA apt) <= length (vecTaxiNodesA apt3))%nat)
    by (destruct Hm1, Hm2, Hm3; lia).
  destruct (Nat.eqb iA iB) eqn:Hab.
  - apply Nat.eqb_eq in Hab. subst iB.
    destruct Hor as [->|Hne]; [congruence|].
    exists apt3, new. split; [reflexivity|]. split; [rewrite He3, He2, He1; reflexivity|].
    split; [exact Hne|]. split; [apply (line_edge_mono _ _ _ (proj1 Hm3) Hn2)|].
    split; [rewrite Hr3, Hr2, Hr1; reflexivity|exact Hlen3].
  - apply Nat.eqb_neq in Hab.
    assert (HiA3 : (iA < length (vecTaxiNodesA apt3))%nat) by (destruct Hm3; lia).
    assert (HgA3 : HasGeoCoords (vecTaxiNodesA apt3 !!! iA) = true) by (destruct Hm3 as [_ Hm3]; auto).
    destruct (AddTaxiEdge_line apt3 iA iB HiA3 HiB HgA3 HgB Hab)
      as (apt4 & e & Hae & He4 & Hle & Hr4 & Hn4 & _).
    rewrite Hae. exists apt4, (new ++ [e]). split; [reflexivity|].
    split; [rewrite He4, He3, He2, He1, <- app_assoc; reflexivity|].
    split; [destruct new; discriminate|].
    split; [apply Forall_app; split; [apply (line_edge_mono (vecTaxiNodesA apt2)); [destruct Hm3; lia|exact Hn2]|
                                      constructor; [exact Hle|constructor]]|].
    split; [rewrite Hr4, Hr3, Hr2, Hr1; reflexivity|lia].
Qed.

End Ops.

(** The coordinates of a node. *)
Definition node_coords (n : TaxiNode) : dbl * dbl := (lat n, lon n).

Lemma Sorted_snoc {A} (R : A -> A -> Prop) (l : list A) x :
  Sorted R l -> (forall b, last l = Some b -> R b x) -> Sorted R (l ++ [x]).
Proof.
  induction l as [|a l IH]; intros Hs Hl; simpl.
  - constructor; constructor.
  - apply Sorted_inv in Hs as [Hs Hh]. constructor.
    + apply IH; [exact Hs|]. intros b Hb. apply Hl. destruct l; [discriminate|exact Hb].
    + destruct l as [|c l]; simpl.
      * constructor. apply Hl. reflexivity.
      * inversion Hh; subst. constructor. assumption.
Qed.

Section Nodes.
Variable dequal : dbl -> dbl -> bool.

Local Abbreviation ADD := (add_line_node dequal).
Local Abbreviation NEQ := (fun a b => CompEqualLatLon dequal a (lat b) (lon b) = false).

Lemma add_line_nodes_spec pts acc :
  exists L, fold_left ADD pts acc = acc ++ L /\
    map node_coords L `sublist_of` pts /\
    (Sorted NEQ acc -> Sorted NEQ (fold_left ADD pts acc)) /\
    Forall (fun p => exists n, n ∈ fold_left ADD pts acc /\
                       (node_coords n = p \/ CompEqualLatLon dequal n (fst p) (snd p) = true)) pts.
Proof.
  revert acc. induction pts as [|p pts IH]; intros acc; simpl.
  { exists []. rewrite app_nil_r. split; [reflexivity|]. split; [constructor|]. split; auto. }
  destruct (last acc) as [b|] eqn:Hlast;
    [destruct (CompEqualLatLon dequal b (fst p) (snd p)) eqn:Hc|].
  - replace (ADD acc p) with acc by (unfold add_line_node; rewrite Hlast, Hc; reflexivity).
    destruct (IH acc) as (L & HL & Hsub & Hsort & Hcov).
    exists L. split; [exact HL|]. split; [apply sublist_cons; exact Hsub|]. split; [exact Hsort|].
    constructor; [|exact Hcov]. exists b. split; [|right; exact Hc].
    rewrite HL. apply elem_of_app. left. apply last_Some_elem_of. exact Hlast.
  - replace (ADD acc p) with (acc ++ [TaxiNode_at (fst p) (snd p)])
      by (unfold add_line_node; rewrite Hlast, Hc; reflexivity).
    destruct (IH (acc ++ [TaxiNode_at (fst p) (snd p)])) as (L & HL & Hsub & Hsort & Hcov).
    exists (TaxiNode_at (fst p) (snd p) :: L). split; [rewrite HL, <- app_assoc; reflexivity|].
    split; [destruct p; apply sublist_skip; exact Hsub|].
    split.
    { intros Hs. apply Hsort. apply Sorted_snoc; [exact Hs|].
      intros b' Hb'. rewrite Hlast in Hb'. injection Hb' as <-. exact Hc. }
    constructor; [|exact Hcov]. exists (TaxiNode_at (fst p) (snd p)). split; [|left; destruct p; reflexivity].
    rewrite HL. apply elem_of_app. left. apply elem_of_app. right. apply list_elem_of_singleton. reflexivity.
  - replace (ADD acc p) with (acc ++ [TaxiNode_at (fst p) (snd p)])
      by (unfold add_line_node; rewrite Hlast; reflexivity).
    destruct (IH (acc ++ [TaxiNode_at (fst p) (snd p)])) as (L & HL & Hsub & Hsort & Hcov).
    exists (TaxiNode_at (fst p) (snd p) :: L). split; [rewrite HL, <- app_assoc; reflexivity|].
    split; [destruct p; apply sublist_skip; exact Hsub|].
    split.
    { intros Hs. apply Hsort. apply Sorted_snoc; [exact Hs|].
      intros b' Hb'. rewrite Hlast in Hb'. discriminate. }
    constructor; [|exact Hcov]. exists (TaxiNode_at (fst p) (snd p)). split; [|left; destruct p; reflexivity].
    rewrite HL. apply elem_of_app. left. apply elem_of_app. right. apply list_elem_of_singleton. reflexivity.
Qed.

(** X10: the nodes [ReadOneTaxiLine] collects from the lines of a section
    are the points read, in order, less some: the first point is always
    kept, no kept node equals the next one ([CompEqualLatLon]), and every
    point read is kept or equals a kept node. *)
Theorem line_nodes_spec pts :
  let ns := fold_left ADD pts [] in
  map node_coords ns `sublist_of` pts /\
  head (map node_coords ns) = head pts /\
  Sorted NEQ ns /\
  Forall (fun p => exists n, n ∈ ns /\
                     (node_coords n = p \/ CompEqualLatLon dequal n (fst p) (snd p) = true)) pts.
Proof.
  cbv zeta. destruct (add_line_nodes_spec pts []) as (L & HL & Hsub & Hsort & Hcov).
  split; [rewrite HL, app_nil_l; exact Hsub|].
  split; [|split; [apply Hsort; constructor|exact Hcov]].
  destruct pts as [|p pts]; [reflexivity|].
  cbn [fold_left]. replace (ADD [] p) with [TaxiNode_at (fst p) (snd p)] by reflexivity.
  destruct (add_line_nodes_spec pts [TaxiNode_at (fst p) (snd p)]) as (L' & HL' & _).
  rewrite HL'. destruct p. reflexivity.
Qed.

End Nodes.

Section Witnesses.
Import Samples.

Local Abbreviation loopLine :=
  [TaxiNode_at (Fin 0) (Fin 0); TaxiNode_at (Fin 0) (Fin 10); TaxiNode_at (Fin 10) (Fin 10);
   TaxiNode_at (Fin 0) (Fin 0)].

(** Witness for X9: a closed centerline of four nodes, whose last node is
    the first. *)
Lemma AddTaxiLine_edges_witness :
  (2 <= length loopLine)%nat /\ forallb HasGeoCoords loopLine = true /\
  exists apt' new,
    AddTaxiLine sampleAngle sampleDist (Fin 1) (fun _ => Fin 1) (fun _ _ _ _ => Fin 0) (fun a b => dsub b a)
      (Fin 100) (Fin 45) (Apt_new "LOOP") loopLine = Some apt' /\
    vecTaxiEdges apt' = vecTaxiEdges (Apt_new "LOOP") ++ new /\ new <> [] /\
    Forall (line_edge (vecTaxiNodesA apt')) new /\
    vecRwyEndPts apt' = vecRwyEndPts (Apt_new "LOOP") /\
    (length (vecTaxiNodesA (Apt_new "LOOP")) <= length (vecTaxiNodesA apt'))%nat.
Proof.
  split; [simpl; lia|]. split; [reflexivity|].
  apply (AddTaxiLine_edges sampleAngle sampleDist (Fin 1) (fun _ => Fin 1) (fun _ _ _ _ => Fin 0)
           (fun a b => dsub b a) (Fin 100) (Fin 45) (Apt_new "LOOP") loopLine); [simpl; lia|reflexivity].
Defined.

End Witnesses.
End TaxiLineProofs.

(** ** The airport map: [PurgeApt] and [LTAptFind] *)

Module AptMapProofs.
Import AptMap JoinProofs.

Lemma Forall_above_trans k k1 m :
  String.compare k k1 = Lt -> Forall (fun p : string * Apt => String.compare k1 (fst p) = Lt) m ->
  Forall (fun p : string * Apt => String.compare k (fst p) = Lt) m.
Proof.
  intros Hk Hf. refine (Forall_impl _ _ _ Hf _). intros p Hp. exact (str_lt_trans _ _ _ Hk Hp).
Qed.

Section Purge.
Variable overlap : boundingBoxTy -> boundingBoxTy -> bool.

Lemma PurgeApt_Forall (P : string * Apt -> Prop) box m :
  Forall P m -> Forall P (PurgeApt overlap box m).
Proof.
  induction 1 as [|[k a] m Hp _ IH]; simpl; [constructor|].
  destruct (overlap (bounds a) box); [constructor; assumption|exact IH].
Qed.

(** X11: [PurgeApt] keeps the map ordered and removes exactly the airports
    whose bounds do not overlap the box: under every key it finds the
    airport it found before if that one overlaps the box, and nothing
    otherwise. *)
Theorem PurgeApt_find box m :
  map_sorted m = true ->
  map_sorted (PurgeApt overlap box m) = true /\
  forall k, map_find k (PurgeApt overlap box m) =
    match map_find k m with
    | Some a => if overlap (bounds a) box then Some a else None
    | None => None
    end.
Proof.
  induction m as [|[k1 a1] m IH]; intros Hs; [split; [reflexivity|intros k; reflexivity]|].
  pose proof (sorted_above _ _ _ Hs) as Ha. destruct (IH (sorted_tail _ _ Hs)) as [Hs' Hf].
  simpl. destruct (overlap (bounds a1) box) eqn:Ho.
  - split; [apply sorted_cons; [apply PurgeApt_Forall; exact Ha|exact Hs']|].
    intros k. simpl. destruct (String.eqb k k1); [rewrite Ho; reflexivity|apply Hf].
  - split; [exact Hs'|]. intros k. rewrite Hf.
    destruct (String.eqb_spec k k1) as [->|]; [|reflexivity].
    rewrite (map_find_above _ _ Ha), Ho. reflexivity.
Qed.

End Purge.

Section Find.
Variable contains : boundingBoxTy -> Snap.positionTy -> bool.

(** X12: [LTAptFind] returns the airport with the smallest key whose bounds
    contain the position, stored under that key; [None] only when no
    airport of the map contains the position. *)
Theorem LTAptFind_first m pos :
  map_sorted m = true ->
  match LTAptFind contains m pos with
  | Some (k, a) =>
      map_find k m = Some a /\ contains (bounds a) pos = true /\
      forall k' a', map_find k' m = Some a' -> String.compare k' k = Lt -> contains (bounds a') pos = false
  | None => forall k a, map_find k m = Some a -> contains (bounds a) pos = false
  end.
Proof.
  induction m as [|[k1 a1] m IH]; intros Hs; [simpl; discriminate|].
  pose proof (sorted_above _ _ _ Hs) as Ha. specialize (IH (sorted_tail _ _ Hs)).
  simpl. destruct (contains (bounds a1) pos) eqn:Hc.
  - simpl. rewrite String.eqb_refl. split; [reflexivity|]. split; [exact Hc|].
    intros k' a' Hf Hlt. destruct (String.eqb_spec k' k1) as [->|Hne].
    + rewrite str_compare_refl in Hlt. discriminate.
    + rewrite (map_find_above _ _ (Forall_above_trans _ _ _ Hlt Ha)) in Hf. discriminate.
  - destruct (LTAptFind contains m pos) as [[k a]|].
    + destruct IH as (Hf & Hk & Hmin).
      assert (Hne : k <> k1) by (intros ->; rewrite (map_find_above _ _ Ha) in Hf; discriminate).
      simpl. rewrite (proj2 (String.eqb_neq _ _) Hne). split; [exact Hf|]. split; [exact Hk|].
      intros k' a' Hf' Hlt. destruct (String.eqb_spec k' k1) as [->|]; [injection Hf' as <-; exact Hc|].
      exact (Hmin k' a' Hf' Hlt).
    + intros k a Hf. simpl in Hf. destruct (String.eqb_spec k k1) as [->|]; [injection Hf as <-; exact Hc|].
      exact (IH k a Hf).
Qed.

End Find.

Section Witnesses.
Import Samples2.

(** Witness for X11: a box around the first airport of [boxMap]. *)
Lemma PurgeApt_find_witness :
  map_sorted boxMap = true /\
  map_sorted (PurgeApt boxOverlap (Some (Fin 5, Fin 5, Fin 20, Fin 20)) boxMap) = true /\
  forall k, map_find k (PurgeApt boxOverlap (Some (Fin 5, Fin 5, Fin 20, Fin 20)) boxMap) =
    match map_find k boxMap with
    | Some a => if boxOverlap (bounds a) (Some (Fin 5, Fin 5, Fin 20, Fin 20)) then Some a else None
    | None => None
    end.
Proof.
  split; [reflexivity|].
  apply (PurgeApt_find boxOverlap (Some (Fin 5, Fin 5, Fin 20, Fin 20)) boxMap). reflexivity.
Defined.

(** Witness for X12: a position at the second airport of [boxMap]. *)
Lemma LTAptFind_first_witness :
  map_sorted boxMap = true /\
  match LTAptFind boxContains boxMap (Snap.mkPos (Fin 105) (Fin 105) (Fin 0) (Fin 0) 0 0) with
  | Some (k, a) =>
      map_find k boxMap = Some a /\ boxContains (bounds a) (Snap.mkPos (Fin 105) (Fin 105) (Fin 0) (Fin 0) 0 0) = true /\
      forall k' a', map_find k' boxMap = Some a' -> String.compare k' k = Lt ->
        boxContains (bounds a') (Snap.mkPos (Fin 105) (Fin 105) (Fin 0) (Fin 0) 0 0) = false
  | None => forall k a, map_find k boxMap = Some a ->
      boxContains (bounds a) (Snap.mkPos (Fin 105) (Fin 105) (Fin 0) (Fin 0) 0 0) = false
  end.
Proof.
  split; [reflexivity|].
  apply (LTAptFind_first boxContains boxMap (Snap.mkPos (Fin 105) (Fin 105) (Fin 0) (Fin 0) 0 0)). reflexivity.
Defined.

End Witnesses.
End AptMapProofs.

(** ** The taxi path inserted into the position deque by [SnapToTaxiway] *)

Module SnapPathProofs.
Import Snap Build SnapPath.

Lemma splice_lookup (dq ins : list positionTy) (posIter : nat) :
  (posIter < length dq)%nat ->
  (take posIter dq ++ ins ++ drop posIter dq) !!! (posIter + length ins)%nat = dq !!! posIter.
Proof.
  intros Hlt. assert (Ht : length (take posIter dq) = posIter) by (apply length_take_le; lia).
  rewrite lookup_total_app_r by lia. rewrite Ht.
  replace (posIter + length ins - posIter)%nat with (length ins + 0)%nat by lia.
  rewrite lookup_total_app_r by lia. replace (length ins + 0 - length ins)%nat with 0%nat by lia.
  rewrite !list_lookup_total_alt, lookup_drop, Nat.add_0_r. reflexivity.
Qed.

Section PathSec.
Variable EDGE_UNAVAIL : nat.
Variable FPH_TAXI : Z.
Variable HeadingDiff : dbl -> dbl -> dbl.
Variable DistLatLon : dbl -> dbl -> dbl -> dbl -> dbl.
Variable dmul ddiv : dbl -> dbl -> dbl.
Variable HasTaxiEdge : positionTy -> bool.
Variable hasAc : bool.
Variable acToPos : positionTy.
Variable MAX_TAXI_SPEED ONE_POINT_FIVE SIMILAR_TS_INTVL : dbl.

Local Abbreviation ITP :=
  (InsertTaxiPath EDGE_UNAVAIL FPH_TAXI HeadingDiff DistLatLon dmul ddiv HasTaxiEdge hasAc acToPos
     MAX_TAXI_SPEED ONE_POINT_FIVE SIMILAR_TS_INTVL).

Lemma insert_loop_spec nodes tsOf path dq it :
  (it <= length dq)%nat ->
  insert_loop EDGE_UNAVAIL FPH_TAXI nodes tsOf path dq it =
  (take it dq ++ map (fun n => insPos EDGE_UNAVAIL FPH_TAXI (nodes !!! n) (tsOf (nodes !!! n))) path ++ drop it dq,
   (it + length path)%nat).
Proof.
  revert dq it. induction path as [|n path IH]; intros dq it Hle; simpl.
  - rewrite Nat.add_0_r, take_drop. reflexivity.
  - set (x := insPos EDGE_UNAVAIL FPH_TAXI (nodes !!! n) (tsOf (nodes !!! n))).
    assert (Hl : length (take it dq ++ [x]) = S it) by (rewrite length_app, length_take_le by lia; simpl; lia).
    replace (take it dq ++ x :: drop it dq) with ((take it dq ++ [x]) ++ drop it dq)
      by (rewrite <- app_assoc; reflexivity).
    rewrite IH by (rewrite length_app, Hl, length_drop; lia).
    rewrite take_app_length' by (symmetry; exact Hl). rewrite drop_app_length' by (symmetry; exact Hl).
    rewrite <- app_assoc. simpl. f_equal. lia.
Qed.

(** X13: the path [SnapToTaxiway] inserts into the position deque goes in
    just before the snapped position: the positions before and from it on
    are kept in order, the returned iterator points to the originally passed
    in position again, and the inserted positions (none, or a whole path of
    at least two nodes) are marked [EDGE_UNAVAIL] and [FPH_TAXI], their
    heading to be populated later (NaN). *)
Theorem InsertTaxiPath_splice apt dq posIter eIdx dq' it' :
  (posIter < length dq)%nat -> ITP apt dq posIter eIdx = Some (dq', it') ->
  exists ins, dq' = take posIter dq ++ ins ++ drop posIter dq /\ it' = (posIter + length ins)%nat /\
    dq' !!! it' = dq !!! posIter /\ (ins = [] \/ (2 <= length ins)%nat) /\
    Forall (fun p => edgeIdx p = EDGE_UNAVAIL /\ flightPhase p = FPH_TAXI /\ isnan (pheading p) = true) ins.
Proof.
  intros Hlt H. unfold InsertTaxiPath in H. cbv zeta in H.
  repeat case_match; try discriminate;
  match type of H with
  | Some (insert_loop _ _ _ _ _ _ _) = _ =>
      rewrite insert_loop_spec in H by lia; injection H as <- <-;
      eexists; split; [reflexivity|]; split; [rewrite length_map; reflexivity|];
      split; [match goal with |- (_ ++ ?ins ++ _) !!! (_ + length ?path)%nat = _ =>
                replace (posIter + length path)%nat with (posIter + length ins)%nat
                  by (rewrite length_map; reflexivity);
                apply splice_lookup; exact Hlt end|];
      split; [right; rewrite length_map, length_rev; apply Nat.leb_le; assumption|];
      apply Forall_forall; intros q Hq; apply list_elem_of_fmap in Hq as (n & -> & _);
      split; [reflexivity|]; split; reflexivity
  | Some _ = _ =>
      injection H as <- <-; exists []; rewrite app_nil_l, take_drop, Nat.add_0_r;
      split; [reflexivity|]; split; [reflexivity|]; split; [reflexivity|];
      split; [left; reflexivity|constructor]
  end.
Qed.

End PathSec.

Section Witnesses.
Import Samples Samples2.

Local Abbreviation ITPline :=
  (InsertTaxiPath 99 7 (fun a b => dsub b a) sampleDist dmulF ddivF (fun p => Nat.ltb (edgeIdx p) 4) false
     linePrev (Fin 1) (Fin 2) (Fin 1) lineApt [linePrev; linePos] 1 3).

(** Witness for X13: the path from the end of the first edge to the start of
    the last edge of [lineApt] (two nodes) goes in before [linePos]. *)
Lemma InsertTaxiPath_splice_witness :
  match ITPline with
  | Some (dq', it') =>
      (1 < length [linePrev; linePos])%nat /\ ITPline = Some (dq', it') /\
      exists ins, dq' = take 1 [linePrev; linePos] ++ ins ++ drop 1 [linePrev; linePos] /\
        it' = (1 + length ins)%nat /\ dq' !!! it' = [linePrev; linePos] !!! 1%nat /\
        (ins = [] \/ (2 <= length ins)%nat) /\
        Forall (fun p => edgeIdx p = 99%nat /\ flightPhase p = 7 /\ isnan (pheading p) = true) ins
  | None => False
  end.
Proof.
  destruct ITPline as [[dq' it']|] eqn:E; [|vm_compute in E; discriminate].
  split; [simpl; lia|]. split; [reflexivity|].
  apply (InsertTaxiPath_splice 99 7 (fun a b => dsub b a) sampleDist dmulF ddivF
           (fun p => Nat.ltb (edgeIdx p) 4) false linePrev (Fin 1) (Fin 2) (Fin 1)
           lineApt [linePrev; linePos] 1 3 dq' it'); [simpl; lia|exact E].
Defined.

End Witnesses.
End SnapPathProofs.
